(** * Maze generation and A* search: a shallow embedding of [maze.py] and
    [astar.py], with the properties of their specification.

    Conventions of the embedding.
    - A position is the Python tuple [(row, col)] of unbounded integers.
    - A numpy 2-D integer array is the list of its rows; [0] is an OPEN cell
      and [1] a WALL.
    - Python objects that are shared and mutated (the [Node]s held both by the
      [nodes] dictionary and by the heap [open_list]) live in one store, the
      dictionary itself: a position has at most one [Node] object, so the
      position serves as the address of the object, and the heap holds
      addresses.  A comparison made by the heap reads the store as it is at
      the time of the comparison.
    - Numbers are unbounded integers; the floats made by [float(i)] from
      path indices and Manhattan distances are the same integers.
    - The module [random] is a sequence of draws, [rng : nat → nat], read in
      order; the properties hold for every such sequence.
    - Loops take a fuel argument.  The search and the carving loop fix their
      fuel from the size of the grid, and it is shown never to run out.  The
      rejection loops that pick the start and the end can run for ever on an
      unlucky sequence of draws; their fuel is an argument of [generate]. *)

From Stdlib Require Import ZArith Lia.
From stdpp Require Import gmap strings list fin_maps sorting pretty.

Open Scope Z_scope.

(** ** Positions and arrays *)

Definition pos : Type := (Z * Z)%type.

(** Two cells are 4-adjacent when they differ by one step up, down, left or right. *)
Definition adjacent (p q : pos) : bool :=
  Z.abs (p.1 - q.1) + Z.abs (p.2 - q.2) =? 1.

Abbreviation ndarray := (list (list Z)).

Definition shape (a : ndarray) : Z * Z :=
  (Z.of_nat (length a), Z.of_nat (length (default [] (head a)))).

(** numpy's treatment of one index along an axis of length [n]: negative
    indices count from the end, anything else out of range is an error. *)
Definition np_index (n i : Z) : option nat :=
  if (0 <=? i) && (i <? n) then Some (Z.to_nat i)
  else if (- n <=? i) && (i <? 0) then Some (Z.to_nat (i + n))
  else None.

(** [a[r, c]]; [None] stands for IndexError. *)
Definition getitem (a : ndarray) (r c : Z) : option Z :=
  i ← np_index (shape a).1 r;
  j ← np_index (shape a).2 c;
  row ← a !! i;
  row !! j.

(** [a[r, c] = v]; [None] stands for IndexError. *)
Definition setitem (a : ndarray) (r c : Z) (v : Z) : option ndarray :=
  i ← np_index (shape a).1 r;
  j ← np_index (shape a).2 c;
  row ← a !! i;
  _ ← row !! j;
  Some (<[i := <[j := v]> row]> a).

(** [np.ones((h, w), dtype=int)] for sizes that are not negative.  numpy
    refuses an array beyond the limits of its index type and of the memory of
    the machine; these limits are not represented. *)
Definition np_ones (h w : Z) : ndarray :=
  replicate (Z.to_nat h) (replicate (Z.to_nat w) 1).

(** An OPEN cell of the array: an index inside it that holds [0]. *)
Definition open_cell (a : ndarray) (p : pos) : bool :=
  (0 <=? p.1) && (p.1 <? (shape a).1) && (0 <=? p.2) && (p.2 <? (shape a).2)
  && bool_decide (getitem a p.1 p.2 = Some 0).

(** Consecutive entries of a sequence of cells are 4-adjacent. *)
Fixpoint chained (l : list pos) : bool :=
  match l with
  | p :: (q :: _) as t => adjacent p q && chained t
  | _ => true
  end.

(** A simple path from [p] to [q] through the cells of [V]. *)
Definition simple_path_on (V : pos → Prop) (p q : pos) (l : list pos) : Prop :=
  head l = Some p ∧ last l = Some q ∧ NoDup l ∧ Forall V l ∧ chained l = true.

(** The graph on [V] with the 4-adjacency is a tree: any two of its cells are
    joined by exactly one simple path. *)
Definition tree_on (V : pos → Prop) : Prop :=
  ∀ p q, V p → V q →
    ∃ l, simple_path_on V p q l ∧ ∀ l', simple_path_on V p q l' → l' = l.

(** The same for the OPEN cells of an array. *)
Definition is_open (a : ndarray) (p : pos) : Prop := open_cell a p = true.
Definition simple_path (a : ndarray) : pos → pos → list pos → Prop :=
  simple_path_on (is_open a).
Definition is_tree (a : ndarray) : Prop := tree_on (is_open a).

(** ** The binary heap of Python's [heapq], over a comparison [lt] *)

Module heapq.

(** Exchange of the entries at two indices. *)
Definition swap (heap : list pos) (i j : nat) : list pos :=
  match heap !! i, heap !! j with
  | Some a, Some b => <[j := a]> (<[i := b]> heap)
  | _, _ => heap
  end.

(** [_siftdown(heap, startpos, pos)]: the item at [pos] moves towards the
    root while it is smaller than its parent.  The item is exchanged with its
    parent at every step (as CPython's C implementation does) instead of
    being written once at the end; the list after the loop is the same. *)
Fixpoint _siftdown (fuel : nat) (lt : pos → pos → bool) (heap : list pos)
    (startpos p : nat) : list pos :=
  match fuel with
  | O => heap
  | S k =>
    if (startpos <? p)%nat then
      let parentpos := ((p - 1) / 2)%nat in
      match heap !! p, heap !! parentpos with
      | Some newitem, Some par =>
        if lt newitem par
        then _siftdown k lt (swap heap p parentpos) startpos parentpos
        else heap
      | _, _ => heap
      end
    else heap
  end.

(** The loop of [_siftup(heap, pos)]: the smaller child moves up until a leaf
    is reached; returns the list and the position of the leaf. *)
Fixpoint _siftup_loop (fuel : nat) (lt : pos → pos → bool) (heap : list pos)
    (p : nat) : list pos * nat :=
  match fuel with
  | O => (heap, p)
  | S k =>
    let endpos := length heap in
    let childpos := (2 * p + 1)%nat in
    if (childpos <? endpos)%nat then
      let rightpos := (childpos + 1)%nat in
      let childpos :=
        match heap !! childpos, heap !! rightpos with
        | Some c, Some r => if negb (lt c r) then rightpos else childpos
        | _, _ => childpos
        end in
      _siftup_loop k lt (swap heap p childpos) childpos
    else (heap, p)
  end.

Definition _siftup (lt : pos → pos → bool) (heap : list pos) (p : nat) : list pos :=
  let r := _siftup_loop (length heap) lt heap p in
  _siftdown (length heap) lt r.1 p r.2.

(** [heappush(heap, item)]. *)
Definition heappush (lt : pos → pos → bool) (heap : list pos) (item : pos) : list pos :=
  let heap := heap ++ [item] in
  _siftdown (length heap) lt heap 0 (length heap - 1).

(** [heappop(heap)]: the popped item and the remaining heap; [None] on an
    empty heap (never called so by [find_path], whose loop tests it first). *)
Definition heappop (lt : pos → pos → bool) (heap : list pos) : option (pos * list pos) :=
  match last heap with
  | None => None
  | Some lastelt =>
    match take (length heap - 1) heap with
    | [] => Some (lastelt, [])
    | returnitem :: rest =>
      Some (returnitem, _siftup lt (<[0%nat := lastelt]> (returnitem :: rest)) 0)
    end
  end.

End heapq.

(** ** astar.py *)

Module astar.

(** [class Node]; the field [pos] is the key under which the object is
    stored.  The fields [g], [h], [f] of a fresh [Node(pos=...)] are
    [float('inf')]; every creation in [find_path] is followed, before any
    read, by the assignment of integers to them, so the object is created
    here with the assigned values. *)
Record Node := mkNode {
  g : Z;
  h : Z;
  f : Z;
  parent : option pos;
  status : string
}.

(** One entry of a cost timeline: the dictionary with keys g, h, f, status. *)
Record CostRecord := mkCost {
  cost_g : Z;
  cost_h : Z;
  cost_f : Z;
  cost_status : string
}.

(** [class AStar]: the instance state set by [__init__]. *)
Record AStar := mkAStar {
  maze : ndarray;
  height : Z;
  width : Z;
  cost_history : list CostRecord
}.

Definition __init__ (m : ndarray) : AStar :=
  mkAStar m (shape m).1 (shape m).2 [].

(** [Node.__lt__], on two objects of the store. *)
Definition f_of (nodes : gmap pos Node) (p : pos) : Z :=
  match nodes !! p with Some n => f n | None => 0 end.

Definition __lt__ (nodes : gmap pos Node) (a b : pos) : bool :=
  f_of nodes a <? f_of nodes b.

Definition heuristic (p e : pos) : Z :=
  Z.abs (p.1 - e.1) + Z.abs (p.2 - e.2).

(** The test of [get_neighbors]: inside the grid and OPEN. *)
Definition walkable (a : AStar) (p : pos) : bool :=
  (0 <=? p.1) && (p.1 <? height a) && (0 <=? p.2) && (p.2 <? width a)
  && bool_decide (getitem (maze a) p.1 p.2 = Some 0).

Definition get_neighbors (a : AStar) (p : pos) : list pos :=
  filter (λ q, Is_true (walkable a q))
    (map (λ d : Z * Z, (p.1 + d.1, p.2 + d.2)) [(0, 1); (1, 0); (0, -1); (-1, 0)]).

Definition record_step (cost_history : list CostRecord) (node : Node) : list CostRecord :=
  cost_history ++ [mkCost (g node) (h node) (f node) (status node)].

Definition generate_path_costs (path : list pos) (e : pos) : list CostRecord :=
  imap (λ i p,
    let g := Z.of_nat i in
    let h := heuristic p e in
    let f := g + h in
    mkCost g h f (if bool_decide (p = e) then "reached" else "on_path")) path.

(** The local state of one call of [find_path]. *)
Record search := mkSearch {
  open_list : list pos;
  closed_set : gset pos;
  nodes : gmap pos Node
}.

(** The body of [for neighbor_pos in self.get_neighbors(current_pos)]. *)
Definition relax (e current : pos) (s : search) (neighbor_pos : pos) : search :=
  if bool_decide (neighbor_pos ∈ closed_set s) then s
  else
    match nodes s !! current with
    | None => s
    | Some cur =>
      let tentative_g := g cur + 1 in
      let proceed :=
        match nodes s !! neighbor_pos with
        | None => true
        | Some neighbor => negb (g neighbor <=? tentative_g)
        end in
      if proceed then
        let hn := heuristic neighbor_pos e in
        let neighbor := mkNode tentative_g hn (tentative_g + hn) (Some current) "evaluating" in
        let nodes' := <[neighbor_pos := neighbor]> (nodes s) in
        if bool_decide (neighbor_pos ∈ open_list s)
        then mkSearch (open_list s) (closed_set s) nodes'
        else mkSearch (heapq.heappush (__lt__ nodes') (open_list s) neighbor_pos)
                      (closed_set s) nodes'
      else s
    end.

(** [while current: path.append(current.pos); current = current.parent]. *)
Fixpoint rebuild (fuel : nat) (nodes : gmap pos Node) (current : option pos)
    (path : list pos) : option (list pos) :=
  match current with
  | None => Some path
  | Some p =>
    match fuel with
    | O => None
    | S k => rebuild k nodes (nodes !! p ≫= parent) (path ++ [p])
    end
  end.

(** What a run of the main loop leaves: the returned pair ([None] when the
    fuel ran out), the final local state and the instance's [cost_history]. *)
Record run := mkRun {
  result : option (list pos * list CostRecord);
  final : search;
  history : list CostRecord
}.

(** [while open_list: ...] followed by [return [], []]. *)
Fixpoint search_loop (fuel : nat) (a : AStar) (e : pos) (s : search)
    (hist : list CostRecord) : run :=
  match fuel with
  | O => mkRun None s hist
  | S k =>
    match heapq.heappop (__lt__ (nodes s)) (open_list s) with
    | None => mkRun (Some ([], [])) s hist
    | Some (current_pos, open') =>
      let s := mkSearch open' (closed_set s) (nodes s) in
      if bool_decide (current_pos = e) then
        match rebuild (S (size (nodes s))) (nodes s) (Some current_pos) [] with
        | Some rpath =>
          let path := reverse rpath in
          mkRun (Some (path, generate_path_costs path e)) s hist
        | None => mkRun None s hist
        end
      else
        match nodes s !! current_pos with
        | None => mkRun None s hist
        | Some current =>
          let s := mkSearch (open_list s) ({[current_pos]} ∪ closed_set s) (nodes s) in
          let hist := record_step hist current in
          search_loop k a e (foldl (relax e current_pos) s (get_neighbors a current_pos)) hist
        end
    end
  end.

(** The state before the loop: the start node alone, in the store and on the heap. *)
Definition initial (start e : pos) : search :=
  let hs := heuristic start e in
  let start_node := mkNode 0 hs (0 + hs) None "evaluating" in
  let nodes : gmap pos Node := <[start := start_node]> ∅ in
  mkSearch (heapq.heappush (__lt__ nodes) [] start) ∅ nodes.

(** The loop runs at most once per cell and once for the start. *)
Definition loop_fuel (a : AStar) : nat := (Z.to_nat (height a * width a) + 2)%nat.

Definition find_path_run (a : AStar) (start e : pos) : run :=
  search_loop (loop_fuel a) a e (initial start e) (cost_history a).

(** [find_path]: the returned pair and the instance after the call. *)
Definition find_path (a : AStar) (start e : pos)
    : option (list pos * list CostRecord) * AStar :=
  let r := find_path_run a start e in
  (result r, mkAStar (maze a) (height a) (width a) (history r)).

(** *** Paths of the specification *)

(** A 4-connected path of OPEN cells from [s] to [e]. *)
Definition open_path (a : AStar) (s e : pos) (path : list pos) : bool :=
  bool_decide (head path = Some s) && bool_decide (last path = Some e)
  && forallb (walkable a) path && chained path.

(** The cells the search can enter from [s]: [s] itself, never tested, and
    from a cell any of its neighbours. *)
Inductive reach (a : AStar) (s : pos) : pos → Prop :=
  | reach_start : reach a s s
  | reach_step p q : reach a s p → q ∈ get_neighbors a p → reach a s q.

End astar.

(** ** maze.py *)

Module maze.

Inductive exn := IndexError | ValueError.

(** What a call does: it returns, raises, or is still running when the fuel
    given to its rejection loops is used up. *)
Inductive outcome (A : Type) :=
  | Return (x : A)
  | Raise (e : exn)
  | OutOfFuel.
Arguments Return {A} x.
Arguments Raise {A} e.
Arguments OutOfFuel {A}.

#[global] Instance outcome_ret : MRet outcome := λ A x, Return x.
#[global] Instance outcome_bind : MBind outcome := λ A B k o,
  match o with
  | Return x => k x
  | Raise e => Raise e
  | OutOfFuel => OutOfFuel
  end.

Definition or_raise {A} (e : exn) (o : option A) : outcome A :=
  match o with Some x => Return x | None => Raise e end.

(** The module [random] is a source of draws: [rng k] is the k-th number
    drawn; the count of draws made so far is threaded through the code. *)
Definition choice {A} (r : nat) (l : list A) : option A :=
  l !! (r mod length l)%nat.

(** [random.randint(a, b)]; [None] stands for the ValueError of an empty range. *)
Definition randint (r : nat) (a b : Z) : option Z :=
  if b <? a then None else Some (a + Z.of_nat r mod (b - a + 1)).

(** [class Maze]. *)
Record Maze := mkMaze {
  width : Z;
  height : Z;
  maze : ndarray;
  start : option pos;
  end_ : option pos
}.

(** [np.ones] refuses a negative dimension.  It refuses a size beyond the
    limits of the machine too; these limits are not represented. *)
Definition __init__ (width height : Z) : outcome Maze :=
  let width := if width mod 2 =? 1 then width else width + 1 in
  let height := if height mod 2 =? 1 then height else height + 1 in
  if (height <? 0) || (width <? 0) then Raise ValueError
  else Return (mkMaze width height (np_ones height width) None None).

Definition directions : list (Z * Z) := [(0, 2); (2, 0); (0, -2); (-2, 0)].

(** The list [unvisited] built for the cell on top of the stack. *)
Definition unvisited (m : Maze) (current : pos) : list pos :=
  filter (λ n : pos, 0 < n.1 < height m - 1 ∧ 0 < n.2 < width m - 1
                     ∧ getitem (maze m) n.1 n.2 = Some 1)
    (map (λ d : Z * Z, (current.1 + d.1, current.2 + d.2)) directions).

Definition set_maze (m : Maze) (a : ndarray) : Maze :=
  mkMaze (width m) (height m) a (start m) (end_ m).

(** One turn of [while stack: ...] with [current = stack[-1]]; the top of
    the Python list [stack] is the head of the list here. *)
Definition carve_step (rng : nat → nat) (m : Maze) (current : pos)
    (below : list pos) (draws : nat) : outcome (Maze * list pos * nat) :=
  let unv := unvisited m current in
  if bool_decide (unv = []) then Return (m, below, draws)
  else
    next_cell ← or_raise IndexError (choice (rng draws) unv);
    a1 ← or_raise IndexError
           (setitem (maze m) ((current.1 + next_cell.1) / 2)
                             ((current.2 + next_cell.2) / 2) 0);
    a2 ← or_raise IndexError (setitem a1 next_cell.1 next_cell.2 0);
    Return (set_maze m a2, next_cell :: current :: below, S draws).

(** The loop; returns the maze and the number of draws made. *)
Fixpoint carve (fuel : nat) (rng : nat → nat) (m : Maze) (stack : list pos)
    (draws : nat) : outcome (Maze * nat) :=
  match fuel with
  | O => OutOfFuel
  | S k =>
    match stack with
    | [] => Return (m, draws)
    | current :: below =>
      '(m, stack, draws) ← carve_step rng m current below draws;
      carve k rng m stack draws
    end
  end.

(** Every step of the loop opens a WALL cell or pops the stack. *)
Definition carve_fuel (m : Maze) : nat :=
  (2 * (Z.to_nat (height m) * Z.to_nat (width m)) + 2)%nat.

(** [while self.maze[y, col] == 1: y = random.randint(1, self.height-2)]. *)
Fixpoint reroll (fuel : nat) (rng : nat → nat) (m : Maze) (col y : Z)
    (draws : nat) : outcome (Z * nat) :=
  v ← or_raise IndexError (getitem (maze m) y col);
  if v =? 1 then
    match fuel with
    | O => OutOfFuel
    | S k =>
      y' ← or_raise ValueError (randint (rng draws) 1 (height m - 2));
      reroll k rng m col y' (S draws)
    end
  else Return (y, draws).

Definition generate_start_end (fuel : nat) (rng : nat → nat) (m : Maze)
    (draws : nat) : outcome Maze :=
  start_y ← or_raise ValueError (randint (rng draws) 1 (height m - 2));
  '(start_y, draws) ← reroll fuel rng m 1 start_y (S draws);
  end_y ← or_raise ValueError (randint (rng draws) 1 (height m - 2));
  '(end_y, draws) ← reroll fuel rng m (width m - 2) end_y (S draws);
  a1 ← or_raise IndexError (setitem (maze m) start_y 0 0);
  a2 ← or_raise IndexError (setitem a1 end_y (width m - 1) 0);
  Return (mkMaze (width m) (height m) a2
            (Some (start_y, 0)) (Some (end_y, width m - 1))).

(** The first part of [generate]: the seed cell and the carving loop. *)
Definition carving (rng : nat → nat) (m : Maze) : outcome (Maze * nat) :=
  a0 ← or_raise IndexError (setitem (maze m) 1 1 0);
  carve (carve_fuel m) rng (set_maze m a0) [(1, 1)] 0.

Definition generate (fuel : nat) (rng : nat → nat) (m : Maze) : outcome Maze :=
  '(m, draws) ← carving rng m;
  generate_start_end fuel rng m draws.

Definition get_maze (m : Maze) : ndarray := maze m.
Definition get_start (m : Maze) : option pos := start m.
Definition get_end (m : Maze) : option pos := end_ m.

End maze.


(** ** Invariants of the loops *)

(** The invariant of the main loop of [find_path]: the heap holds distinct
    positions, none of them closed, all with a node; every node was entered
    from the start; the goal is never closed; a node's parent is a closed
    neighbour, one step cheaper, and only the start has none. *)
Record search_inv (a : astar.AStar) (start e : pos) (s : astar.search) : Prop := {
  inv_nodup : NoDup (astar.open_list s);
  inv_open_closed : ∀ p, p ∈ astar.open_list s → p ∉ astar.closed_set s;
  inv_open_nodes : ∀ p, p ∈ astar.open_list s → is_Some (astar.nodes s !! p);
  inv_closed_nodes : ∀ p, p ∈ astar.closed_set s → is_Some (astar.nodes s !! p);
  inv_reach : ∀ p, is_Some (astar.nodes s !! p) → astar.reach a start p;
  inv_end : e ∉ astar.closed_set s;
  inv_parent : ∀ p n, astar.nodes s !! p = Some n →
    match astar.parent n with
    | Some q => q ∈ astar.closed_set s ∧ p ∈ astar.get_neighbors a q
                ∧ ∃ nq, astar.nodes s !! q = Some nq ∧ astar.g n = astar.g nq + 1
    | None => p = start ∧ astar.g n = 0
    end;
  inv_g : ∀ p n, astar.nodes s !! p = Some n → 0 ≤ astar.g n;
  inv_status : ∀ p n, astar.nodes s !! p = Some n → astar.status n = "evaluating"
}.

(** What makes the search complete: the start has a node, a node is closed
    or on the heap, and the neighbours of a closed cell all have a node. *)
Record frontier_inv (a : astar.AStar) (start : pos) (s : astar.search) : Prop := {
  fi_start : is_Some (astar.nodes s !! start);
  fi_known : ∀ p, is_Some (astar.nodes s !! p) →
    p ∈ astar.closed_set s ∨ p ∈ astar.open_list s;
  fi_expanded : ∀ p q, p ∈ astar.closed_set s → q ∈ astar.get_neighbors a p →
    is_Some (astar.nodes s !! q)
}.

(** Every cell the search can hold: the start and the cells of the grid. *)
Definition universe (a : astar.AStar) (start : pos) : list pos :=
  start :: (r ← seqZ 0 (astar.height a); c ← seqZ 0 (astar.width a); [(r, c)]).


(** An array of [h] rows of [w] cells, each [0] or [1]. *)
Record grid_ok (h w : Z) (a : ndarray) : Prop := {
  grid_rows : Z.of_nat (length a) = h;
  grid_cols : Forall (λ row, Z.of_nat (length row) = w) a;
  grid_bin : Forall (Forall (λ v, v = 0 ∨ v = 1)) a
}.

(** The invariant of the carving loop.  OPEN cells lie strictly inside the
    border, on the odd lattice or between two lattice cells; a cell between
    two lattice cells is OPEN only when both are; the stack holds OPEN lattice
    cells; a lattice cell that left the stack has no WALL candidate; the OPEN
    cells form a tree. *)
Record carve_inv (m : maze.Maze) (stack : list pos) : Prop := {
  ci_height : 3 ≤ maze.height m ∧ maze.height m mod 2 = 1;
  ci_width : 3 ≤ maze.width m ∧ maze.width m mod 2 = 1;
  ci_grid : grid_ok (maze.height m) (maze.width m) (maze.maze m);
  ci_interior : ∀ p, is_open (maze.maze m) p →
    0 < p.1 < maze.height m - 1 ∧ 0 < p.2 < maze.width m - 1
    ∧ (p.1 mod 2 = 1 ∨ p.2 mod 2 = 1);
  ci_between_h : ∀ p, is_open (maze.maze m) p → p.2 mod 2 = 0 →
    is_open (maze.maze m) (p.1, p.2 - 1) ∧ is_open (maze.maze m) (p.1, p.2 + 1);
  ci_between_v : ∀ p, is_open (maze.maze m) p → p.1 mod 2 = 0 →
    is_open (maze.maze m) (p.1 - 1, p.2) ∧ is_open (maze.maze m) (p.1 + 1, p.2);
  ci_stack : ∀ p, p ∈ stack →
    is_open (maze.maze m) p ∧ p.1 mod 2 = 1 ∧ p.2 mod 2 = 1;
  ci_seed : is_open (maze.maze m) (1, 1);
  ci_done : ∀ p, is_open (maze.maze m) p → p.1 mod 2 = 1 → p.2 mod 2 = 1 →
    p ∈ stack
    ∨ ∀ d, d ∈ maze.directions →
        0 < p.1 + d.1 < maze.height m - 1 → 0 < p.2 + d.2 < maze.width m - 1 →
        is_open (maze.maze m) (p.1 + d.1, p.2 + d.2);
  ci_tree : is_tree (maze.maze m)
}.

(** The cells of an [h] by [w] array, and how many of them are WALL. *)
Definition all_cells (h w : Z) : list pos :=
  r ← seqZ 0 h; c ← seqZ 0 w; [(r, c)].

Definition walls (m : maze.Maze) : nat :=
  length (filter (λ p : pos, getitem (maze.maze m) p.1 p.2 = Some 1)
            (all_cells (maze.height m) (maze.width m))).

(** ** Concrete grids *)

(** Three rows on which the search returns a detour. *)
Definition detour_grid : ndarray :=
  [[0; 1; 0; 0; 0; 0; 1];
   [0; 1; 0; 0; 1; 0; 0];
   [0; 0; 0; 0; 0; 0; 1]].

(** The scenario of the specification: a 5 x 5 grid with an open interior,
    entered at (1,0) and left at (1,4). *)
Definition room_grid : ndarray :=
  [[1; 1; 1; 1; 1];
   [0; 0; 0; 0; 0];
   [1; 0; 0; 0; 1];
   [1; 0; 0; 0; 1];
   [1; 1; 1; 1; 1]].

(** A fresh 5 x 5 maze, a source of draws that always yields 0, and one
    whose fourth draw, the first row proposed for the start, is 1. *)
Definition maze5 : maze.Maze := maze.mkMaze 5 5 (np_ones 5 5) None None.
Definition zeros : nat → nat := λ _, 0%nat.
Definition one_reroll : nat → nat := λ k, if (k =? 3)%nat then 1%nat else 0%nat.

(** What carving and then start and end selection make of it on these draws. *)
Definition maze5_carved : maze.Maze :=
  maze.mkMaze 5 5
    [[1; 1; 1; 1; 1];
     [1; 0; 0; 0; 1];
     [1; 1; 1; 0; 1];
     [1; 0; 0; 0; 1];
     [1; 1; 1; 1; 1]] None None.

Definition maze5_done : maze.Maze :=
  maze.mkMaze 5 5
    [[1; 1; 1; 1; 1];
     [0; 0; 0; 0; 0];
     [1; 1; 1; 0; 1];
     [1; 0; 0; 0; 1];
     [1; 1; 1; 1; 1]] (Some (1, 0)) (Some (1, 4)).

(** ** Proof automation *)

(** Linear arithmetic with division and remainder by constants. *)
Ltac zlia := Z.div_mod_to_equations; lia.

(** ** Further notions for the search *)

(** A walk of the search from [s] to [e]: it starts at [s], whatever [s] is,
    and every later cell is an OPEN cell of the grid next to the one before. *)
Definition walk (a : astar.AStar) (s e : pos) (l : list pos) : bool :=
  bool_decide (head l = Some s) && bool_decide (last l = Some e)
  && forallb (astar.walkable a) (tail l) && chained l.

(** The costs kept in the nodes: [h] is the Manhattan distance of the node's
    position to the goal, [f] is [g + h], and no [f] is below the estimate
    made at the start. *)
Definition cost_inv (start e : pos) (s : astar.search) : Prop :=
  ∀ p n, astar.nodes s !! p = Some n →
    astar.h n = astar.heuristic p e ∧ astar.f n = astar.g n + astar.h n
    ∧ astar.heuristic start e ≤ astar.f n.

(** What a record of the expansion history looks like, [lo] being the
    estimate made at the start. *)
Definition expansion_record (lo : Z) (c : astar.CostRecord) : Prop :=
  astar.cost_f c = astar.cost_g c + astar.cost_h c
  ∧ 0 ≤ astar.cost_g c ∧ 0 ≤ astar.cost_h c ∧ lo ≤ astar.cost_f c
  ∧ astar.cost_status c = "evaluating".

(** ** Counting the cells of a maze *)

(** The OPEN cells of the grid of a maze. *)
Definition open_cells (m : maze.Maze) : list pos :=
  filter (λ p, open_cell (maze.maze m) p = true)
    (all_cells (maze.height m) (maze.width m)).

(** The rooms: the cells of the odd lattice inside the border, between
    which the carving loop moves; and those of them that are OPEN. *)
Definition rooms (m : maze.Maze) : list pos :=
  i ← seqZ 0 ((maze.height m - 1) / 2);
  j ← seqZ 0 ((maze.width m - 1) / 2);
  [(2 * i + 1, 2 * j + 1)].

Definition open_rooms (m : maze.Maze) : list pos :=
  filter (λ p : pos, p.1 mod 2 = 1 ∧ p.2 mod 2 = 1) (open_cells m).

(** What the carving loop keeps of the counts: every draw opened one room
    and one cell between two rooms. *)
Record count_inv (m : maze.Maze) (draws : nat) : Prop := {
  cnt_cells : (length (open_cells m) + 1 = 2 * length (open_rooms m))%nat;
  cnt_draws : length (open_rooms m) = S draws
}.

(** ** visualizer.py *)

(** The embedding of [Visualizer] keeps the fields of the object and, of
    matplotlib, what the code hands to it: the artists it puts on the maze
    axes since the last [clear], the lines of text it puts on the text axes,
    the arguments it gives to [FuncAnimation] and the calls it makes on the
    timer of the animation.  Colours, sizes, fonts, positions and the fixed
    title are presentation and are left out.  The library calls the methods
    back ([update] for the frames, the others for the buttons), and when an
    animation that does not repeat has played it puts [None] in the
    [event_source] of the animation; what it does and when is the library's,
    so the properties are stated for every sequence of such events. *)

Module visualizer.

Inductive artist :=
  | Image (a : ndarray)
  | StartMarker (x y : Z)
  | EndMarker (x y : Z)
  | PathLine (xs ys : list Z).

(** A line of the text axes; [bold] is [fontweight='bold']. *)
Record Text := mkText {
  line : string;
  bold : bool
}.

Inductive timer_call := stop | start.

(** [FuncAnimation(fig, update, frames=..., interval=..., repeat=False)]:
    the arguments it was made with and its attribute [event_source], which
    is a timer, known here by the calls made on it, until the library puts
    [None] there. *)
Record FuncAnimation := mkAnimation {
  frames : nat;
  interval : Z;
  event_source : list timer_call;
  event_source_is_None : bool
}.

Record Visualizer := mkVisualizer {
  maze : ndarray;
  maze_ax : list artist;
  text_ax : list Text;
  path_points : list pos;
  current_path : list pos;
  animation : option FuncAnimation;
  is_animating : bool;
  is_paused : bool;
  cost_history : list astar.CostRecord
}.

Definition __init__ (maze : ndarray) : Visualizer :=
  mkVisualizer maze [] [] [] [] None false false [].

(** The truth value of a list. *)
Definition truthy {A} (l : list A) : bool :=
  match l with [] => false | _ => true end.

Definition draw_maze (v : Visualizer) : option Visualizer :=
  let ax := [Image (maze v)] in
  ax ← (if truthy (path_points v) then
          start ← path_points v !! 0%nat;
          end_ ← last (path_points v);
          Some (ax ++ [StartMarker start.2 start.1; EndMarker end_.2 end_.1])
        else Some ax);
  Some (mkVisualizer (maze v) ax (text_ax v) (path_points v) (current_path v)
          (animation v) (is_animating v) (is_paused v) (cost_history v)).

(** [draw_path(path, costs=None)]. *)
Definition draw_path (v : Visualizer) (path : list pos)
    (costs : option (list astar.CostRecord)) : option Visualizer :=
  let cost_history :=
    match costs with
    | Some costs => if truthy costs then costs else []
    | None => []
    end in
  draw_maze (mkVisualizer (maze v) (maze_ax v) (text_ax v) path []
               (animation v) (is_animating v) (is_paused v) cost_history).

(** [':' in line]. *)
Fixpoint has_colon (s : string) : bool :=
  match s with
  | EmptyString => false
  | String c s' => String.eqb (String c "") ":" || has_colon s'
  end.

(** [{x:.2f}] for a number that is an integer. *)
Definition fmt2 (x : Z) : string := pretty x +:+ ".00".

(** The dictionary lookup with its default. *)
Definition status_text (status : string) : string :=
  if String.eqb status "evaluating" then "评估中"
  else if String.eqb status "reached" then "已到达终点"
  else if String.eqb status "on_path" then "在最短路径上"
  else "未知状态".

Definition info_text (v : Visualizer) (frame : nat) (current_cost : astar.CostRecord)
    (current_node : pos) : list string :=
  [ "当前节点信息:";
    "坐标: (" +:+ pretty current_node.1 +:+ ", " +:+ pretty current_node.2 +:+ ")";
    "状态: " +:+ status_text (astar.cost_status current_cost);
    "";
    "代价评估:";
    "g(n) = " +:+ fmt2 (astar.cost_g current_cost) +:+ " (实际代价)";
    "h(n) = " +:+ fmt2 (astar.cost_h current_cost) +:+ " (估计代价)";
    "f(n) = " +:+ fmt2 (astar.cost_f current_cost) +:+ " (总评估值)";
    "";
    "搜索进度:";
    "已探索节点: " +:+ pretty (Z.of_nat frame + 1);
    "剩余节点: " +:+ pretty (Z.of_nat (length (path_points v)) - Z.of_nat frame - 1) ].

(** [update(frame)], for the frames [FuncAnimation] passes: the numbers of
    [range(frames)].  [None] stands for an IndexError. *)
Definition update (v : Visualizer) (frame : nat) : option Visualizer :=
  if (frame <? length (path_points v))%nat then
    p ← path_points v !! frame;
    v ← draw_maze (mkVisualizer (maze v) (maze_ax v) (text_ax v) (path_points v)
                     (current_path v ++ [p])
                     (animation v) (is_animating v) (is_paused v) (cost_history v));
    if truthy (current_path v) then
      let path_x := map snd (current_path v) in
      let path_y := map fst (current_path v) in
      let v := mkVisualizer (maze v) (maze_ax v ++ [PathLine path_x path_y]) (text_ax v)
                 (path_points v) (current_path v)
                 (animation v) (is_animating v) (is_paused v) (cost_history v) in
      if truthy (cost_history v) && (frame <? length (cost_history v))%nat then
        current_cost ← cost_history v !! frame;
        current_node ← path_points v !! frame;
        let texts := map (λ l, mkText l (has_colon l))
                       (info_text v frame current_cost current_node) in
        Some (mkVisualizer (maze v) (maze_ax v) texts (path_points v) (current_path v)
                (animation v) (is_animating v) (is_paused v) (cost_history v))
      else Some v
    else Some v
  else Some v.

Definition start_animation (v : Visualizer) : Visualizer :=
  if negb (is_animating v) && truthy (path_points v) then
    let interval := Z.max 50 (Z.min 200 ((shape (maze v)).1 * 2)) in
    mkVisualizer (maze v) (maze_ax v) (text_ax v) (path_points v) (current_path v)
      (Some (mkAnimation (length (path_points v)) interval [] false))
      true false (cost_history v)
  else v.

(** What a call of [toggle_pause] leaves behind: it returns, or it raises
    AttributeError and the object stays as the statements before made it. *)
Inductive toggled :=
  | Returns (v : Visualizer)
  | AttributeError (v : Visualizer).

Definition after (t : toggled) : Visualizer :=
  match t with Returns v | AttributeError v => v end.

(** [toggle_pause(event)].  The flag is written first; the timer is reached
    through [self.animation.event_source] afterwards, which fails on [None]. *)
Definition toggle_pause (v : Visualizer) : toggled :=
  if is_animating v then
    let v := mkVisualizer (maze v) (maze_ax v) (text_ax v) (path_points v) (current_path v)
               (animation v) (is_animating v) (negb (is_paused v)) (cost_history v) in
    match animation v with
    | None => AttributeError v
    | Some a =>
      if event_source_is_None a then AttributeError v
      else
        let call := if is_paused v then stop else start in
        Returns (mkVisualizer (maze v) (maze_ax v) (text_ax v) (path_points v)
                   (current_path v)
                   (Some (mkAnimation (frames a) (interval a) (event_source a ++ [call])
                            (event_source_is_None a)))
                   (is_animating v) (is_paused v) (cost_history v))
    end
  else Returns v.

Definition show (v : Visualizer) : option Visualizer := draw_maze v.

(** The library's part when the last frame of an animation that does not
    repeat has been shown: [self.event_source = None]. *)
Definition animation_ends (v : Visualizer) : Visualizer :=
  match animation v with
  | None => v
  | Some a =>
    mkVisualizer (maze v) (maze_ax v) (text_ax v) (path_points v) (current_path v)
      (Some (mkAnimation (frames a) (interval a) (event_source a) true))
      (is_animating v) (is_paused v) (cost_history v)
  end.

(** What happens to the object: the calls of its methods by the program and
    by the event loop of the library, and the end of the animation. *)
Inductive call :=
  | DrawMaze
  | DrawPath (path : list pos) (costs : option (list astar.CostRecord))
  | Update (frame : nat)
  | StartAnimation
  | TogglePause
  | Show
  | AnimationEnds.

(** [None] stands for an index out of range in [draw_maze] or [update].  A
    button callback that raises leaves the object as it was when it raised:
    the event loop reports the exception and goes on, so the events that
    follow find the object in that state. *)
Definition do_call (v : Visualizer) (c : call) : option Visualizer :=
  match c with
  | DrawMaze => draw_maze v
  | DrawPath path costs => draw_path v path costs
  | Update frame => update v frame
  | StartAnimation => Some (start_animation v)
  | TogglePause => Some (after (toggle_pause v))
  | Show => show v
  | AnimationEnds => Some (animation_ends v)
  end.

Fixpoint do_calls (v : Visualizer) (cs : list call) : option Visualizer :=
  match cs with
  | [] => Some v
  | c :: cs => v ← do_call v c; do_calls v cs
  end.

End visualizer.

(** The calls on the timer alternate: [stop], [start], [stop], ... *)
Fixpoint alternates (next : visualizer.timer_call) (l : list visualizer.timer_call) : bool :=
  match l, next with
  | [], _ => true
  | visualizer.stop :: l, visualizer.stop => alternates visualizer.start l
  | visualizer.start :: l, visualizer.start => alternates visualizer.stop l
  | _, _ => false
  end.

(** What holds of a [Visualizer] whatever happens to it: it is animating
    exactly when it holds an animation; it is paused only while animating;
    the animation has at least one frame and an interval between 50 and 200;
    the timer was stopped and started in turn and, as long as the library has
    not taken it away, was last stopped exactly when the object is paused. *)
Record vis_inv (v : visualizer.Visualizer) : Prop := {
  vi_animating : visualizer.is_animating v = true ↔ is_Some (visualizer.animation v);
  vi_paused : visualizer.is_animating v = false → visualizer.is_paused v = false;
  vi_animation : ∀ a, visualizer.animation v = Some a →
    (0 < visualizer.frames a)%nat ∧ 50 ≤ visualizer.interval a ≤ 200
    ∧ alternates visualizer.stop (visualizer.event_source a) = true
    ∧ (visualizer.event_source_is_None a = false →
       (visualizer.is_paused v = true ↔
        last (visualizer.event_source a) = Some visualizer.stop))
}.

(** * Facts about the heap operations *)

Section heap_facts.
Variable lt : pos → pos → bool.

Lemma swap_length heap i j : length (heapq.swap heap i j) = length heap.
Proof.
  unfold heapq.swap. destruct (heap !! i), (heap !! j); auto.
  by rewrite !length_insert.
Qed.

(** An exchange is the permutation of the indices that transposes [i] and [j]. *)
Lemma swap_perm heap i j : heapq.swap heap i j ≡ₚ heap.
Proof.
  unfold heapq.swap.
  destruct (heap !! i) as [a|] eqn:Hi; [|done].
  destruct (heap !! j) as [b|] eqn:Hj; [|done].
  apply Permutation_inj. split; [by rewrite !length_insert|].
  pose proof (lookup_lt_Some _ _ _ Hi) as Li.
  pose proof (lookup_lt_Some _ _ _ Hj) as Lj.
  exists (λ n, if decide (n = i) then j else if decide (n = j) then i else n).
  split.
  - intros x y. repeat case_decide; intros; subst; congruence.
  - intros n. destruct (decide (n = j)) as [->|Hnj].
    + rewrite list_lookup_insert_eq by (by rewrite length_insert).
      repeat case_decide; subst; congruence.
    + rewrite list_lookup_insert_ne by done.
      destruct (decide (n = i)) as [->|Hni].
      * rewrite list_lookup_insert_eq by done.
        repeat case_decide; subst; congruence.
      * rewrite list_lookup_insert_ne by done.
        repeat case_decide; subst; congruence.
Qed.

Lemma _siftdown_perm fuel heap startpos p :
  heapq._siftdown fuel lt heap startpos p ≡ₚ heap.
Proof.
  revert heap p. induction fuel as [|k IH]; intros heap p; simpl; try done.
  repeat case_match; try done.
  rewrite IH. apply swap_perm.
Qed.

Lemma _siftup_loop_perm fuel heap p :
  (heapq._siftup_loop fuel lt heap p).1 ≡ₚ heap.
Proof.
  revert heap p. induction fuel as [|k IH]; intros heap p; simpl; try done.
  case_match; try done.
  rewrite IH. apply swap_perm.
Qed.

Lemma _siftup_perm heap p : heapq._siftup lt heap p ≡ₚ heap.
Proof.
  unfold heapq._siftup. rewrite _siftdown_perm. apply _siftup_loop_perm.
Qed.

Lemma _siftdown_S k heap startpos p :
  heapq._siftdown (S k) lt heap startpos p =
  if (startpos <? p)%nat then
    match heap !! p, heap !! ((p - 1) / 2)%nat with
    | Some newitem, Some par =>
      if lt newitem par
      then heapq._siftdown k lt (heapq.swap heap p ((p - 1) / 2)) startpos ((p - 1) / 2)
      else heap
    | _, _ => heap
    end
  else heap.
Proof. reflexivity. Qed.

Lemma _siftup_loop_S k heap p :
  heapq._siftup_loop (S k) lt heap p =
  if (2 * p + 1 <? length heap)%nat then
    heapq._siftup_loop k lt
      (heapq.swap heap p
         match heap !! (2 * p + 1)%nat, heap !! (2 * p + 1 + 1)%nat with
         | Some c, Some r => if negb (lt c r) then (2 * p + 1 + 1)%nat else (2 * p + 1)%nat
         | _, _ => (2 * p + 1)%nat
         end)
      match heap !! (2 * p + 1)%nat, heap !! (2 * p + 1 + 1)%nat with
      | Some c, Some r => if negb (lt c r) then (2 * p + 1 + 1)%nat else (2 * p + 1)%nat
      | _, _ => (2 * p + 1)%nat
      end
  else (heap, p).
Proof. reflexivity. Qed.

(** The fuel given to the sift loops is never used up: more fuel changes nothing. *)
Lemma _siftdown_fuel fuel fuel' heap startpos p :
  (p ≤ fuel)%nat → (p ≤ fuel')%nat →
  heapq._siftdown fuel lt heap startpos p = heapq._siftdown fuel' lt heap startpos p.
Proof.
  revert fuel' heap p. induction fuel as [|k IH]; intros [|k'] heap p Hk Hk'; try done.
  - by replace p with 0%nat by lia.
  - by replace p with 0%nat by lia.
  - rewrite !_siftdown_S. destruct (startpos <? p)%nat eqn:E; [|done].
    apply Nat.ltb_lt in E.
    assert (Hlt : ((p - 1) / 2 < p)%nat) by (apply Nat.Div0.div_lt_upper_bound; lia).
    destruct (heap !! p); [|done].
    destruct (heap !! ((p - 1) / 2)%nat); [|done].
    destruct (lt _ _); [|done]. apply IH; lia.
Qed.

Lemma _siftup_loop_fuel fuel fuel' heap p :
  (length heap ≤ fuel + p)%nat → (length heap ≤ fuel' + p)%nat →
  heapq._siftup_loop fuel lt heap p = heapq._siftup_loop fuel' lt heap p.
Proof.
  revert fuel' heap p. induction fuel as [|k IH]; intros [|k'] heap p Hk Hk'; try done.
  - rewrite _siftup_loop_S. by rewrite (proj2 (Nat.ltb_ge (2 * p + 1) (length heap))) by lia.
  - rewrite _siftup_loop_S. by rewrite (proj2 (Nat.ltb_ge (2 * p + 1) (length heap))) by lia.
  - rewrite !_siftup_loop_S. destruct (2 * p + 1 <? length heap)%nat eqn:E; [|done].
    apply Nat.ltb_lt in E.
    assert (Hlen : ∀ i j, length (heapq.swap heap i j) = length heap) by apply swap_length.
    destruct (heap !! (2 * p + 1)%nat) as [c|]; [|apply IH; rewrite Hlen; lia].
    destruct (heap !! (2 * p + 1 + 1)%nat) as [r|]; [|apply IH; rewrite Hlen; lia].
    destruct (negb (lt c r)); apply IH; rewrite Hlen; lia.
Qed.

Lemma heappush_perm heap item : heapq.heappush lt heap item ≡ₚ item :: heap.
Proof.
  unfold heapq.heappush. rewrite _siftdown_perm.
  by rewrite Permutation_app_comm.
Qed.

Lemma heappop_perm heap x rest :
  heapq.heappop lt heap = Some (x, rest) → heap ≡ₚ x :: rest.
Proof.
  unfold heapq.heappop. destruct (last heap) as [lastelt|] eqn:Hl; [|done].
  apply last_Some in Hl as [l' ->].
  rewrite length_app. simpl.
  replace (length l' + 1 - 1)%nat with (length l') by lia.
  rewrite take_app_length.
  destruct l' as [|r l'']; intros [= <- <-]; [done|].
  rewrite _siftup_perm. simpl. f_equiv.
  by rewrite <- Permutation_cons_append.
Qed.

Lemma heappop_None heap : heapq.heappop lt heap = None → heap = [].
Proof.
  unfold heapq.heappop. destruct (last heap) eqn:Hl.
  - by destruct (take _ _).
  - intros _. by apply last_None.
Qed.
End heap_facts.

(** * Reading and writing cells of a well-formed array *)

Lemma np_index_in n i : 0 ≤ i < n → np_index n i = Some (Z.to_nat i).
Proof.
  intros Hi. unfold np_index.
  destruct (0 <=? i) eqn:H0; [|lia]. destruct (i <? n) eqn:H1; [done|lia].
Qed.

Lemma length_bind_const {A B} (f : A → list B) (l : list A) n :
  (∀ x, length (f x) = n) → length (l ≫= f) = (length l * n)%nat.
Proof.
  intros Hf. induction l as [|x l IH]; [done|].
  rewrite bind_cons, length_app, Hf, IH. simpl. lia.
Qed.

Section grid_facts.
Variables h w : Z.
Variable a : ndarray.
Hypothesis Hh : 0 < h.
Hypothesis Hok : grid_ok h w a.

Lemma grid_ok_shape : shape a = (h, w).
Proof.
  destruct Hok as [Hr Hc _]. unfold shape. rewrite Hr. f_equal.
  destruct a as [|row rest]; [simpl in Hr; lia|]. simpl.
  by apply Forall_cons in Hc as [-> _].
Qed.

Lemma getitem_in_eq r c :
  0 ≤ r < h → 0 ≤ c < w →
  getitem a r c = a !! Z.to_nat r ≫= λ row, row !! Z.to_nat c.
Proof.
  intros Hr Hc. unfold getitem. rewrite grid_ok_shape. simpl.
  by rewrite !np_index_in.
Qed.

Lemma grid_row r :
  0 ≤ r < h → ∃ row, a !! Z.to_nat r = Some row ∧ Z.of_nat (length row) = w
                     ∧ Forall (λ v, v = 0 ∨ v = 1) row.
Proof.
  intros Hr. destruct Hok as [Hrows Hcols Hbin].
  destruct (lookup_lt_is_Some_2 a (Z.to_nat r)) as [row Hrow]; [lia|].
  exists row. split; [done|]. split.
  - by apply (Forall_lookup_1 _ _ _ _ Hcols Hrow).
  - by apply (Forall_lookup_1 _ _ _ _ Hbin Hrow).
Qed.

Lemma getitem_in r c :
  0 ≤ r < h → 0 ≤ c < w → ∃ v, getitem a r c = Some v ∧ (v = 0 ∨ v = 1).
Proof.
  intros Hr Hc. rewrite getitem_in_eq by done.
  destruct (grid_row r Hr) as (row & -> & Hlen & Hbin). simpl.
  destruct (lookup_lt_is_Some_2 row (Z.to_nat c)) as [v Hv]; [lia|].
  exists v. split; [done|]. by apply (Forall_lookup_1 _ _ _ _ Hbin Hv).
Qed.

Lemma is_open_spec p :
  is_open a p ↔ 0 ≤ p.1 < h ∧ 0 ≤ p.2 < w ∧ getitem a p.1 p.2 = Some 0.
Proof.
  unfold is_open, open_cell. rewrite grid_ok_shape. simpl.
  rewrite !andb_true_iff, bool_decide_eq_true, !Z.leb_le, !Z.ltb_lt. tauto.
Qed.

(** A cell inside the array that is not a WALL is OPEN. *)
Lemma not_wall_open p :
  0 ≤ p.1 < h → 0 ≤ p.2 < w → getitem a p.1 p.2 ≠ Some 1 → is_open a p.
Proof.
  intros Hr Hc Hv. apply is_open_spec.
  destruct (getitem_in _ _ Hr Hc) as (v & Hg & [->| ->]); [done|congruence].
Qed.

Lemma setitem_in r c v :
  0 ≤ r < h → 0 ≤ c < w → v = 0 ∨ v = 1 →
  ∃ a', setitem a r c v = Some a' ∧ grid_ok h w a'
    ∧ ∀ r' c', 0 ≤ r' < h → 0 ≤ c' < w →
        getitem a' r' c' = if decide (r' = r ∧ c' = c) then Some v else getitem a r' c'.
Proof.
  intros Hr Hc Hv. unfold setitem. rewrite grid_ok_shape. simpl.
  rewrite !np_index_in by done. simpl.
  destruct (grid_row r Hr) as (row & Hrow & Hlen & Hbin). rewrite Hrow. simpl.
  destruct (lookup_lt_is_Some_2 row (Z.to_nat c)) as [v0 Hv0]; [lia|].
  rewrite Hv0. simpl. eexists. split; [done|].
  assert (Hok' : grid_ok h w (<[Z.to_nat r := <[Z.to_nat c := v]> row]> a)).
  { destruct Hok as [Hrows Hcols Hb]. split.
    - by rewrite length_insert.
    - apply Forall_insert; [done|]. simpl. by rewrite length_insert.
    - apply Forall_insert; [done|]. by apply Forall_insert. }
  split; [done|]. intros r' c' Hr' Hc'.
  unfold getitem.
  assert (Hs : shape (<[Z.to_nat r := <[Z.to_nat c := v]> row]> a) = (h, w)).
  { destruct Hok' as [Hr2 Hc2 _]. unfold shape. rewrite Hr2. f_equal.
    destruct (<[Z.to_nat r := <[Z.to_nat c := v]> row]> a) as [|row2 rest];
      [simpl in Hr2; lia|]. simpl. by apply Forall_cons in Hc2 as [-> _]. }
  rewrite Hs, grid_ok_shape. simpl. rewrite !np_index_in by done. simpl.
  destruct (decide (r' = r)) as [->|Hne].
  - rewrite list_lookup_insert_eq by (by apply lookup_lt_Some in Hrow).
    rewrite Hrow. simpl.
    destruct (decide (c' = c)) as [->|Hnc].
    + rewrite list_lookup_insert_eq by (by apply lookup_lt_Some in Hv0).
      by rewrite decide_True.
    + rewrite list_lookup_insert_ne by lia. rewrite decide_False; [done|tauto].
  - rewrite list_lookup_insert_ne by lia. rewrite decide_False; [done|tauto].
Qed.

(** Opening a cell adds it to the OPEN cells and changes nothing else. *)
Lemma setitem_open r c :
  0 ≤ r < h → 0 ≤ c < w →
  ∃ a', setitem a r c 0 = Some a' ∧ grid_ok h w a'
    ∧ (∀ x, is_open a' x ↔ x = (r, c) ∨ is_open a x)
    ∧ (∀ x, getitem a' x.1 x.2 = Some 1 → getitem a x.1 x.2 = Some 1 ∨ ¬ (0 ≤ x.1 < h ∧ 0 ≤ x.2 < w)).
Proof.
  intros Hr Hc. destruct (setitem_in r c 0 Hr Hc) as (a' & Hset & Hok' & Hget); [by left|].
  exists a'. split; [done|]. split; [done|]. split.
  - intros [xr xc].
    assert (Hs' : shape a' = (h, w)).
    { destruct Hok' as [Hr2 Hc2 _]. unfold shape. rewrite Hr2. f_equal.
      destruct a' as [|row2 rest]; [simpl in Hr2; lia|]. simpl.
      by apply Forall_cons in Hc2 as [-> _]. }
    rewrite is_open_spec. unfold is_open at 1, open_cell. rewrite Hs'. simpl.
    rewrite !andb_true_iff, bool_decide_eq_true, !Z.leb_le, !Z.ltb_lt.
    split.
    + intros ((((? & ?) & ?) & ?) & Hg). rewrite Hget in Hg by lia.
      case_decide as Hd; [left; f_equal; lia|right; repeat split; (lia || done)].
    + intros [[= -> ->]|(? & ? & Hg)].
      * rewrite Hget by lia. rewrite decide_True by done. repeat split; (lia || done).
      * rewrite Hget by lia. case_decide; repeat split; (lia || done).
  - intros [xr xc] Hx. simpl in *.
    destruct (decide (0 ≤ xr < h ∧ 0 ≤ xc < w)) as [Hin|Hout]; [|by right]. left.
    rewrite Hget in Hx by lia. by case_decide.
Qed.
End grid_facts.

(** * Simple paths and trees of cells *)

Lemma adjacent_sym p q : adjacent p q = adjacent q p.
Proof. unfold adjacent. f_equal. lia. Qed.

Lemma adjacent_spec p q :
  adjacent p q = true ↔
  (q.1 = p.1 ∧ q.2 = p.2 + 1) ∨ (q.1 = p.1 + 1 ∧ q.2 = p.2)
  ∨ (q.1 = p.1 ∧ q.2 = p.2 - 1) ∨ (q.1 = p.1 - 1 ∧ q.2 = p.2).
Proof. unfold adjacent. rewrite Z.eqb_eq. lia. Qed.

Lemma chained_cons x y l :
  chained (x :: y :: l) = true ↔ adjacent x y = true ∧ chained (y :: l) = true.
Proof. change (chained (x :: y :: l)) with (adjacent x y && chained (y :: l)).
  apply andb_true_iff. Qed.

Lemma chained_snoc l p q :
  chained l = true → last l = Some p → adjacent p q = true → chained (l ++ [q]) = true.
Proof.
  induction l as [|x [|y l] IH]; intros Hc Hl Ha; [done| |].
  - injection Hl as ->. simpl. by rewrite Ha.
  - simpl in Hc. apply andb_true_iff in Hc as [Hxy Hc].
    change ((x :: y :: l) ++ [q]) with (x :: (y :: l) ++ [q]).
    change (chained (x :: (y :: l) ++ [q]))
      with (adjacent x y && chained ((y :: l) ++ [q])).
    rewrite Hxy. simpl. by apply IH.
Qed.

Lemma chained_app_inv l1 l2 :
  chained (l1 ++ l2) = true → chained l1 = true ∧ chained l2 = true.
Proof.
  induction l1 as [|x [|y l1] IH]; intros Hc; [done| |].
  - split; [done|]. destruct l2; [done|]. by apply chained_cons in Hc as [_ ?].
  - change ((x :: y :: l1) ++ l2) with (x :: y :: (l1 ++ l2)) in Hc.
    apply chained_cons in Hc as [Hxy Hc]. destruct (IH Hc) as [H1 H2].
    split; [|done]. by apply chained_cons.
Qed.

Lemma chained_middle l1 x y l2 :
  chained (l1 ++ x :: y :: l2) = true → adjacent x y = true.
Proof. intros [_ Hc]%chained_app_inv. by apply chained_cons in Hc as [? _]. Qed.

Lemma chained_reverse l : chained l = true → chained (reverse l) = true.
Proof.
  induction l as [|x [|y l] IH]; intros Hc; [done..|].
  apply chained_cons in Hc as [Hxy Hc].
  rewrite reverse_cons. apply (chained_snoc _ y); [by apply IH| |by rewrite adjacent_sym].
  by rewrite last_reverse.
Qed.

Section path_facts.
Variable V : pos → Prop.

Lemma simple_path_on_reverse p q l :
  simple_path_on V p q l → simple_path_on V q p (reverse l).
Proof.
  intros (Hh & Hl & Hnd & Hall & Hc). repeat split.
  - by rewrite head_reverse.
  - by rewrite last_reverse.
  - by rewrite reverse_Permutation.
  - by apply Forall_reverse.
  - by apply chained_reverse.
Qed.

(** The only simple path from a cell to itself is the cell alone. *)
Lemma simple_path_on_loop x l : simple_path_on V x x l → l = [x].
Proof.
  intros (Hh & Hl & Hnd & _ & _).
  destruct l as [|y l]; [done|]. injection Hh as ->.
  destruct l as [|z l]; [done|]. exfalso.
  apply NoDup_cons in Hnd as [Hnin _]. apply Hnin.
  rewrite last_cons_cons in Hl. by apply last_Some_elem_of.
Qed.

Lemma simple_path_on_single x : V x → simple_path_on V x x [x].
Proof.
  intros Hx. repeat split; try done; [apply NoDup_singleton|by apply Forall_singleton].
Qed.
End path_facts.

Lemma simple_path_on_mono (V V' : pos → Prop) p q l :
  (∀ x, x ∈ l → V x → V' x) → simple_path_on V p q l → simple_path_on V' p q l.
Proof.
  intros Hsub (Hh & Hl & Hnd & Hall & Hc). repeat split; try done.
  rewrite Forall_forall in Hall |- *. intros x Hx. apply Hsub; [done|]. by apply Hall.
Qed.

(** A set with at most one cell is a tree. *)
Lemma tree_on_single (V : pos → Prop) x : (∀ y, V y → y = x) → tree_on V.
Proof.
  intros Hone p q Hp Hq. rewrite (Hone p Hp), (Hone q Hq).
  exists [x]. split.
  - apply simple_path_on_single. by rewrite <- (Hone p Hp).
  - apply simple_path_on_loop.
Qed.

(** ** Hanging a new leaf on a tree *)

Section leaf.
Variables V V' : pos → Prop.
Variables u v : pos.
Hypothesis Htree : tree_on V.
Hypothesis Hv : ¬ V v.
Hypothesis Hu : V u.
Hypothesis Huv : adjacent u v = true.
Hypothesis Honly : ∀ x, V x → adjacent x v = true → x = u.
Hypothesis HS' : ∀ x, V' x ↔ x = v ∨ V x.

(** A simple path between two old cells does not pass through the leaf. *)
Lemma leaf_not_inside p q l :
  simple_path_on V' p q l → p ≠ v → q ≠ v → v ∉ l.
Proof.
  intros (Hh & Hl & Hnd & Hall & Hc) Hp Hq Hin.
  apply list_elem_of_split in Hin as (l1 & l2 & ->).
  destruct (decide (l1 = [])) as [->|Hl1]; [by injection Hh as ->|].
  destruct l2 as [|y l2]; [rewrite last_snoc in Hl; by injection Hl as ->|].
  destruct (exists_last Hl1) as (l1' & x & ->).
  rewrite <- app_assoc in Hnd, Hall, Hc. simpl in Hnd, Hall, Hc.
  pose proof (chained_middle _ _ _ _ Hc) as Hxv.
  assert (Hc' : chained ((l1' ++ [x]) ++ v :: y :: l2) = true) by (by rewrite <- app_assoc).
  pose proof (chained_middle _ _ _ _ Hc') as Hvy. rewrite adjacent_sym in Hvy.
  apply NoDup_app in Hnd as (_ & _ & Hnd).
  apply NoDup_cons in Hnd as [Hx Hnd]. apply NoDup_cons in Hnd as [Hvn Hnd].
  rewrite Forall_app in Hall. destruct Hall as [_ Hall].
  apply Forall_cons in Hall as [Hsx Hall]. apply Forall_cons in Hall as [_ Hall].
  apply Forall_cons in Hall as [Hsy _].
  assert (x ≠ v) by (intros ->; apply Hx; left).
  assert (y ≠ v) by (intros ->; apply Hvn; left).
  apply HS' in Hsx as [?|Hsx]; [done|]. apply HS' in Hsy as [?|Hsy]; [done|].
  apply Honly in Hsx; [|done]. apply Honly in Hsy; [|done]. subst.
  apply Hx. right. left.
Qed.

Lemma leaf_restrict p q l :
  simple_path_on V' p q l → v ∉ l → simple_path_on V p q l.
Proof.
  intros Hl Hnin. apply (simple_path_on_mono V'); [|done].
  intros x Hx [->|Hs]%HS'; done.
Qed.

Lemma leaf_extend p q l : simple_path_on V p q l → simple_path_on V' p q l.
Proof.
  apply simple_path_on_mono. intros x _ Hx. apply HS'. by right.
Qed.

(** A simple path that starts at the leaf continues with a simple path of
    the old tree from its neighbour. *)
Lemma leaf_first q l :
  simple_path_on V' v q l → q ≠ v → ∃ l', l = v :: l' ∧ simple_path_on V u q l'.
Proof.
  intros (Hh & Hl & Hnd & Hall & Hc) Hq.
  destruct l as [|x l]; [done|]. injection Hh as ->.
  destruct l as [|y l]; [by injection Hl as ->|].
  exists (y :: l). split; [done|].
  apply chained_cons in Hc as [Hvy Hc]. rewrite adjacent_sym in Hvy.
  apply NoDup_cons in Hnd as [Hvn Hnd].
  apply Forall_cons in Hall as [_ Hall].
  assert (Hy : y = u).
  { apply Honly; [|done]. apply Forall_cons in Hall as [Hsy _].
    apply HS' in Hsy as [->|?]; [|done]. exfalso. apply Hvn. left. }
  subst y. apply leaf_restrict; [|done].
  repeat split; try done; by rewrite last_cons_cons in Hl.
Qed.

Lemma leaf_first_extend q l' :
  simple_path_on V u q l' → simple_path_on V' v q (v :: l').
Proof.
  intros Hl'. pose proof Hl' as (Hh & Hl & Hnd & Hall & Hc).
  destruct l' as [|y l']; [done|]. injection Hh as ->.
  repeat split.
  - by rewrite last_cons_cons.
  - apply NoDup_cons. split; [|done]. intros Hin.
    rewrite Forall_forall in Hall. by apply Hv, Hall.
  - apply Forall_cons. split; [apply HS'; by left|].
    eapply Forall_impl; [exact Hall|]. intros x Hx. apply HS'. by right.
  - apply chained_cons. split; [by rewrite adjacent_sym|done].
Qed.

Theorem tree_on_leaf : tree_on V'.
Proof.
  intros p q Hp Hq.
  destruct (decide (p = v)) as [->|Hpv]; destruct (decide (q = v)) as [->|Hqv].
  - exists [v]. split; [by apply simple_path_on_single|apply simple_path_on_loop].
  - apply HS' in Hq as [?|Hq]; [done|].
    destruct (Htree u q Hu Hq) as (l0 & Hl0 & Huniq).
    exists (v :: l0). split; [by apply leaf_first_extend|].
    intros l' Hl'. apply leaf_first in Hl' as (l'' & -> & Hl''); [|done].
    f_equal. by apply Huniq.
  - apply HS' in Hp as [?|Hp]; [done|].
    destruct (Htree u p Hu Hp) as (l0 & Hl0 & Huniq).
    exists (reverse (v :: l0)). split.
    + apply simple_path_on_reverse. by apply leaf_first_extend.
    + intros l' Hl'. apply simple_path_on_reverse in Hl'.
      apply leaf_first in Hl' as (l'' & Hrev & Hl''); [|done].
      rewrite <- (reverse_involutive l'), Hrev. do 2 f_equal. by apply Huniq.
  - apply HS' in Hp as [?|Hp]; [done|]. apply HS' in Hq as [?|Hq]; [done|].
    destruct (Htree p q Hp Hq) as (l0 & Hl0 & Huniq).
    exists l0. split; [by apply leaf_extend|].
    intros l' Hl'. apply Huniq. apply leaf_restrict; [done|].
    by apply (leaf_not_inside p q).
Qed.
End leaf.

(** * The main loop of [find_path] keeps its invariant *)

Lemma walkable_bounds a q :
  astar.walkable a q = true →
  0 ≤ q.1 < astar.height a ∧ 0 ≤ q.2 < astar.width a
  ∧ getitem (astar.maze a) q.1 q.2 = Some 0.
Proof.
  unfold astar.walkable. rewrite !andb_true_iff, bool_decide_eq_true, !Z.leb_le, !Z.ltb_lt.
  intros ((((? & ?) & ?) & ?) & ?). repeat split; (lia || done).
Qed.

Lemma get_neighbors_spec a p q :
  q ∈ astar.get_neighbors a p ↔ astar.walkable a q = true ∧ adjacent p q = true.
Proof.
  unfold astar.get_neighbors. rewrite list_elem_of_filter, Is_true_true.
  unfold adjacent. destruct p as [pr pc], q as [qr qc]. simpl.
  rewrite !elem_of_cons, elem_of_nil, Z.eqb_eq. split.
  - intros [Hw Hq]. split; [done|].
    destruct Hq as [Hq|[Hq|[Hq|[Hq|[]]]]]; injection Hq as -> ->; lia.
  - intros [Hw Hadj]. split; [done|].
    assert (Hcases : (qr = pr + 0 ∧ qc = pc + 1) ∨ (qr = pr + 1 ∧ qc = pc + 0)
                     ∨ (qr = pr + 0 ∧ qc = pc + -1) ∨ (qr = pr + -1 ∧ qc = pc + 0)) by lia.
    destruct Hcases as [[-> ->]|[[-> ->]|[[-> ->]|[-> ->]]]]; auto.
Qed.

Lemma open_path_spec a s e path :
  astar.open_path a s e path = true ↔
  head path = Some s ∧ last path = Some e
  ∧ (∀ p, p ∈ path → astar.walkable a p = true) ∧ chained path = true.
Proof.
  unfold astar.open_path.
  rewrite !andb_true_iff, !bool_decide_eq_true, forallb_forall.
  setoid_rewrite <- list_elem_of_In. tauto.
Qed.

Section search_facts.
Variable a : astar.AStar.
Variables start e : pos.

Lemma initial_inv : search_inv a start e (astar.initial start e).
Proof.
  unfold astar.initial.
  assert (Hp : heapq.heappush
            (astar.__lt__ (<[start := astar.mkNode 0 (astar.heuristic start e)
                 (0 + astar.heuristic start e) None "evaluating"]> ∅)) [] start ≡ₚ [start])
    by apply heappush_perm.
  split; simpl.
  - rewrite Hp. apply NoDup_singleton.
  - set_solver.
  - intros p Hin. rewrite Hp in Hin. apply list_elem_of_singleton in Hin as ->.
    rewrite lookup_insert_eq. eauto.
  - set_solver.
  - intros p [n Hn]. apply lookup_insert_Some in Hn as [[<- _]|[_ Hn]].
    + constructor.
    + by rewrite lookup_empty in Hn.
  - set_solver.
  - intros p n Hn. apply lookup_insert_Some in Hn as [[<- <-]|[_ Hn]]; [done|].
    by rewrite lookup_empty in Hn.
  - intros p n Hn. apply lookup_insert_Some in Hn as [[_ <-]|[_ Hn]]; [done|].
    by rewrite lookup_empty in Hn.
  - intros p n Hn. apply lookup_insert_Some in Hn as [[_ <-]|[_ Hn]]; [done|].
    by rewrite lookup_empty in Hn.
Qed.

Lemma relax_closed current s nb :
  astar.closed_set (astar.relax e current s nb) = astar.closed_set s.
Proof. unfold astar.relax. repeat case_match; done. Qed.

Lemma relax_inv current s nb :
  search_inv a start e s →
  current ∈ astar.closed_set s →
  nb ∈ astar.get_neighbors a current →
  search_inv a start e (astar.relax e current s nb).
Proof.
  intros Hinv Hcur Hnb. unfold astar.relax.
  case_bool_decide as Hncl; [done|].
  destruct (astar.nodes s !! current) as [cur|] eqn:Hc; [|done].
  set (tg := astar.g cur + 1).
  set (nbn := astar.mkNode tg (astar.heuristic nb e) (tg + astar.heuristic nb e)
                (Some current) "evaluating").
  match goal with |- context [if ?b then _ else s] => destruct b; [|done] end.
  assert (Hne : nb ≠ current) by (intros ->; done).
  assert (Hreach : astar.reach a start nb).
  { eapply astar.reach_step; [|exact Hnb]. apply (inv_reach _ _ _ _ Hinv). eauto. }
  assert (Hg0 : 0 ≤ tg) by (pose proof (inv_g _ _ _ _ Hinv _ _ Hc); unfold tg; lia).
  assert (Hnodes : ∀ p, is_Some (astar.nodes s !! p) → is_Some (<[nb := nbn]> (astar.nodes s) !! p)).
  { intros p Hp. rewrite lookup_insert. case_decide; eauto. }
  assert (Hreach' : ∀ p, is_Some (<[nb := nbn]> (astar.nodes s) !! p) → astar.reach a start p).
  { intros p. rewrite lookup_insert. case_decide as Hd; [by subst|].
    apply (inv_reach _ _ _ _ Hinv). }
  assert (Hpar' : ∀ p n, <[nb := nbn]> (astar.nodes s) !! p = Some n →
    match astar.parent n with
    | Some q => q ∈ astar.closed_set s ∧ p ∈ astar.get_neighbors a q
                ∧ ∃ nq, <[nb := nbn]> (astar.nodes s) !! q = Some nq ∧ astar.g n = astar.g nq + 1
    | None => p = start ∧ astar.g n = 0
    end).
  { intros p n Hn. apply lookup_insert_Some in Hn as [[<- <-]|[Hpn Hn]]; simpl.
    - split; [done|]. split; [done|]. exists cur. by rewrite lookup_insert_ne.
    - pose proof (inv_parent _ _ _ _ Hinv _ _ Hn) as Hp.
      destruct (astar.parent n) as [q|]; [|done].
      destruct Hp as (Hq & Hadj & nq & Hnq & Hgq). split; [done|]. split; [done|].
      exists nq. rewrite lookup_insert_ne; [done|]. intros <-. done. }
  assert (Hg' : ∀ p n, <[nb := nbn]> (astar.nodes s) !! p = Some n → 0 ≤ astar.g n).
  { intros p n Hn. apply lookup_insert_Some in Hn as [[_ <-]|[_ Hn]]; [done|].
    by apply (inv_g _ _ _ _ Hinv _ _ Hn). }
  assert (Hst' : ∀ p n, <[nb := nbn]> (astar.nodes s) !! p = Some n → astar.status n = "evaluating").
  { intros p n Hn. apply lookup_insert_Some in Hn as [[_ <-]|[_ Hn]]; [done|].
    by apply (inv_status _ _ _ _ Hinv _ _ Hn). }
  case_bool_decide as Hop; split; simpl; try done.
  - exact (inv_nodup _ _ _ _ Hinv).
  - exact (inv_open_closed _ _ _ _ Hinv).
  - intros p Hp. apply Hnodes. by apply (inv_open_nodes _ _ _ _ Hinv).
  - intros p Hp. apply Hnodes. by apply (inv_closed_nodes _ _ _ _ Hinv).
  - exact (inv_end _ _ _ _ Hinv).
  - rewrite heappush_perm. apply NoDup_cons. split; [done|exact (inv_nodup _ _ _ _ Hinv)].
  - intros p. rewrite heappush_perm. intros [->|Hp]%elem_of_cons; [done|].
    by apply (inv_open_closed _ _ _ _ Hinv).
  - intros p. rewrite heappush_perm. intros [->|Hp]%elem_of_cons.
    + rewrite lookup_insert_eq. eauto.
    + apply Hnodes. by apply (inv_open_nodes _ _ _ _ Hinv).
  - intros p Hp. apply Hnodes. by apply (inv_closed_nodes _ _ _ _ Hinv).
  - exact (inv_end _ _ _ _ Hinv).
Qed.

Lemma relax_fold_inv current s nbs :
  search_inv a start e s →
  current ∈ astar.closed_set s →
  (∀ nb, nb ∈ nbs → nb ∈ astar.get_neighbors a current) →
  search_inv a start e (foldl (astar.relax e current) s nbs)
  ∧ astar.closed_set (foldl (astar.relax e current) s nbs) = astar.closed_set s.
Proof.
  revert s. induction nbs as [|nb nbs IH]; intros s Hinv Hcur Hnbs; simpl; [done|].
  destruct (IH (astar.relax e current s nb)) as [H1 H2].
  - apply relax_inv; [done..|]. apply Hnbs. left.
  - by rewrite relax_closed.
  - intros nb' Hnb'. apply Hnbs. by right.
  - split; [done|]. by rewrite H2, relax_closed.
Qed.

(** Closing the popped cell. *)
Lemma close_inv s current open' :
  search_inv a start e s →
  heapq.heappop (astar.__lt__ (astar.nodes s)) (astar.open_list s) = Some (current, open') →
  current ≠ e →
  search_inv a start e
    (astar.mkSearch open' ({[current]} ∪ astar.closed_set s) (astar.nodes s))
  ∧ current ∈ astar.open_list s
  ∧ (∀ p, p ∈ astar.open_list s → p = current ∨ p ∈ open').
Proof.
  intros Hinv Hpop Hne.
  apply heappop_perm in Hpop.
  assert (Hnd : NoDup (current :: open')) by (rewrite <- Hpop; exact (inv_nodup _ _ _ _ Hinv)).
  apply NoDup_cons in Hnd as [Hnin Hnd].
  assert (Hcin : current ∈ astar.open_list s) by (rewrite Hpop; left).
  assert (Hsub : ∀ p, p ∈ open' → p ∈ astar.open_list s) by (intros p Hp; rewrite Hpop; by right).
  split; [|split; [done|]].
  - split; simpl.
    + done.
    + intros p Hp Hc. apply elem_of_union in Hc as [Hc|Hc].
      * apply elem_of_singleton in Hc. by subst.
      * by apply (inv_open_closed _ _ _ _ Hinv p (Hsub _ Hp)).
    + intros p Hp. apply (inv_open_nodes _ _ _ _ Hinv). by apply Hsub.
    + intros p Hc. apply elem_of_union in Hc as [Hc|Hc].
      * apply elem_of_singleton in Hc. subst. by apply (inv_open_nodes _ _ _ _ Hinv).
      * by apply (inv_closed_nodes _ _ _ _ Hinv).
    + exact (inv_reach _ _ _ _ Hinv).
    + intros Hc. apply elem_of_union in Hc as [Hc|Hc].
      * apply elem_of_singleton in Hc. by subst.
      * by apply (inv_end _ _ _ _ Hinv).
    + intros p n Hn. pose proof (inv_parent _ _ _ _ Hinv _ _ Hn) as Hp.
      destruct (astar.parent n); [|done]. destruct Hp as [Hq Hnq].
      split; [|done]. apply elem_of_union. by right.
    + exact (inv_g _ _ _ _ Hinv).
    + exact (inv_status _ _ _ _ Hinv).
  - intros p Hp. rewrite Hpop in Hp. by apply elem_of_cons in Hp.
Qed.

(** One expansion: the popped cell, not the goal, is closed and its
    neighbours relaxed. *)
Lemma expand_inv s current open' :
  search_inv a start e s →
  heapq.heappop (astar.__lt__ (astar.nodes s)) (astar.open_list s) = Some (current, open') →
  current ≠ e →
  let s1 := astar.mkSearch open' ({[current]} ∪ astar.closed_set s) (astar.nodes s) in
  let s2 := foldl (astar.relax e current) s1 (astar.get_neighbors a current) in
  search_inv a start e s2
  ∧ astar.closed_set s2 = {[current]} ∪ astar.closed_set s
  ∧ (current ∉ astar.closed_set s)
  ∧ is_Some (astar.nodes s !! current).
Proof.
  intros Hinv Hpop Hne s1 s2.
  destruct (close_inv s current open' Hinv Hpop Hne) as (Hinv1 & Hcin & _).
  destruct (relax_fold_inv current s1 (astar.get_neighbors a current)) as [H1 H2];
    [done|simpl; apply elem_of_union; left; by apply elem_of_singleton|done|].
  split; [exact H1|]. split; [exact H2|]. split.
  - by apply (inv_open_closed _ _ _ _ Hinv).
  - by apply (inv_open_nodes _ _ _ _ Hinv).
Qed.

(** *** Completeness: every neighbour of a closed cell gets a node *)

Lemma relax_frontier current s nb :
  search_inv a start e s →
  current ∈ astar.closed_set s →
  (∀ p, is_Some (astar.nodes s !! p) → p ∈ astar.closed_set s ∨ p ∈ astar.open_list s) →
  (∀ p, is_Some (astar.nodes s !! p) → is_Some (astar.nodes (astar.relax e current s nb) !! p))
  ∧ (∀ p, is_Some (astar.nodes (astar.relax e current s nb) !! p) →
       p ∈ astar.closed_set (astar.relax e current s nb)
       ∨ p ∈ astar.open_list (astar.relax e current s nb))
  ∧ is_Some (astar.nodes (astar.relax e current s nb) !! nb).
Proof.
  intros Hinv Hcur Hknown. unfold astar.relax.
  case_bool_decide as Hcl.
  { split; [done|]. split; [done|]. by apply (inv_closed_nodes _ _ _ _ Hinv). }
  destruct (inv_closed_nodes _ _ _ _ Hinv _ Hcur) as [cur Hc]. rewrite Hc.
  destruct (astar.nodes s !! nb) as [old|] eqn:Hnb.
  - destruct (negb _).
    + case_bool_decide as Hop; simpl.
      * split; [intros p Hp; rewrite lookup_insert; case_decide; eauto|].
        split; [|rewrite lookup_insert_eq; eauto].
        intros p Hp. rewrite lookup_insert in Hp. case_decide; [subst; by right|auto].
      * split; [intros p Hp; rewrite lookup_insert; case_decide; eauto|].
        split; [|rewrite lookup_insert_eq; eauto].
        intros p Hp. rewrite heappush_perm. rewrite lookup_insert in Hp.
        case_decide; [subst; right; left|].
        destruct (Hknown p Hp); [by left|right; by right].
    + split; [done|]. split; [done|]. rewrite Hnb. eauto.
  - simpl. case_bool_decide as Hop; simpl.
    + split; [intros p Hp; rewrite lookup_insert; case_decide; eauto|].
      split; [|rewrite lookup_insert_eq; eauto].
      intros p Hp. rewrite lookup_insert in Hp. case_decide; [subst; by right|auto].
    + split; [intros p Hp; rewrite lookup_insert; case_decide; eauto|].
      split; [|rewrite lookup_insert_eq; eauto].
      intros p Hp. rewrite heappush_perm. rewrite lookup_insert in Hp.
      case_decide; [subst; right; left|].
      destruct (Hknown p Hp); [by left|right; by right].
Qed.

Lemma relax_fold_frontier current nbs s :
  search_inv a start e s →
  current ∈ astar.closed_set s →
  (∀ nb, nb ∈ nbs → nb ∈ astar.get_neighbors a current) →
  (∀ p, is_Some (astar.nodes s !! p) → p ∈ astar.closed_set s ∨ p ∈ astar.open_list s) →
  (∀ p, is_Some (astar.nodes s !! p) →
        is_Some (astar.nodes (foldl (astar.relax e current) s nbs) !! p))
  ∧ (∀ p, is_Some (astar.nodes (foldl (astar.relax e current) s nbs) !! p) →
       p ∈ astar.closed_set (foldl (astar.relax e current) s nbs)
       ∨ p ∈ astar.open_list (foldl (astar.relax e current) s nbs))
  ∧ (∀ nb, nb ∈ nbs → is_Some (astar.nodes (foldl (astar.relax e current) s nbs) !! nb)).
Proof.
  revert s. induction nbs as [|nb nbs IH]; intros s Hinv Hcur Hnbs Hknown; simpl.
  { split; [done|]. split; [done|]. by intros nb Hnb%elem_of_nil. }
  destruct (relax_frontier current s nb Hinv Hcur Hknown) as (Hmono & Hknown' & Hnb).
  destruct (IH (astar.relax e current s nb)) as (Hmono2 & Hknown2 & Hall).
  - apply relax_inv; [done..|]. apply Hnbs. left.
  - by rewrite relax_closed.
  - intros nb' Hnb'. apply Hnbs. by right.
  - done.
  - split; [intros p Hp; by apply Hmono2, Hmono|]. split; [done|].
    intros nb' [->|Hin]%elem_of_cons; [by apply Hmono2|by apply Hall].
Qed.

Lemma initial_frontier : frontier_inv a start (astar.initial start e).
Proof.
  unfold astar.initial. split; simpl.
  - rewrite lookup_insert_eq. eauto.
  - intros p [n Hn]. apply lookup_insert_Some in Hn as [[<- _]|[_ Hn]].
    + right. rewrite heappush_perm. left.
    + by rewrite lookup_empty in Hn.
  - intros p q Hp. by apply elem_of_empty in Hp.
Qed.

Lemma expand_frontier s current open' :
  search_inv a start e s → frontier_inv a start s →
  heapq.heappop (astar.__lt__ (astar.nodes s)) (astar.open_list s) = Some (current, open') →
  current ≠ e →
  frontier_inv a start
    (foldl (astar.relax e current)
       (astar.mkSearch open' ({[current]} ∪ astar.closed_set s) (astar.nodes s))
       (astar.get_neighbors a current)).
Proof.
  intros Hinv Hfi Hpop Hne.
  destruct (close_inv s current open' Hinv Hpop Hne) as (Hinv1 & Hcin & Hopen).
  set (s1 := astar.mkSearch open' ({[current]} ∪ astar.closed_set s) (astar.nodes s)) in *.
  assert (Hcur1 : current ∈ astar.closed_set s1)
    by (simpl; apply elem_of_union; left; by apply elem_of_singleton).
  destruct (relax_fold_frontier current (astar.get_neighbors a current) s1 Hinv1 Hcur1)
    as (Hmono & Hknown & Hall); [done| |].
  { intros p Hp. simpl. destruct (fi_known _ _ _ Hfi p Hp) as [Hc|Ho].
    - left. apply elem_of_union. by right.
    - destruct (Hopen p Ho) as [->|Hin]; [by left|by right]. }
  destruct (relax_fold_inv current s1 (astar.get_neighbors a current)) as [_ Hcl]; [done..|].
  split.
  - apply Hmono. exact (fi_start _ _ _ Hfi).
  - exact Hknown.
  - intros p q Hp Hq. rewrite Hcl in Hp. simpl in Hp.
    apply elem_of_union in Hp as [Hp|Hp].
    + apply elem_of_singleton in Hp. subst p. by apply Hall.
    + apply Hmono. by apply (fi_expanded _ _ _ Hfi p q).
Qed.
End search_facts.

(** * Path reconstruction *)

Section rebuild_facts.
Variable a : astar.AStar.
Variables start e : pos.
Variable s : astar.search.
Hypothesis Hinv : search_inv a start e s.

(** Every cell that follows the first one in the parent chain is closed. *)
Lemma rebuild_closed fuel cur acc r :
  (∀ q, cur = Some q → q ∈ astar.closed_set s) →
  astar.rebuild fuel (astar.nodes s) cur acc = Some r →
  ∃ chain, r = acc ++ chain ∧ ∀ q, q ∈ chain → q ∈ astar.closed_set s.
Proof.
  revert cur acc. induction fuel as [|k IH]; intros [p|] acc Hcur; simpl; try done.
  - intros [= <-]. exists []. split; [by rewrite app_nil_r|]. by intros q Hq%elem_of_nil.
  - intros Hr. apply IH in Hr as (chain & -> & Hchain).
    + exists (p :: chain). split; [by rewrite <- app_assoc|].
      intros q [->|Hq]%elem_of_cons; [by apply Hcur|by apply Hchain].
    + intros q Hq. destruct (astar.nodes s !! p) as [n|] eqn:Hn; [|done].
      simpl in Hq. pose proof (inv_parent _ _ _ _ Hinv _ _ Hn) as Hp.
      rewrite Hq in Hp. apply Hp.
  - intros [= <-]. exists []. split; [by rewrite app_nil_r|]. by intros q Hq%elem_of_nil.
Qed.

(** The chain from a node of cost [g] has [g + 1] cells. *)
Lemma rebuild_total fuel cur acc :
  (∀ q, cur = Some q → ∃ n, astar.nodes s !! q = Some n ∧ astar.g n < Z.of_nat fuel) →
  is_Some (astar.rebuild fuel (astar.nodes s) cur acc).
Proof.
  revert cur acc. induction fuel as [|k IH]; intros [p|] acc Hcur; simpl; eauto.
  - destruct (Hcur p eq_refl) as (n & Hn & Hg).
    pose proof (inv_g _ _ _ _ Hinv _ _ Hn). lia.
  - apply IH. intros q Hq.
    destruct (Hcur p eq_refl) as (n & Hn & Hg). rewrite Hn in Hq. simpl in Hq.
    pose proof (inv_parent _ _ _ _ Hinv _ _ Hn) as Hp. rewrite Hq in Hp.
    destruct Hp as (_ & _ & nq & Hnq & Hgq). exists nq. split; [done|lia].
Qed.

(** Below a node of cost [k] there are [k + 1] distinct nodes. *)
Lemma g_chain k :
  (0 ≤ k) → ∀ p n, astar.nodes s !! p = Some n → astar.g n = k →
  ∃ l : list pos, Z.of_nat (length l) = k + 1 ∧ NoDup l
    ∧ ∀ x, x ∈ l → ∃ nx, astar.nodes s !! x = Some nx ∧ astar.g nx ≤ k.
Proof.
  intros Hk. pattern k. apply natlike_ind; [| |exact Hk]; clear k Hk.
  - intros p n Hn Hg. exists [p]. split; [done|]. split; [apply NoDup_singleton|].
    intros x ->%list_elem_of_singleton. exists n. split; [done|lia].
  - intros k Hk IH p n Hn Hg.
    pose proof (inv_parent _ _ _ _ Hinv _ _ Hn) as Hp.
    destruct (astar.parent n) as [q|]; [|lia].
    destruct Hp as (_ & _ & nq & Hnq & Hgq).
    destruct (IH q nq Hnq) as (l & Hlen & Hnd & Hl); [lia|].
    exists (p :: l). split; [simpl; lia|]. split.
    + apply NoDup_cons. split; [|done]. intros Hin.
      destruct (Hl _ Hin) as (nx & Hnx & Hgx). rewrite Hn in Hnx. injection Hnx as <-. lia.
    + intros x [->|Hx]%elem_of_cons.
      * exists n. split; [done|lia].
      * destruct (Hl _ Hx) as (nx & Hnx & Hgx). exists nx. split; [done|lia].
Qed.

Lemma g_bound p n :
  astar.nodes s !! p = Some n → astar.g n < Z.of_nat (size (astar.nodes s)).
Proof.
  intros Hn. pose proof (inv_g _ _ _ _ Hinv _ _ Hn) as Hg.
  destruct (g_chain (astar.g n) Hg p n Hn eq_refl) as (l & Hlen & Hnd & Hl).
  assert (Hsub : l ⊆+ elements (dom (astar.nodes s))).
  { apply NoDup_submseteq; [done|]. intros x Hx.
    destruct (Hl _ Hx) as (nx & Hnx & _). apply elem_of_elements, elem_of_dom. eauto. }
  apply submseteq_length in Hsub.
  change (length (elements (dom (astar.nodes s)))) with (size (dom (astar.nodes s))) in Hsub.
  rewrite size_dom in Hsub. lia.
Qed.

(** Read backwards, the parent chain is a walk from the start along
    neighbours. *)
Lemma rebuild_valid fuel p acc r :
  is_Some (astar.nodes s !! p) →
  astar.rebuild fuel (astar.nodes s) (Some p) acc = Some r →
  ∃ chain, r = acc ++ p :: chain
    ∧ chained (reverse (p :: chain)) = true
    ∧ (∀ x, x ∈ p :: chain → x = start ∨ astar.walkable a x = true)
    ∧ last (p :: chain) = Some start.
Proof.
  revert p acc. induction fuel as [|k IH]; intros p acc [n Hn] Hr; [done|].
  simpl in Hr. rewrite Hn in Hr. simpl in Hr.
  pose proof (inv_parent _ _ _ _ Hinv _ _ Hn) as Hp.
  destruct (astar.parent n) as [q|].
  - destruct Hp as (Hq & Hadj & nq & Hnq & _).
    apply get_neighbors_spec in Hadj as [Hw Hadj].
    apply IH in Hr as (chain & -> & Hc & Hall & Hl); [|eauto].
    exists (q :: chain). split; [by rewrite <- app_assoc|]. split; [|split].
    + rewrite reverse_cons. apply (chained_snoc _ q); [done| |done].
      by rewrite last_reverse.
    + intros x [->|Hx]%elem_of_cons; [by right|by apply Hall].
    + by rewrite last_cons_cons.
  - destruct Hp as [-> _]. destruct k; simpl in Hr; injection Hr as <-.
    + exists []. split; [done|]. split; [done|]. split; [|done].
      intros x ->%list_elem_of_singleton. by left.
    + exists []. split; [done|]. split; [done|]. split; [|done].
      intros x ->%list_elem_of_singleton. by left.
Qed.

(** The costs go down along the parent chain, so no cell occurs twice. *)
Lemma rebuild_nodup fuel p n acc r :
  astar.nodes s !! p = Some n →
  astar.rebuild fuel (astar.nodes s) (Some p) acc = Some r →
  ∃ chain, r = acc ++ p :: chain ∧ NoDup (p :: chain)
    ∧ ∀ x, x ∈ p :: chain → ∃ nx, astar.nodes s !! x = Some nx ∧ astar.g nx ≤ astar.g n.
Proof.
  revert p n acc. induction fuel as [|k IH]; intros p n acc Hn Hr; [done|].
  simpl in Hr. rewrite Hn in Hr. simpl in Hr.
  pose proof (inv_parent _ _ _ _ Hinv _ _ Hn) as Hp.
  destruct (astar.parent n) as [q|].
  - destruct Hp as (_ & _ & nq & Hnq & Hg).
    destruct (IH q nq _ Hnq Hr) as (chain & Heq & Hnd & Hall). subst r.
    exists (q :: chain). split; [by rewrite <- app_assoc|]. split.
    + apply NoDup_cons. split; [|done]. intros Hin.
      destruct (Hall _ Hin) as (nx & Hnx & Hgx).
      assert (nx = n) by congruence. subst nx. lia.
    + intros x [->|Hx]%elem_of_cons.
      * exists n. split; [done|lia].
      * destruct (Hall _ Hx) as (nx & Hnx & Hgx). exists nx. split; [done|lia].
  - assert (Hone : r = acc ++ [p]) by (destruct k; simpl in Hr; by injection Hr).
    exists []. split; [done|]. split; [apply NoDup_singleton|].
    intros x ->%list_elem_of_singleton. exists n. split; [done|lia].
Qed.

(** Reconstruction from a node of the store succeeds, and only its first
    cell can be the goal. *)
Lemma rebuild_path p :
  is_Some (astar.nodes s !! p) →
  ∃ chain, astar.rebuild (S (size (astar.nodes s))) (astar.nodes s) (Some p) [] = Some (p :: chain)
           ∧ (∀ q, q ∈ chain → q ∈ astar.closed_set s)
           ∧ chained (reverse (p :: chain)) = true
           ∧ (∀ x, x ∈ p :: chain → x = start ∨ astar.walkable a x = true)
           ∧ last (p :: chain) = Some start
           ∧ NoDup (p :: chain).
Proof.
  intros [n Hn].
  destruct (rebuild_total (S (size (astar.nodes s))) (Some p) []) as [r Hr].
  { intros q [= <-]. exists n. split; [done|]. pose proof (g_bound _ _ Hn). lia. }
  rewrite Hr.
  destruct (rebuild_valid _ _ _ _ (ex_intro _ n Hn) Hr) as (chain2 & Hr2 & Hc & Hall & Hl).
  destruct (rebuild_nodup _ _ _ _ _ Hn Hr) as (chain3 & Hr3 & Hnd & _).
  simpl in Hr, Hr2, Hr3. subst r. injection Hr3 as <-.
  apply rebuild_closed in Hr as (chain & Heq & Hchain).
  - injection Heq as <-. by exists chain2.
  - intros q Hq. rewrite Hn in Hq. simpl in Hq.
    pose proof (inv_parent _ _ _ _ Hinv _ _ Hn) as Hp. rewrite Hq in Hp. apply Hp.
Qed.
End rebuild_facts.

(** * Runs of the main loop *)

Lemma universe_length a start :
  (length (universe a start) < astar.loop_fuel a)%nat.
Proof.
  unfold universe, astar.loop_fuel. simpl.
  rewrite (length_bind_const _ _ (Z.to_nat (astar.width a))).
  - rewrite length_seqZ.
    destruct (Z_lt_le_dec (astar.height a) 0).
    { replace (Z.to_nat (astar.height a)) with 0%nat by lia. lia. }
    destruct (Z_lt_le_dec (astar.width a) 0).
    { replace (Z.to_nat (astar.width a)) with 0%nat by lia. lia. }
    rewrite Z2Nat.inj_mul by lia. lia.
  - intros r. rewrite (length_bind_const _ _ 1%nat); [|done].
    rewrite length_seqZ. lia.
Qed.

(** One turn of the loop. *)
Lemma search_loop_S k a e s hist :
  astar.search_loop (S k) a e s hist =
  match heapq.heappop (astar.__lt__ (astar.nodes s)) (astar.open_list s) with
  | None => astar.mkRun (Some ([], [])) s hist
  | Some (current_pos, open') =>
    if bool_decide (current_pos = e) then
      match astar.rebuild (S (size (astar.nodes s))) (astar.nodes s) (Some current_pos) [] with
      | Some rpath =>
        astar.mkRun (Some (reverse rpath, astar.generate_path_costs (reverse rpath) e))
          (astar.mkSearch open' (astar.closed_set s) (astar.nodes s)) hist
      | None => astar.mkRun None (astar.mkSearch open' (astar.closed_set s) (astar.nodes s)) hist
      end
    else
      match astar.nodes s !! current_pos with
      | None => astar.mkRun None (astar.mkSearch open' (astar.closed_set s) (astar.nodes s)) hist
      | Some current =>
        astar.search_loop k a e
          (foldl (astar.relax e current_pos)
             (astar.mkSearch open' ({[current_pos]} ∪ astar.closed_set s) (astar.nodes s))
             (astar.get_neighbors a current_pos))
          (astar.record_step hist current)
      end
  end.
Proof. reflexivity. Qed.

Section loop_facts.
Variable a : astar.AStar.
Variables start e : pos.

Lemma reach_universe p : astar.reach a start p → p ∈ universe a start.
Proof.
  intros Hr. destruct Hr as [|p q _ Hq]; [left|]. right.
  apply get_neighbors_spec in Hq as [Hw _]. apply walkable_bounds in Hw.
  apply list_elem_of_bind. exists q.1. split.
  - apply list_elem_of_bind. exists q.2. split.
    + destruct q. simpl. left.
    + apply elem_of_seqZ. lia.
  - apply elem_of_seqZ. lia.
Qed.

Lemma closed_bound s :
  search_inv a start e s →
  (size (astar.closed_set s) ≤ length (universe a start))%nat.
Proof.
  intros Hinv. apply submseteq_length, NoDup_submseteq; [apply NoDup_elements|].
  intros p Hp%elem_of_elements. apply reach_universe.
  apply (inv_reach _ _ _ _ Hinv). by apply (inv_closed_nodes _ _ _ _ Hinv).
Qed.

(** What the loop returns: the empty pair, or a path that ends at the goal,
    meets it nowhere else, and comes with the timeline made from it. *)
Lemma search_loop_result fuel s hist path costs :
  search_inv a start e s →
  astar.result (astar.search_loop fuel a e s hist) = Some (path, costs) →
  (path = [] ∧ costs = [])
  ∨ (∃ front, path = front ++ [e] ∧ (e ∉ front)
       ∧ costs = astar.generate_path_costs path e ∧ astar.reach a start e
       ∧ (astar.walkable a start = true → astar.open_path a start e path = true)
       ∧ NoDup path).
Proof.
  revert s hist. induction fuel as [|k IH]; intros s hist Hinv; [done|]. rewrite search_loop_S.
  destruct (heapq.heappop _ _) as [[current open']|] eqn:Hpop.
  - case_bool_decide as Hcur.
    + subst current.
      assert (Hin : e ∈ astar.open_list s).
      { apply heappop_perm in Hpop. rewrite Hpop. left. }
      pose proof (inv_open_nodes _ _ _ _ Hinv _ Hin) as Hsome.
      destruct (rebuild_path a start e s Hinv e Hsome)
        as (chain & Hr & Hchain & Hc & Hall & Hl & Hnd).
      rewrite Hr. simpl. intros [= <- <-]. right.
      exists (reverse chain). split; [by rewrite reverse_cons|].
      split; [|split; [done|split; [|split; [|by rewrite reverse_Permutation]]]].
      * rewrite elem_of_reverse. intros Hcl%Hchain.
        by apply (inv_end _ _ _ _ Hinv).
      * by apply (inv_reach _ _ _ _ Hinv).
      * intros Hs. apply open_path_spec. split; [by rewrite head_reverse|].
        split; [by rewrite last_reverse|]. split; [|done].
        intros x Hx. rewrite elem_of_reverse in Hx. by destruct (Hall x Hx) as [->|?].
    + destruct (expand_inv a start e s current open' Hinv Hpop Hcur) as (Hinv' & _ & _ & [n Hn]).
      rewrite Hn. by apply IH.
  - intros [= <- <-]. by left.
Qed.

(** The loop gives up only when the goal cannot be entered from the start. *)
Lemma search_loop_complete fuel s hist costs :
  search_inv a start e s → frontier_inv a start s →
  astar.result (astar.search_loop fuel a e s hist) = Some ([], costs) →
  ¬ astar.reach a start e.
Proof.
  revert s hist. induction fuel as [|k IH]; intros s hist Hinv Hfi; [done|].
  rewrite search_loop_S.
  destruct (heapq.heappop _ _) as [[current open']|] eqn:Hpop.
  - case_bool_decide as Hcur.
    + subst current.
      assert (Hin : e ∈ astar.open_list s).
      { apply heappop_perm in Hpop. rewrite Hpop. left. }
      pose proof (inv_open_nodes _ _ _ _ Hinv _ Hin) as Hsome.
      destruct (rebuild_path a start e s Hinv e Hsome) as (chain & Hr & _).
      rewrite Hr. simpl. rewrite reverse_cons. intros [= Hnil _].
      by destruct (reverse chain).
    + destruct (expand_inv a start e s current open' Hinv Hpop Hcur) as (Hinv' & _ & _ & [n Hn]).
      rewrite Hn. apply IH; [done|]. by apply expand_frontier.
  - intros _ Hreach. apply heappop_None in Hpop.
    assert (Hall : ∀ p, astar.reach a start p → p ∈ astar.closed_set s).
    { intros p Hp. induction Hp as [|p q _ IHp Hq].
      - destruct (fi_known _ _ _ Hfi start (fi_start _ _ _ Hfi)) as [?|Ho]; [done|].
        rewrite Hpop in Ho. by apply elem_of_nil in Ho.
      - destruct (fi_known _ _ _ Hfi q (fi_expanded _ _ _ Hfi p q IHp Hq)) as [?|Ho]; [done|].
        rewrite Hpop in Ho. by apply elem_of_nil in Ho. }
    by apply (inv_end _ _ _ _ Hinv), Hall.
Qed.

(** The loop finishes within its fuel. *)
Lemma search_loop_total fuel s hist :
  search_inv a start e s →
  (length (universe a start) - size (astar.closed_set s) < fuel)%nat →
  is_Some (astar.result (astar.search_loop fuel a e s hist)).
Proof.
  revert s hist. induction fuel as [|k IH]; intros s hist Hinv Hfuel; [simpl; lia|]. rewrite search_loop_S.
  destruct (heapq.heappop _ _) as [[current open']|] eqn:Hpop; [|simpl; eauto].
  case_bool_decide as Hcur.
  - subst current.
    assert (Hin : e ∈ astar.open_list s).
    { apply heappop_perm in Hpop. rewrite Hpop. left. }
    pose proof (inv_open_nodes _ _ _ _ Hinv _ Hin) as Hsome.
    destruct (rebuild_path a start e s Hinv e Hsome) as (chain & Hr & _).
    rewrite Hr. simpl. eauto.
  - destruct (expand_inv a start e s current open' Hinv Hpop Hcur)
      as (Hinv' & Hcl & Hnin & [n Hn]).
    rewrite Hn. apply IH; [done|].
    pose proof (closed_bound _ Hinv') as Hb.
    rewrite Hcl in Hb |- *. rewrite size_union in Hb |- * by set_solver.
    rewrite size_singleton in Hb |- *. lia.
Qed.

(** The instance's history grows by one record per closed cell. *)
Lemma search_loop_history fuel s hist :
  search_inv a start e s →
  ∃ recs, astar.history (astar.search_loop fuel a e s hist) = hist ++ recs
    ∧ size (astar.closed_set (astar.final (astar.search_loop fuel a e s hist)))
      = (size (astar.closed_set s) + length recs)%nat
    ∧ Forall (λ c, astar.cost_status c = "evaluating") recs
    ∧ e ∉ astar.closed_set (astar.final (astar.search_loop fuel a e s hist)).
Proof.
  assert (Hnil : ∀ (s : astar.search) hist, e ∉ astar.closed_set s →
    ∃ recs : list astar.CostRecord,
    hist = hist ++ recs
    ∧ size (astar.closed_set s) = (size (astar.closed_set s) + length recs)%nat
    ∧ Forall (λ c, astar.cost_status c = "evaluating") recs
    ∧ e ∉ astar.closed_set s).
  { intros s0 h0 He. exists []. rewrite app_nil_r. simpl. split; [done|]. split; [lia|done]. }
  revert s hist. induction fuel as [|k IH]; intros s hist Hinv;
    pose proof (inv_end _ _ _ _ Hinv) as Hend; [by apply Hnil|]. rewrite search_loop_S.
  destruct (heapq.heappop _ _) as [[current open']|] eqn:Hpop; [|by apply Hnil].
  case_bool_decide as Hcur.
  - destruct (astar.rebuild _ _ _ _);
      by apply (Hnil (astar.mkSearch open' (astar.closed_set s) (astar.nodes s))).
  - destruct (expand_inv a start e s current open' Hinv Hpop Hcur)
      as (Hinv' & Hcl & Hnin & [n Hn]).
    rewrite Hn.
    destruct (IH _ (astar.record_step hist n) Hinv') as (recs & Hh & Hsz & Hst & He).
    exists (astar.mkCost (astar.g n) (astar.h n) (astar.f n) (astar.status n) :: recs).
    split; [|split; [|split; [|done]]].
    + rewrite Hh. unfold astar.record_step. by rewrite <- app_assoc.
    + rewrite Hsz, Hcl. rewrite size_union by set_solver. rewrite size_singleton. simpl. lia.
    + constructor; [|done]. simpl. by apply (inv_status _ _ _ _ Hinv _ _ Hn).
Qed.
End loop_facts.

(** The returned pair and the final local state depend neither on the
    history nor on anything of the instance but the grid and its bounds. *)
Lemma search_loop_frame fuel m hh ww hist1 hist2 e s h1 h2 :
  astar.result (astar.search_loop fuel (astar.mkAStar m hh ww hist1) e s h1)
  = astar.result (astar.search_loop fuel (astar.mkAStar m hh ww hist2) e s h2)
  ∧ astar.final (astar.search_loop fuel (astar.mkAStar m hh ww hist1) e s h1)
  = astar.final (astar.search_loop fuel (astar.mkAStar m hh ww hist2) e s h2).
Proof.
  revert s h1 h2. induction fuel as [|k IH]; intros s h1 h2; [done|]. rewrite !search_loop_S.
  destruct (heapq.heappop _ _) as [[current open']|]; [|done].
  case_bool_decide.
  - destruct (astar.rebuild _ _ _ _); done.
  - destruct (astar.nodes s !! current); [|done]. apply IH.
Qed.

(** * Properties of [find_path] *)

(** A cell entered from an OPEN start is joined to it by a path of OPEN cells. *)
Lemma reach_open_path a start p :
  astar.walkable a start = true → astar.reach a start p →
  ∃ path, astar.open_path a start p path = true.
Proof.
  intros Hs Hr. induction Hr as [|p q Hr [path IH] Hq].
  - exists [start]. apply open_path_spec. repeat split; try done.
    by intros p ->%list_elem_of_singleton.
  - apply open_path_spec in IH as (Hh & Hl & Hw & Hc).
    apply get_neighbors_spec in Hq as [Hwq Hadj].
    exists (path ++ [q]). apply open_path_spec. repeat split.
    + destruct path; [done|]. done.
    + apply last_snoc.
    + intros x [Hx| ->%list_elem_of_singleton]%elem_of_app; auto.
    + by apply (chained_snoc _ p).
Qed.

(** Along a path of OPEN cells the search can enter every cell of it. *)
Lemma open_path_reach a s e path :
  astar.open_path a s e path = true → astar.reach a s e.
Proof.
  revert e. induction path as [|q path IH] using rev_ind; intros e Hp.
  - by apply open_path_spec in Hp as [? _].
  - apply open_path_spec in Hp as (Hh & Hl & Hw & Hc).
    rewrite last_snoc in Hl. injection Hl as ->.
    destruct (decide (path = [])) as [->|Hne].
    + injection Hh as ->. constructor.
    + destruct (exists_last Hne) as (path' & p & ->).
      apply (astar.reach_step _ _ p).
      * apply IH. apply open_path_spec. split; [by destruct path'|].
        split; [apply last_snoc|]. split.
        -- intros x Hx. apply Hw. apply elem_of_app. by left.
        -- by apply chained_app_inv in Hc as [? _].
      * apply get_neighbors_spec. split; [apply Hw; apply elem_of_app; right; left|].
        rewrite <- app_assoc in Hc. by apply chained_middle in Hc.
Qed.

Lemma find_path_total a start e :
  is_Some (astar.find_path a start e).1.
Proof.
  unfold astar.find_path, astar.find_path_run. simpl.
  apply (search_loop_total a start e); [apply initial_inv|].
  pose proof (universe_length a start). lia.
Qed.

(** What the search does achieve: when a path of OPEN cells joins the start
    to the end, [find_path] returns a path, and the path it returns begins at
    the start, ends at the end and moves between 4-adjacent OPEN cells.  Its
    length is another matter. *)
Lemma find_path_finds_open_path a start e path0 :
  astar.open_path a start e path0 = true →
  ∃ path costs, (astar.find_path a start e).1 = Some (path, costs)
    ∧ astar.open_path a start e path = true.
Proof.
  intros Hp0.
  assert (Hs : astar.walkable a start = true).
  { apply open_path_spec in Hp0 as (Hh & _ & Hw & _). apply Hw.
    destruct path0; [done|]. injection Hh as ->. left. }
  destruct (find_path_total a start e) as [[path costs] Hr].
  exists path, costs. split; [done|].
  unfold astar.find_path, astar.find_path_run in Hr. simpl in Hr.
  pose proof Hr as Hr'.
  apply (search_loop_result a start e) in Hr
    as [[-> ->]|(front & _ & _ & _ & _ & Hvalid & _)]; [|by apply Hvalid|apply initial_inv].
  exfalso. apply (search_loop_complete a start e) in Hr';
    [|apply initial_inv|apply initial_frontier].
  apply Hr'. by apply (open_path_reach _ _ _ path0).
Qed.

(** On a grid whose OPEN cells form a tree, as the generated mazes are,
    the returned path is the one simple path between two OPEN cells. *)
Lemma find_path_on_tree m start e :
  is_tree m → is_open m start → is_open m e →
  ∃ path costs, (astar.find_path (astar.__init__ m) start e).1 = Some (path, costs)
    ∧ simple_path m start e path
    ∧ ∀ l, simple_path m start e l → l = path.
Proof.
  intros Htree Hs He. destruct (Htree start e Hs He) as (l0 & Hl0 & Huniq).
  assert (Hw : ∀ x, astar.walkable (astar.__init__ m) x = open_cell m x) by done.
  assert (Hp0 : astar.open_path (astar.__init__ m) start e l0 = true).
  { destruct Hl0 as (Hh & Hl & _ & Hall & Hc). apply open_path_spec.
    repeat split; try done. intros x Hx. rewrite Hw.
    by apply (proj1 (Forall_forall _ _) Hall). }
  destruct (find_path_total (astar.__init__ m) start e) as [[path costs] Hr].
  exists path, costs. split; [done|].
  unfold astar.find_path, astar.find_path_run in Hr. simpl in Hr.
  pose proof Hr as Hr'.
  apply (search_loop_result (astar.__init__ m) start e) in Hr
    as [[-> ->]|(front & _ & _ & _ & _ & Hvalid & Hnd)]; [| |apply initial_inv].
  { exfalso. apply (search_loop_complete (astar.__init__ m) start e) in Hr';
      [|apply initial_inv|apply initial_frontier].
    apply Hr'. by apply (open_path_reach _ _ _ l0). }
  assert (Hsimple : simple_path m start e path).
  { apply open_path_spec in Hvalid as (Hh & Hl & Hall & Hc); [|by rewrite Hw].
    repeat split; try done. apply Forall_forall. intros x Hx.
    unfold is_open. rewrite <- Hw. by apply Hall. }
  split; [done|]. intros l Hl. rewrite (Huniq l Hl). symmetry. by apply Huniq.
Qed.

(** C1 (evaluation at the failing input).  On [detour_grid], from (1,5) to
    (0,0), [find_path] returns a path of 11 cells although a path of OPEN
    cells with 9 cells joins the two: the search is not optimal. *)
Theorem find_path_not_shortest :
  fst <$> (astar.find_path (astar.__init__ detour_grid) (1, 5) (0, 0)).1
  = Some [(1, 5); (0, 5); (0, 4); (0, 3); (0, 2); (1, 2); (2, 2); (2, 1); (2, 0);
          (1, 0); (0, 0)]
  ∧ astar.open_path (astar.__init__ detour_grid) (1, 5) (0, 0)
      [(1, 5); (2, 5); (2, 4); (2, 3); (2, 2); (2, 1); (2, 0); (1, 0); (0, 0)] = true.
Proof. split; vm_compute; reflexivity. Qed.

(** C2 (as stated, refuted).  With a WALL as start no path of OPEN cells
    leaves it, and yet the search returns a path: the start is never tested. *)
Lemma find_path_wall_start :
  (∀ path, astar.open_path (astar.__init__ [[1; 0]]) (0, 0) (0, 1) path = false)
  ∧ (astar.find_path (astar.__init__ [[1; 0]]) (0, 0) (0, 1)).1 ≠ Some ([], []).
Proof.
  split; [|vm_compute; discriminate].
  intros path. apply not_true_iff_false. intros (Hh & _ & Hw & _)%open_path_spec.
  assert (Hin : (0, 0) ∈ path) by (destruct path; [done|]; injection Hh as ->; left).
  apply Hw in Hin. vm_compute in Hin. discriminate.
Qed.

(** C2 (amended).  When the start is an OPEN cell of the grid and no
    4-connected path of OPEN cells joins it to the end, [find_path] returns
    the empty path and the empty timeline. *)
Theorem find_path_unreachable a start e :
  astar.walkable a start = true →
  (∀ path, astar.open_path a start e path = false) →
  (astar.find_path a start e).1 = Some ([], []).
Proof.
  intros Hs Hno.
  destruct (find_path_total a start e) as [[path costs] Hr]. rewrite Hr.
  unfold astar.find_path, astar.find_path_run in Hr. simpl in Hr.
  apply (search_loop_result a start e) in Hr as [[-> ->]|(front & _ & _ & _ & Hreach & _)];
    [done| |apply initial_inv].
  destruct (reach_open_path a start e Hs Hreach) as [p Hp].
  rewrite Hno in Hp. discriminate.
Qed.

Lemma find_path_unreachable_witness :
  astar.walkable (astar.__init__ [[0; 1; 0]]) (0, 0) = true
  ∧ (∀ path, astar.open_path (astar.__init__ [[0; 1; 0]]) (0, 0) (0, 2) path = false)
  ∧ (astar.find_path (astar.__init__ [[0; 1; 0]]) (0, 0) (0, 2)).1 = Some ([], []).
Proof.
  assert (Hno : ∀ path,
    astar.open_path (astar.__init__ [[0; 1; 0]]) (0, 0) (0, 2) path = false).
  { intros path. apply not_true_iff_false. intros (Hh & Hl & Hw & Hc)%open_path_spec.
    destruct path as [|p [|q path]]; [done| |].
    - injection Hh as ->. discriminate.
    - injection Hh as ->. simpl in Hc. apply andb_true_iff in Hc as [Hadj _].
      assert (Hq : q ∈ astar.get_neighbors (astar.__init__ [[0; 1; 0]]) (0, 0)).
      { apply get_neighbors_spec. split; [|done]. apply Hw. right. left. }
      vm_compute in Hq. by apply elem_of_nil in Hq. }
  split; [reflexivity|]. split; [exact Hno|].
  apply find_path_unreachable; [reflexivity|exact Hno].
Defined.

(** C3.  A returned non-empty path comes with a timeline of the same
    length whose entry [i] has [g = i], [h] the Manhattan distance from
    [path[i]] to the end, [f = g + h], and the tag reached exactly at the
    last index, on_path elsewhere. *)
Theorem path_costs_consistent a start e path costs :
  (astar.find_path a start e).1 = Some (path, costs) →
  path ≠ [] →
  length costs = length path
  ∧ ∀ i p, path !! i = Some p →
      ∃ c, costs !! i = Some c
        ∧ astar.cost_g c = Z.of_nat i
        ∧ astar.cost_h c = astar.heuristic p e
        ∧ astar.cost_f c = astar.cost_g c + astar.cost_h c
        ∧ (astar.cost_status c = "reached" ↔ i = (length path - 1)%nat)
        ∧ (i ≠ (length path - 1)%nat → astar.cost_status c = "on_path").
Proof.
  intros Hr Hne.
  unfold astar.find_path, astar.find_path_run in Hr. simpl in Hr.
  apply (search_loop_result a start e) in Hr
    as [[-> ->]|(front & Hpath & Hfront & -> & _)]; [done| |apply initial_inv].
  unfold astar.generate_path_costs. split; [apply length_imap|].
  intros i p Hi. rewrite list_lookup_imap, Hi. simpl. eexists. split; [done|]. simpl.
  assert (Hlen : length path = S (length front)) by (rewrite Hpath, length_app; simpl; lia).
  assert (Hiff : p = e ↔ i = length front).
  { rewrite Hpath in Hi. split.
    - intros ->. destruct (decide (i < length front)%nat) as [Hlt|Hge].
      + rewrite lookup_app_l in Hi by done. by apply list_elem_of_lookup_2 in Hi.
      + apply lookup_lt_Some in Hi. rewrite length_app in Hi. simpl in Hi. lia.
    - intros ->. rewrite list_lookup_middle in Hi by done. by injection Hi. }
  repeat split; try done.
  - case_bool_decide as Hp; [|done]. intros _. apply Hiff in Hp. lia.
  - intros ->. rewrite bool_decide_eq_true_2; [done|]. apply Hiff. lia.
  - intros Hn. rewrite bool_decide_eq_false_2; [done|]. intros Hp%Hiff. lia.
Qed.

Lemma path_costs_consistent_witness :
  let a := astar.__init__ room_grid in
  let path := [(1, 0); (1, 1); (1, 2); (1, 3); (1, 4)] in
  let costs := [astar.mkCost 0 4 4 "on_path"; astar.mkCost 1 3 4 "on_path";
                astar.mkCost 2 2 4 "on_path"; astar.mkCost 3 1 4 "on_path";
                astar.mkCost 4 0 4 "reached"] in
  (astar.find_path a (1, 0) (1, 4)).1 = Some (path, costs)
  ∧ path ≠ []
  ∧ length costs = length path
  ∧ ∀ i p, path !! i = Some p →
      ∃ c, costs !! i = Some c
        ∧ astar.cost_g c = Z.of_nat i
        ∧ astar.cost_h c = astar.heuristic p (1, 4)
        ∧ astar.cost_f c = astar.cost_g c + astar.cost_h c
        ∧ (astar.cost_status c = "reached" ↔ i = (length path - 1)%nat)
        ∧ (i ≠ (length path - 1)%nat → astar.cost_status c = "on_path").
Proof.
  intros a path costs.
  assert (Hr : (astar.find_path a (1, 0) (1, 4)).1 = Some (path, costs))
    by (vm_compute; reflexivity).
  assert (Hne : path ≠ []) by discriminate.
  split; [exact Hr|]. split; [exact Hne|].
  exact (path_costs_consistent a (1, 0) (1, 4) path costs Hr Hne).
Defined.

(** C9.  A call leaves the grid and the stored bounds as they are; the
    history is extended by one record per closed cell, the expanded cells
    other than the goal, and a second call on the same instance extends it
    further. *)
Theorem find_path_frame a start e :
  astar.maze (astar.find_path a start e).2 = astar.maze a
  ∧ astar.height (astar.find_path a start e).2 = astar.height a
  ∧ astar.width (astar.find_path a start e).2 = astar.width a
  ∧ ∃ recs,
      astar.cost_history (astar.find_path a start e).2 = astar.cost_history a ++ recs
      ∧ length recs = size (astar.closed_set (astar.final (astar.find_path_run a start e)))
      ∧ (e ∉ astar.closed_set (astar.final (astar.find_path_run a start e)))
      ∧ Forall (λ c, astar.cost_status c = "evaluating") recs
      ∧ ∀ start2 e2, ∃ recs2,
          astar.cost_history (astar.find_path (astar.find_path a start e).2 start2 e2).2
          = astar.cost_history a ++ recs ++ recs2
          ∧ length recs2
            = size (astar.closed_set (astar.final
                (astar.find_path_run (astar.find_path a start e).2 start2 e2))).
Proof.
  destruct (search_loop_history a start e (astar.loop_fuel a) (astar.initial start e)
              (astar.cost_history a) (initial_inv a start e)) as (recs & Hh & Hsz & Hst & He).
  change (astar.closed_set (astar.initial start e)) with (∅ : gset pos) in Hsz.
  rewrite size_empty in Hsz.
  fold (astar.find_path_run a start e) in Hh, Hsz, He.
  assert (Ha : astar.cost_history (astar.find_path a start e).2
               = astar.cost_history a ++ recs) by exact Hh.
  split; [done|]. split; [done|]. split; [done|].
  exists recs. split; [exact Ha|]. split; [lia|]. split; [exact He|]. split; [exact Hst|].
  intros start2 e2.
  set (a' := (astar.find_path a start e).2) in *.
  destruct (search_loop_history a' start2 e2 (astar.loop_fuel a') (astar.initial start2 e2)
              (astar.cost_history a') (initial_inv a' start2 e2)) as (recs2 & Hh2 & Hsz2 & _).
  change (astar.closed_set (astar.initial start2 e2)) with (∅ : gset pos) in Hsz2.
  rewrite size_empty in Hsz2.
  fold (astar.find_path_run a' start2 e2) in Hh2, Hsz2.
  exists recs2. split; [|lia].
  change (astar.cost_history (astar.find_path a' start2 e2).2)
    with (astar.history (astar.find_path_run a' start2 e2)).
  rewrite Hh2, Ha. by rewrite <- app_assoc.
Qed.

(** What a call returns does not depend on the history the instance has
    gathered, the one thing a call leaves behind: two instances on the same
    grid and bounds return the same pair, and so does a second call on the
    same instance. *)
Lemma find_path_history_independent m hh ww hist1 hist2 start e :
  (astar.find_path (astar.mkAStar m hh ww hist1) start e).1
  = (astar.find_path (astar.mkAStar m hh ww hist2) start e).1
  ∧ (astar.find_path (astar.find_path (astar.mkAStar m hh ww hist1) start e).2 start e).1
    = (astar.find_path (astar.mkAStar m hh ww hist1) start e).1.
Proof.
  split.
  - unfold astar.find_path, astar.find_path_run. simpl. apply search_loop_frame.
  - unfold astar.find_path at 2. simpl.
    unfold astar.find_path, astar.find_path_run. simpl. apply search_loop_frame.
Qed.

(** * The carving loop *)

Lemma all_cells_spec h w x : x ∈ all_cells h w ↔ 0 ≤ x.1 < h ∧ 0 ≤ x.2 < w.
Proof.
  unfold all_cells. rewrite list_elem_of_bind. split.
  - intros (r & (c & ->%list_elem_of_singleton & Hc%elem_of_seqZ)%list_elem_of_bind
              & Hr%elem_of_seqZ). simpl. lia.
  - intros [Hr Hc]. exists x.1. split; [|apply elem_of_seqZ; lia].
    apply list_elem_of_bind. exists x.2. split; [|apply elem_of_seqZ; lia].
    destruct x. by apply list_elem_of_singleton.
Qed.

Lemma all_cells_length h w : length (all_cells h w) = (Z.to_nat h * Z.to_nat w)%nat.
Proof.
  unfold all_cells. rewrite (length_bind_const _ _ (Z.to_nat w)).
  - by rewrite length_seqZ.
  - intros r. rewrite (length_bind_const _ _ 1%nat); [|done]. rewrite length_seqZ. lia.
Qed.

Lemma filter_length_le {A} (P Q : A → Prop) `{!∀ x, Decision (P x)} `{!∀ x, Decision (Q x)}
    (l : list A) :
  (∀ y, y ∈ l → Q y → P y) → (length (filter Q l) ≤ length (filter P l))%nat.
Proof.
  induction l as [|y l IH]; intros Hsub; [done|].
  rewrite !filter_cons.
  assert (IH' : (length (filter Q l) ≤ length (filter P l))%nat).
  { apply IH. intros z Hz. apply Hsub. by right. }
  destruct (decide (Q y)) as [HQ|HQ].
  - rewrite decide_True by (apply Hsub; [left|done]). simpl. lia.
  - destruct (decide (P y)); simpl; lia.
Qed.

Lemma filter_length_lt {A} (P Q : A → Prop) `{!∀ x, Decision (P x)} `{!∀ x, Decision (Q x)}
    (l : list A) x :
  (∀ y, y ∈ l → Q y → P y) → x ∈ l → P x → ¬ Q x →
  (length (filter Q l) < length (filter P l))%nat.
Proof.
  induction l as [|y l IH]; intros Hsub Hx HP HQ; [by apply elem_of_nil in Hx|].
  rewrite !filter_cons.
  assert (Hle : (length (filter Q l) ≤ length (filter P l))%nat).
  { apply filter_length_le. intros z Hz. apply Hsub. by right. }
  apply elem_of_cons in Hx as [Hx|Hx].
  - subst y. rewrite (decide_True (P:=P x)) by done.
    rewrite (decide_False (P:=Q x)) by done. simpl. lia.
  - assert (IH' : (length (filter Q l) < length (filter P l))%nat).
    { apply IH; try done. intros z Hz. apply Hsub. by right. }
    destruct (decide (Q y)) as [HQy|HQy].
    + rewrite decide_True by (apply Hsub; [left|done]). simpl. lia.
    + destruct (decide (P y)); simpl; lia.
Qed.

Lemma choice_elem {A} (r : nat) (l : list A) :
  l ≠ [] → ∃ x, maze.choice r l = Some x ∧ x ∈ l.
Proof.
  intros Hl. unfold maze.choice.
  destruct (lookup_lt_is_Some_2 l (r mod length l)%nat) as [x Hx].
  - apply Nat.mod_upper_bound. by destruct l.
  - exists x. split; [done|]. by apply list_elem_of_lookup_2 in Hx.
Qed.

Lemma randint_range r lo hi :
  lo ≤ hi → ∃ y, maze.randint r lo hi = Some y ∧ lo ≤ y ≤ hi.
Proof.
  intros H. unfold maze.randint. destruct (hi <? lo) eqn:E; [lia|].
  eexists. split; [done|]. zlia.
Qed.

(** ** A fresh maze *)

Lemma np_ones_ok h w : 0 ≤ h → 0 ≤ w → grid_ok h w (np_ones h w).
Proof.
  intros Hh Hw. unfold np_ones. split.
  - rewrite length_replicate. lia.
  - apply Forall_replicate. rewrite length_replicate. lia.
  - apply Forall_replicate, Forall_replicate. by right.
Qed.

Lemma np_ones_getitem h w r c v : getitem (np_ones h w) r c = Some v → v = 1.
Proof.
  unfold getitem, np_ones. intros Hg.
  destruct (np_index _ r) as [i|]; [|done]. simpl in Hg.
  destruct (np_index _ c) as [j|]; [|done]. simpl in Hg.
  destruct (replicate _ _ !! i) as [row|] eqn:Hrow; [|done]. simpl in Hg.
  apply lookup_replicate in Hrow as [-> _].
  by apply lookup_replicate in Hg as [-> _].
Qed.

Lemma np_ones_closed h w p : ¬ is_open (np_ones h w) p.
Proof.
  unfold is_open, open_cell. rewrite !andb_true_iff, bool_decide_eq_true.
  intros (_ & Hg). by apply np_ones_getitem in Hg.
Qed.

Lemma init_spec width height m :
  maze.__init__ width height = maze.Return m →
  maze.width m = (if width mod 2 =? 1 then width else width + 1)
  ∧ maze.height m = (if height mod 2 =? 1 then height else height + 1)
  ∧ maze.maze m = np_ones (maze.height m) (maze.width m)
  ∧ maze.start m = None ∧ maze.end_ m = None
  ∧ 0 ≤ maze.width m ∧ 0 ≤ maze.height m.
Proof.
  unfold maze.__init__.
  destruct (_ || _) eqn:E; [done|]. intros [= <-]. simpl.
  apply orb_false_iff in E as [E1 E2]. repeat split; lia.
Qed.

Lemma init_odd width height m :
  maze.__init__ width height = maze.Return m →
  maze.width m mod 2 = 1 ∧ maze.height m mod 2 = 1.
Proof.
  intros (-> & -> & _)%init_spec.
  destruct (width mod 2 =? 1) eqn:Ew; destruct (height mod 2 =? 1) eqn:Eh; zlia.
Qed.

(** * One step of the carving loop *)

Lemma is_open_eq a p q : is_open a p → p = q → is_open a q.
Proof. by intros H <-. Qed.

(** Opening a WALL cell that touches exactly one OPEN cell keeps the tree. *)
Lemma open_leaf h w a u v :
  0 < h → grid_ok h w a → is_tree a →
  0 ≤ v.1 < h → 0 ≤ v.2 < w →
  ¬ is_open a v → is_open a u → adjacent u v = true →
  (∀ x, is_open a x → adjacent x v = true → x = u) →
  ∃ a', setitem a v.1 v.2 0 = Some a' ∧ grid_ok h w a'
    ∧ (∀ x, is_open a' x ↔ x = v ∨ is_open a x)
    ∧ (∀ x, getitem a' x.1 x.2 = Some 1 →
            getitem a x.1 x.2 = Some 1 ∨ ¬ (0 ≤ x.1 < h ∧ 0 ≤ x.2 < w))
    ∧ is_tree a'.
Proof.
  intros Hh Hok Htree Hr Hc Hv Hu Huv Honly.
  destruct (setitem_open h w a Hh Hok v.1 v.2 Hr Hc) as (a' & Hset & Hok' & Hopen & Hwall).
  assert (Hopen' : ∀ x, is_open a' x ↔ x = v ∨ is_open a x).
  { intros x. rewrite Hopen. by destruct v. }
  exists a'. split; [done|]. split; [done|]. split; [done|]. split; [done|].
  by apply (tree_on_leaf (is_open a) (is_open a') u v).
Qed.

Section carve_step.
Variable m : maze.Maze.
Variable below : list pos.
Variables r c dr dc : Z.
Hypothesis Hinv : carve_inv m ((r, c) :: below).
Hypothesis Hd : (dr = 0 ∧ (dc = 1 ∨ dc = -1)) ∨ ((dr = 1 ∨ dr = -1) ∧ dc = 0).
Hypothesis Hnr : 0 < r + 2 * dr < maze.height m - 1.
Hypothesis Hnc : 0 < c + 2 * dc < maze.width m - 1.
Hypothesis Hwall : getitem (maze.maze m) (r + 2 * dr) (c + 2 * dc) = Some 1.

Lemma step_h : 0 < maze.height m.
Proof. destruct (ci_height _ _ Hinv). lia. Qed.

Lemma step_current :
  is_open (maze.maze m) (r, c) ∧ r mod 2 = 1 ∧ c mod 2 = 1
  ∧ 0 < r < maze.height m - 1 ∧ 0 < c < maze.width m - 1.
Proof.
  destruct (ci_stack _ _ Hinv (r, c)) as (Ho & Hr & Hc); [left|].
  destruct (ci_interior _ _ Hinv _ Ho) as (? & ? & _). done.
Qed.

Lemma step_next_closed : ¬ is_open (maze.maze m) (r + 2 * dr, c + 2 * dc).
Proof.
  intros Ho. apply (is_open_spec _ _ _ step_h (ci_grid _ _ Hinv)) in Ho as (_ & _ & Ho).
  simpl in Ho. congruence.
Qed.

Lemma step_wall_closed : ¬ is_open (maze.maze m) (r + dr, c + dc).
Proof.
  intros Ho. apply step_next_closed.
  destruct step_current as (_ & Hr & Hc & _).
  destruct Hd as [[-> Hdc]|[Hdr ->]].
  - destruct (ci_between_h _ _ Hinv _ Ho) as [H1 H2]; [simpl; zlia|]. simpl in H1, H2.
    destruct Hdc as [-> | ->]; [(apply (is_open_eq _ _ _ H2); f_equal; lia)|(apply (is_open_eq _ _ _ H1); f_equal; lia)].
  - destruct (ci_between_v _ _ Hinv _ Ho) as [H1 H2]; [simpl; zlia|]. simpl in H1, H2.
    destruct Hdr as [-> | ->]; [(apply (is_open_eq _ _ _ H2); f_equal; lia)|(apply (is_open_eq _ _ _ H1); f_equal; lia)].
Qed.

Lemma step_wall_only x :
  is_open (maze.maze m) x → adjacent x (r + dr, c + dc) = true → x = (r, c).
Proof.
  intros Ho Hadj. destruct x as [xr xc].
  destruct step_current as (_ & Hr & Hc & _).
  destruct (ci_interior _ _ Hinv _ Ho) as (_ & _ & Hpar). simpl in Hpar.
  assert (Hne : ¬ (xr = r + 2 * dr ∧ xc = c + 2 * dc)).
  { intros [-> ->]. by apply step_next_closed. }
  apply adjacent_spec in Hadj. simpl in Hadj. f_equal; zlia.
Qed.

Lemma step_next_only x :
  is_open (maze.maze m) x → adjacent x (r + 2 * dr, c + 2 * dc) = true → False.
Proof.
  intros Ho Hadj. destruct x as [xr xc]. apply step_next_closed.
  destruct step_current as (_ & Hr & Hc & _).
  apply adjacent_spec in Hadj. simpl in Hadj.
  destruct (decide (xc mod 2 = 0)) as [He|Ho2].
  - destruct (ci_between_h _ _ Hinv _ Ho He) as [H1 H2]. simpl in H1, H2.
    assert (Hx : xr = r + 2 * dr ∧ (xc = c + 2 * dc + 1 ∨ xc = c + 2 * dc - 1)) by zlia.
    destruct Hx as [-> [-> | ->]]; [(apply (is_open_eq _ _ _ H1); f_equal; lia)|(apply (is_open_eq _ _ _ H2); f_equal; lia)].
  - assert (He : xr mod 2 = 0) by zlia.
    destruct (ci_between_v _ _ Hinv _ Ho He) as [H1 H2]. simpl in H1, H2.
    assert (Hx : xc = c + 2 * dc ∧ (xr = r + 2 * dr + 1 ∨ xr = r + 2 * dr - 1)) by zlia.
    destruct Hx as [-> [-> | ->]]; [(apply (is_open_eq _ _ _ H1); f_equal; lia)|(apply (is_open_eq _ _ _ H2); f_equal; lia)].
Qed.

(** The two writes of a push succeed and keep the invariant; one WALL of
    the grid at least is gone. *)
Lemma step_push :
  ∃ a1 a2,
    setitem (maze.maze m) (r + dr) (c + dc) 0 = Some a1
    ∧ setitem a1 (r + 2 * dr) (c + 2 * dc) 0 = Some a2
    ∧ carve_inv (maze.set_maze m a2) ((r + 2 * dr, c + 2 * dc) :: (r, c) :: below)
    ∧ (walls (maze.set_maze m a2) < walls m)%nat.
Proof.
  pose proof step_h as Hh.
  destruct step_current as (Hcur & Hr & Hc & Hrr & Hcr).
  pose proof (ci_grid _ _ Hinv) as Hok.
  destruct (open_leaf _ _ (maze.maze m) (r, c) (r + dr, c + dc) Hh Hok (ci_tree _ _ Hinv))
    as (a1 & Hset1 & Hok1 & Hopen1 & Hwall1 & Htree1); simpl; try lia.
  { apply step_wall_closed. }
  { done. }
  { apply adjacent_spec. simpl. lia. }
  { apply step_wall_only. }
  destruct (open_leaf _ _ a1 (r + dr, c + dc) (r + 2 * dr, c + 2 * dc) Hh Hok1 Htree1)
    as (a2 & Hset2 & Hok2 & Hopen2 & Hwall2 & Htree2); simpl; try lia.
  { rewrite Hopen1. intros [[= ? ?]|Ho]; [lia|by apply step_next_closed]. }
  { apply Hopen1. by left. }
  { apply adjacent_spec. simpl. lia. }
  { intros x [->|Ho]%Hopen1 Hadj; [done|]. exfalso. by apply (step_next_only x). }
  exists a1, a2. split; [done|]. split; [done|].
  assert (Hopen : ∀ x, is_open a2 x ↔
            x = (r + 2 * dr, c + 2 * dc) ∨ x = (r + dr, c + dc) ∨ is_open (maze.maze m) x).
  { intros x. rewrite Hopen2, Hopen1. tauto. }
  assert (Hold : ∀ x, is_open (maze.maze m) x → is_open a2 x).
  { intros x Hx. apply Hopen. auto. }
  split.
  - split; simpl.
    + apply (ci_height _ _ Hinv).
    + apply (ci_width _ _ Hinv).
    + done.
    + intros p [->|[->|Ho]]%Hopen; simpl; [zlia|zlia|].
      apply (ci_interior _ _ Hinv _ Ho).
    + intros p [->|[->|Ho]]%Hopen He; simpl in *.
      * zlia.
      * assert (Hd' : dr = 0 ∧ (dc = 1 ∨ dc = -1)) by zlia.
        destruct Hd' as [-> [-> | ->]]; split; apply Hopen.
        -- right; right. (apply (is_open_eq _ _ _ Hcur); f_equal; lia).
        -- left. f_equal; lia.
        -- left. f_equal; lia.
        -- right; right. (apply (is_open_eq _ _ _ Hcur); f_equal; lia).
      * destruct (ci_between_h _ _ Hinv _ Ho He). split; by apply Hold.
    + intros p [->|[->|Ho]]%Hopen He; simpl in *.
      * zlia.
      * assert (Hd' : (dr = 1 ∨ dr = -1) ∧ dc = 0) by zlia.
        destruct Hd' as [[-> | ->] ->]; split; apply Hopen.
        -- right; right. (apply (is_open_eq _ _ _ Hcur); f_equal; lia).
        -- left. f_equal; lia.
        -- left. f_equal; lia.
        -- right; right. (apply (is_open_eq _ _ _ Hcur); f_equal; lia).
      * destruct (ci_between_v _ _ Hinv _ Ho He). split; by apply Hold.
    + intros p [->|Hp]%elem_of_cons.
      * split; [apply Hopen; by left|]. simpl. zlia.
      * destruct (ci_stack _ _ Hinv _ Hp) as (? & ? & ?). split; [by apply Hold|done].
    + apply Hold, (ci_seed _ _ Hinv).
    + intros p [->|[->|Ho]]%Hopen H1 H2; simpl in *.
      * left. left.
      * zlia.
      * destruct (ci_done _ _ Hinv _ Ho H1 H2) as [Hin|Hall].
        -- left. by right.
        -- right. intros d Hdd Hr1 Hr2. by apply Hold, Hall.
    + done.
  - unfold walls. simpl.
    apply (filter_length_lt _ _ _ (r + 2 * dr, c + 2 * dc)).
    + intros y Hy%all_cells_spec Hw2.
      destruct (Hwall2 y Hw2) as [Hw1|?]; [|done].
      destruct (Hwall1 y Hw1) as [?|?]; done.
    + apply all_cells_spec. simpl. lia.
    + done.
    + intros Hw2. assert (Ho : is_open a2 (r + 2 * dr, c + 2 * dc)) by (apply Hopen; by left).
      apply (is_open_spec _ _ _ Hh Hok2) in Ho as (_ & _ & Ho). simpl in *. congruence.
Qed.
End carve_step.

(** * The carving loop as a whole *)

Lemma unvisited_spec m r c n :
  n ∈ maze.unvisited m (r, c) →
  ∃ dr dc, ((dr = 0 ∧ (dc = 1 ∨ dc = -1)) ∨ ((dr = 1 ∨ dr = -1) ∧ dc = 0))
    ∧ n = (r + 2 * dr, c + 2 * dc)
    ∧ 0 < r + 2 * dr < maze.height m - 1 ∧ 0 < c + 2 * dc < maze.width m - 1
    ∧ getitem (maze.maze m) (r + 2 * dr) (c + 2 * dc) = Some 1
    ∧ (r + n.1) / 2 = r + dr ∧ (c + n.2) / 2 = c + dc.
Proof.
  unfold maze.unvisited. rewrite list_elem_of_filter.
  intros [(Hr & Hc & Hw) Hin]. simpl in Hin.
  rewrite !elem_of_cons, elem_of_nil in Hin.
  destruct Hin as [->|[->|[->|[->|[]]]]]; simpl in *.
  - exists 0, 1. replace (r + 2 * 0) with (r + 0) by lia.
    replace (c + 2 * 1) with (c + 2) by lia. repeat split; (done || zlia).
  - exists 1, 0. replace (r + 2 * 1) with (r + 2) by lia.
    replace (c + 2 * 0) with (c + 0) by lia. repeat split; (done || zlia).
  - exists 0, (-1). replace (r + 2 * 0) with (r + 0) by lia.
    replace (c + 2 * -1) with (c + -2) by lia. repeat split; (done || zlia).
  - exists (-1), 0. replace (r + 2 * -1) with (r + -2) by lia.
    replace (c + 2 * 0) with (c + 0) by lia. repeat split; (done || zlia).
Qed.

(** A cell on top of the stack with no candidate left can be popped. *)
Lemma carve_pop m current below :
  carve_inv m (current :: below) → maze.unvisited m current = [] →
  carve_inv m below.
Proof.
  intros Hinv Hnil. split.
  - exact (ci_height _ _ Hinv).
  - exact (ci_width _ _ Hinv).
  - exact (ci_grid _ _ Hinv).
  - exact (ci_interior _ _ Hinv).
  - exact (ci_between_h _ _ Hinv).
  - exact (ci_between_v _ _ Hinv).
  - intros p Hp. apply (ci_stack _ _ Hinv). by right.
  - exact (ci_seed _ _ Hinv).
  - intros p Ho H1 H2.
    destruct (ci_done _ _ Hinv p Ho H1 H2) as [[->|Hin]%elem_of_cons|Hall]; auto.
    right. intros d Hd Hr Hc.
    assert (Hh : 0 < maze.height m) by (destruct (ci_height _ _ Hinv); lia).
    apply (not_wall_open _ _ _ Hh (ci_grid _ _ Hinv)); simpl; [lia..|].
    intros Hw.
    assert (Hin : (current.1 + d.1, current.2 + d.2) ∈ maze.unvisited m current).
    { unfold maze.unvisited. apply list_elem_of_filter. split; [done|].
      apply list_elem_of_fmap. by exists d. }
    rewrite Hnil in Hin. by apply elem_of_nil in Hin.
  - exact (ci_tree _ _ Hinv).
Qed.

(** One turn of the loop keeps the invariant; it pops the stack and leaves
    the grid alone, or it opens a cell that was a WALL and pushes it. *)
Lemma carve_step_spec rng m current below draws :
  carve_inv m (current :: below) →
  ∃ m2 stack2 draws2,
    maze.carve_step rng m current below draws = maze.Return (m2, stack2, draws2)
    ∧ carve_inv m2 stack2
    ∧ maze.height m2 = maze.height m ∧ maze.width m2 = maze.width m
    ∧ maze.start m2 = maze.start m ∧ maze.end_ m2 = maze.end_ m
    ∧ ((m2 = m ∧ stack2 = below)
       ∨ (∃ next, stack2 = next :: current :: below
            ∧ getitem (maze.maze m) next.1 next.2 = Some 1
            ∧ is_open (maze.maze m2) next
            ∧ (walls m2 < walls m)%nat)).
Proof.
  intros Hinv. unfold maze.carve_step. destruct current as [r c].
  case_bool_decide as Hunv.
  - exists m, below, draws. split; [done|]. split; [by apply (carve_pop m (r, c))|].
    repeat split; try done. by left.
  - destruct (choice_elem (rng draws) _ Hunv) as (next & -> & Hnext).
    apply unvisited_spec in Hnext
      as (dr & dc & Hd & -> & Hnr & Hnc & Hwall & Hwr & Hwc).
    simpl in Hwr, Hwc. simpl. rewrite Hwr, Hwc.
    destruct (step_push m below r c dr dc Hinv Hd Hnr Hnc Hwall)
      as (a1 & a2 & -> & Hset2 & Hinv' & Hwalls).
    simpl. rewrite Hset2. simpl.
    eexists _, _, _. split; [done|]. split; [exact Hinv'|].
    repeat split; try done. right. eexists. split; [done|]. split; [done|].
    split; [|done]. apply (ci_stack _ _ Hinv'). left.
Qed.

Lemma carve_S k rng m current below draws :
  maze.carve (S k) rng m (current :: below) draws =
  ('(m, stack, draws) ← maze.carve_step rng m current below draws;
   maze.carve k rng m stack draws).
Proof. reflexivity. Qed.

(** The loop returns once its fuel exceeds twice the number of WALL cells
    plus the height of the stack, and it leaves the stack empty. *)
Lemma carve_spec rng fuel m stack draws :
  carve_inv m stack → (2 * walls m + length stack < fuel)%nat →
  ∃ m' draws', maze.carve fuel rng m stack draws = maze.Return (m', draws')
    ∧ carve_inv m' []
    ∧ maze.height m' = maze.height m ∧ maze.width m' = maze.width m
    ∧ maze.start m' = maze.start m ∧ maze.end_ m' = maze.end_ m.
Proof.
  revert m stack draws. induction fuel as [|k IH]; intros m stack draws Hinv Hfuel; [lia|].
  destruct stack as [|current below].
  { exists m, draws. done. }
  rewrite carve_S. simpl in Hfuel.
  destruct (carve_step_spec rng m current below draws Hinv)
    as (m2 & stack2 & draws2 & -> & Hinv2 & Hh & Hw & Hs & He & Hcase).
  simpl.
  destruct (IH m2 stack2 draws2 Hinv2) as (m' & draws' & Hret & Hinv' & ? & ? & ? & ?).
  - destruct Hcase as [[-> ->]|(next & -> & _ & _ & Hlt)]; simpl; lia.
  - exists m', draws'. split; [done|]. split; [done|]. repeat split; congruence.
Qed.

Lemma np_index_nonneg n i k : np_index n i = Some k → 0 ≤ i → i < n.
Proof.
  unfold np_index. intros Hk Hi.
  destruct ((0 <=? i) && (i <? n)) eqn:E; [lia|].
  destruct ((- n <=? i) && (i <? 0)) eqn:E'; [lia|done].
Qed.

Lemma setitem_shape a r c v a' :
  setitem a r c v = Some a' → 0 ≤ r → 0 ≤ c → r < (shape a).1 ∧ c < (shape a).2.
Proof.
  unfold setitem. intros Hs Hr Hc.
  destruct (np_index _ r) as [i|] eqn:Hi; [|done]. simpl in Hs.
  destruct (np_index _ c) as [j|] eqn:Hj; [|done].
  split; eapply np_index_nonneg; eauto.
Qed.

(** [carving] returns exactly when both stored dimensions are at least 3. *)
Lemma carving_dims width height rng m r :
  maze.__init__ width height = maze.Return m →
  maze.carving rng m = maze.Return r → 3 ≤ maze.width m ∧ 3 ≤ maze.height m.
Proof.
  intros Hinit Hc. pose proof (init_odd _ _ _ Hinit) as [Hwo Hho].
  apply init_spec in Hinit as (_ & _ & Hm & _ & _ & Hw & Hh).
  unfold maze.carving in Hc.
  destruct (setitem (maze.maze m) 1 1 0) as [a0|] eqn:Hset; [|done].
  apply setitem_shape in Hset as [H1 H2]; [|lia..].
  rewrite Hm in H1, H2.
  assert (Hh2 : 1 < maze.height m).
  { unfold shape, np_ones in H1. simpl in H1. rewrite length_replicate in H1. lia. }
  rewrite (grid_ok_shape (maze.height m) (maze.width m)) in H2;
    [|lia|apply np_ones_ok; lia]. simpl in H2. zlia.
Qed.

Lemma carving_spec width height rng m :
  maze.__init__ width height = maze.Return m →
  3 ≤ maze.width m → 3 ≤ maze.height m →
  ∃ m' draws, maze.carving rng m = maze.Return (m', draws)
    ∧ carve_inv m' []
    ∧ maze.height m' = maze.height m ∧ maze.width m' = maze.width m
    ∧ maze.start m' = None ∧ maze.end_ m' = None.
Proof.
  intros Hinit Hw3 Hh3. pose proof (init_odd _ _ _ Hinit) as [Hwo Hho].
  apply init_spec in Hinit as (_ & _ & Hm & Hs & He & Hw & Hh).
  assert (Hok : grid_ok (maze.height m) (maze.width m) (maze.maze m))
    by (rewrite Hm; apply np_ones_ok; lia).
  assert (Hh0 : 0 < maze.height m) by lia.
  destruct (setitem_open _ _ (maze.maze m) Hh0 Hok 1 1)
    as (a0 & Hset & Hok0 & Hopen0 & Hwall0); [lia..|].
  assert (Hone : ∀ x, is_open a0 x ↔ x = (1, 1)).
  { intros x. rewrite Hopen0, Hm. split; [|by left].
    intros [?|Ho]; [done|]. by apply np_ones_closed in Ho. }
  assert (Hinv0 : carve_inv (maze.set_maze m a0) [(1, 1)]).
  { split; simpl.
    - done.
    - done.
    - done.
    - intros p ->%Hone. simpl. repeat split; try lia. by left.
    - intros p ->%Hone. simpl. intros Hp. change (1 mod 2) with 1 in Hp. lia.
    - intros p ->%Hone. simpl. intros Hp. change (1 mod 2) with 1 in Hp. lia.
    - intros p ->%list_elem_of_singleton. split; [by apply Hone|done].
    - by apply Hone.
    - intros p ->%Hone _ _. left. left.
    - apply (tree_on_single _ (1, 1)). intros y. apply Hone. }
  unfold maze.carving. rewrite Hset. simpl.
  destruct (carve_spec rng (maze.carve_fuel m) (maze.set_maze m a0) [(1, 1)] 0 Hinv0)
    as (m' & draws' & Hret & Hinv' & Hh' & Hw' & Hs' & He').
  - unfold maze.carve_fuel. simpl.
    assert (Hwalls : (walls (maze.set_maze m a0)
              ≤ Z.to_nat (maze.height m) * Z.to_nat (maze.width m))%nat).
    { unfold walls. simpl. rewrite <- all_cells_length. apply length_filter. }
    lia.
  - exists m', draws'. simpl in *. split; [done|]. split; [done|].
    repeat split; congruence.
Qed.

(** After the loop every lattice cell of row 1 is OPEN. *)
Lemma carved_row m j :
  carve_inv m [] → 0 ≤ j → 2 * j + 1 < maze.width m - 1 →
  is_open (maze.maze m) (1, 2 * j + 1).
Proof.
  intros Hinv Hj. pattern j. apply natlike_ind; [| |exact Hj]; clear j Hj.
  - intros _. apply (ci_seed _ _ Hinv).
  - intros j Hj IH Hlt.
    assert (Ho : is_open (maze.maze m) (1, 2 * j + 1)) by (apply IH; lia).
    destruct (ci_done _ _ Hinv _ Ho) as [Hin|Hall]; simpl; [done|zlia|by apply elem_of_nil in Hin|].
    assert (Hd : (0, 2) ∈ maze.directions) by left.
    destruct (ci_height _ _ Hinv).
    specialize (Hall _ Hd). simpl in Hall.
    eapply is_open_eq; [apply Hall; lia|]. f_equal; lia.
Qed.

(** * Start and end selection *)

Lemma reroll_spec rng m col fuel y draws y' draws' :
  0 < maze.height m → grid_ok (maze.height m) (maze.width m) (maze.maze m) →
  0 ≤ col < maze.width m → 1 ≤ y ≤ maze.height m - 2 →
  maze.reroll fuel rng m col y draws = maze.Return (y', draws') →
  1 ≤ y' ≤ maze.height m - 2 ∧ is_open (maze.maze m) (y', col).
Proof.
  intros Hh Hok Hcol. revert y draws.
  induction fuel as [|k IH]; intros y draws Hy Hr.
  - simpl in Hr. destruct (getitem_in _ _ _ Hh Hok y col) as (v & Hg & Hv); [lia..|].
    rewrite Hg in Hr. simpl in Hr. destruct Hv as [-> | ->]; simpl in Hr; [|done].
    injection Hr as <- <-. split; [done|].
    apply (is_open_spec _ _ _ Hh Hok). simpl. repeat split; (lia || done).
  - simpl in Hr. destruct (getitem_in _ _ _ Hh Hok y col) as (v & Hg & Hv); [lia..|].
    rewrite Hg in Hr. simpl in Hr. destruct Hv as [-> | ->]; simpl in Hr.
    + injection Hr as <- <-. split; [done|].
      apply (is_open_spec _ _ _ Hh Hok). simpl. repeat split; (lia || done).
    + destruct (randint_range (rng draws) 1 (maze.height m - 2)) as (y2 & Hy2 & Hr2); [lia|].
      rewrite Hy2 in Hr. simpl in Hr. by apply (IH y2 (S draws)).
Qed.

(** The two border cells are hung on the carved tree. *)
Lemma generate_start_end_spec fuel rng m draws m' :
  carve_inv m [] →
  maze.generate_start_end fuel rng m draws = maze.Return m' →
  ∃ sy ey,
    maze.start m' = Some (sy, 0) ∧ maze.end_ m' = Some (ey, maze.width m - 1)
    ∧ maze.width m' = maze.width m ∧ maze.height m' = maze.height m
    ∧ 1 ≤ sy ≤ maze.height m - 2 ∧ 1 ≤ ey ≤ maze.height m - 2
    ∧ is_open (maze.maze m) (sy, 1) ∧ is_open (maze.maze m) (ey, maze.width m - 2)
    ∧ (∀ x, is_open (maze.maze m') x ↔
            x = (ey, maze.width m - 1) ∨ x = (sy, 0) ∨ is_open (maze.maze m) x)
    ∧ is_tree (maze.maze m').
Proof.
  intros Hinv Hg.
  destruct (ci_height _ _ Hinv) as [Hh3 _]. destruct (ci_width _ _ Hinv) as [Hw3 _].
  assert (Hh : 0 < maze.height m) by lia.
  pose proof (ci_grid _ _ Hinv) as Hok.
  unfold maze.generate_start_end in Hg.
  destruct (randint_range (rng draws) 1 (maze.height m - 2)) as (sy0 & Hs0 & Hsy0); [lia|].
  rewrite Hs0 in Hg. simpl in Hg.
  destruct (maze.reroll fuel rng m 1 sy0 (S draws)) as [[sy d1]| |] eqn:Hr1; [|done..].
  simpl in Hg.
  apply reroll_spec in Hr1 as [Hsy Hsopen]; [|done|done|lia|done].
  destruct (randint_range (rng d1) 1 (maze.height m - 2)) as (ey0 & He0 & Hey0); [lia|].
  rewrite He0 in Hg. simpl in Hg.
  destruct (maze.reroll fuel rng m (maze.width m - 2) ey0 (S d1)) as [[ey d2]| |] eqn:Hr2;
    [|done..].
  simpl in Hg.
  apply reroll_spec in Hr2 as [Hey Heopen]; [|done|done|lia|done].
  destruct (open_leaf _ _ (maze.maze m) (sy, 1) (sy, 0) Hh Hok (ci_tree _ _ Hinv))
    as (a1 & Hset1 & Hok1 & Hopen1 & _ & Htree1); simpl; try lia.
  { intros Ho. destruct (ci_interior _ _ Hinv _ Ho) as (_ & ? & _). simpl in *. lia. }
  { done. }
  { apply adjacent_spec. simpl. lia. }
  { intros [xr xc] Ho Hadj. destruct (ci_interior _ _ Hinv _ Ho) as (_ & ? & _).
    apply adjacent_spec in Hadj. simpl in *. f_equal; lia. }
  destruct (open_leaf _ _ a1 (ey, maze.width m - 2) (ey, maze.width m - 1) Hh Hok1 Htree1)
    as (a2 & Hset2 & Hok2 & Hopen2 & _ & Htree2); simpl; try lia.
  { intros [[= ? ?]|Ho]%Hopen1; [lia|].
    destruct (ci_interior _ _ Hinv _ Ho) as (_ & ? & _). simpl in *. lia. }
  { apply Hopen1. by right. }
  { apply adjacent_spec. simpl. lia. }
  { intros [xr xc] [[= -> ->]|Ho]%Hopen1 Hadj; apply adjacent_spec in Hadj; simpl in *.
    - lia.
    - destruct (ci_interior _ _ Hinv _ Ho) as (_ & ? & _). simpl in *. f_equal; lia. }
  simpl in Hset1, Hset2. rewrite Hset1 in Hg. simpl in Hg. rewrite Hset2 in Hg. simpl in Hg.
  injection Hg as <-. simpl. exists sy, ey.
  repeat split; try done; try lia.
  - intros Hx. apply Hopen2 in Hx as [?|Hx]; [by left|]. right. by apply Hopen1.
  - intros [->|Hx]; apply Hopen2; [by left|]. right. by apply Hopen1.
Qed.

Lemma generate_spec width height fuel rng m m' :
  maze.__init__ width height = maze.Return m →
  maze.generate fuel rng m = maze.Return m' →
  ∃ mc draws, maze.carving rng m = maze.Return (mc, draws) ∧ carve_inv mc []
    ∧ maze.generate_start_end fuel rng mc draws = maze.Return m'.
Proof.
  intros Hinit Hg. unfold maze.generate in Hg.
  destruct (maze.carving rng m) as [[mc draws]| |] eqn:Hc; [|done..].
  destruct (carving_dims _ _ _ _ _ Hinit Hc) as [Hw Hh].
  destruct (carving_spec _ _ rng _ Hinit Hw Hh) as (mc' & draws' & Hc' & Hinv & _).
  rewrite Hc in Hc'. injection Hc' as <- <-.
  exists mc, draws. done.
Qed.

(** * Properties of [Maze] *)

(** With these draws row 2 is proposed first for the start; its cell in
    column 1 is a WALL, so the loop draws again: without fuel for that the
    call is still running, with fuel for one more draw it returns. *)
Example generate_rerolls :
  maze.generate 0 one_reroll maze5 = maze.OutOfFuel
  ∧ maze.generate 1 one_reroll maze5 = maze.Return maze5_done.
Proof. split; reflexivity. Qed.

(** A stored dimension below 3 makes the first write raise. *)
Example generate_too_small :
  maze.__init__ 1 5 ≫= maze.generate 0 zeros = maze.Raise maze.IndexError.
Proof. reflexivity. Qed.

(** C4.  When [generate] returns, any two OPEN cells of the grid are joined
    by exactly one simple path of OPEN cells: the OPEN cells form a tree. *)
Theorem generate_perfect_maze width height fuel rng m m' :
  maze.__init__ width height = maze.Return m →
  maze.generate fuel rng m = maze.Return m' →
  ∀ p q, is_open (maze.maze m') p → is_open (maze.maze m') q →
    ∃ l, simple_path (maze.maze m') p q l
         ∧ ∀ l', simple_path (maze.maze m') p q l' → l' = l.
Proof.
  intros Hinit Hg.
  destruct (generate_spec _ _ _ _ _ _ Hinit Hg) as (mc & draws & _ & Hinv & Hgse).
  destruct (generate_start_end_spec _ _ _ _ _ Hinv Hgse) as (sy & ey & H).
  apply H.
Qed.

Lemma generate_perfect_maze_witness :
  maze.__init__ 5 5 = maze.Return maze5
  ∧ maze.generate 1 one_reroll maze5 = maze.Return maze5_done
  ∧ ∀ p q, is_open (maze.maze maze5_done) p → is_open (maze.maze maze5_done) q →
      ∃ l, simple_path (maze.maze maze5_done) p q l
           ∧ ∀ l', simple_path (maze.maze maze5_done) p q l' → l' = l.
Proof.
  split; [reflexivity|]. split; [reflexivity|].
  apply (generate_perfect_maze 5 5 1 one_reroll maze5 maze5_done); reflexivity.
Defined.

(** C5.  When the carving loop finishes, column 1 and column [width - 2]
    each hold an OPEN cell in a row between 1 and [height - 2]. *)
Theorem carving_opens_columns width height rng m m' draws :
  maze.__init__ width height = maze.Return m →
  maze.carving rng m = maze.Return (m', draws) →
  (∃ r, 1 ≤ r ≤ maze.height m' - 2 ∧ is_open (maze.maze m') (r, 1))
  ∧ (∃ r, 1 ≤ r ≤ maze.height m' - 2 ∧ is_open (maze.maze m') (r, maze.width m' - 2)).
Proof.
  intros Hinit Hc.
  destruct (carving_dims _ _ _ _ _ Hinit Hc) as [Hw Hh].
  destruct (carving_spec _ _ rng _ Hinit Hw Hh) as (mc & draws' & Hc' & Hinv & Hh' & Hw' & _).
  rewrite Hc in Hc'. injection Hc' as <- <-.
  destruct (ci_width _ _ Hinv) as [_ Hodd].
  split; exists 1; (split; [lia|]).
  - apply (ci_seed _ _ Hinv).
  - pose proof (carved_row m' ((maze.width m' - 3) / 2) Hinv) as Hrow.
    eapply is_open_eq; [apply Hrow; zlia|]. f_equal. zlia.
Qed.

Lemma carving_opens_columns_witness :
  maze.__init__ 5 5 = maze.Return maze5
  ∧ maze.carving zeros maze5 = maze.Return (maze5_carved, 3%nat)
  ∧ (∃ r, 1 ≤ r ≤ maze.height maze5_carved - 2 ∧ is_open (maze.maze maze5_carved) (r, 1))
  ∧ (∃ r, 1 ≤ r ≤ maze.height maze5_carved - 2
          ∧ is_open (maze.maze maze5_carved) (r, maze.width maze5_carved - 2)).
Proof.
  split; [reflexivity|]. split; [reflexivity|].
  apply (carving_opens_columns 5 5 zeros maze5 maze5_carved 3); reflexivity.
Defined.

(** C6.  When [generate] returns, the start is a cell of column 0 and the
    end a cell of column [width - 1], both OPEN, their neighbours in columns
    1 and [width - 2] are OPEN, and a path of OPEN cells joins start and end. *)
Theorem generate_start_end_connected width height fuel rng m m' :
  maze.__init__ width height = maze.Return m →
  maze.generate fuel rng m = maze.Return m' →
  ∃ r r',
    maze.start m' = Some (r, 0) ∧ maze.end_ m' = Some (r', maze.width m' - 1)
    ∧ is_open (maze.maze m') (r, 1) ∧ is_open (maze.maze m') (r', maze.width m' - 2)
    ∧ is_open (maze.maze m') (r, 0) ∧ is_open (maze.maze m') (r', maze.width m' - 1)
    ∧ ∃ l, simple_path (maze.maze m') (r, 0) (r', maze.width m' - 1) l.
Proof.
  intros Hinit Hg.
  destruct (generate_spec _ _ _ _ _ _ Hinit Hg) as (mc & draws & _ & Hinv & Hgse).
  destruct (generate_start_end_spec _ _ _ _ _ Hinv Hgse)
    as (sy & ey & Hs & He & Hw & Hh & Hsy & Hey & Hso & Heo & Hopen & Htree).
  exists sy, ey. rewrite Hw.
  assert (H0 : is_open (maze.maze m') (sy, 0)) by (apply Hopen; auto).
  assert (H1 : is_open (maze.maze m') (ey, maze.width mc - 1)) by (apply Hopen; auto).
  repeat split; try done; try (apply Hopen; auto).
  destruct (Htree _ _ H0 H1) as (l & Hl & _). by exists l.
Qed.

Lemma generate_start_end_connected_witness :
  maze.__init__ 5 5 = maze.Return maze5
  ∧ maze.generate 1 one_reroll maze5 = maze.Return maze5_done
  ∧ ∃ r r',
      maze.start maze5_done = Some (r, 0)
      ∧ maze.end_ maze5_done = Some (r', maze.width maze5_done - 1)
      ∧ is_open (maze.maze maze5_done) (r, 1)
      ∧ is_open (maze.maze maze5_done) (r', maze.width maze5_done - 2)
      ∧ is_open (maze.maze maze5_done) (r, 0)
      ∧ is_open (maze.maze maze5_done) (r', maze.width maze5_done - 1)
      ∧ ∃ l, simple_path (maze.maze maze5_done) (r, 0) (r', maze.width maze5_done - 1) l.
Proof.
  split; [reflexivity|]. split; [reflexivity|].
  apply (generate_start_end_connected 5 5 1 one_reroll maze5 maze5_done); reflexivity.
Defined.

(** C7.  For positive arguments the constructor stores each dimension as
    given when it is odd and increased by one when it is even, and allocates
    a grid of [height] rows of [width] cells, all WALL. *)
Theorem init_dimensions width height :
  0 < width → 0 < height →
  ∃ m, maze.__init__ width height = maze.Return m
    ∧ (width mod 2 = 1 → maze.width m = width)
    ∧ (width mod 2 = 0 → maze.width m = width + 1)
    ∧ (height mod 2 = 1 → maze.height m = height)
    ∧ (height mod 2 = 0 → maze.height m = height + 1)
    ∧ shape (maze.maze m) = (maze.height m, maze.width m)
    ∧ Z.of_nat (length (maze.maze m)) = maze.height m
    ∧ Forall (λ row, Z.of_nat (length row) = maze.width m ∧ Forall (λ v, v = 1) row)
        (maze.maze m).
Proof.
  intros Hw Hh. unfold maze.__init__.
  set (w := if width mod 2 =? 1 then width else width + 1).
  set (h := if height mod 2 =? 1 then height else height + 1).
  assert (Hw' : 0 < w) by (unfold w; destruct (width mod 2 =? 1); lia).
  assert (Hh' : 0 < h) by (unfold h; destruct (height mod 2 =? 1); lia).
  destruct ((h <? 0) || (w <? 0)) eqn:E; [apply orb_true_iff in E; lia|].
  eexists. split; [done|]. simpl.
  split; [unfold w; destruct (width mod 2 =? 1) eqn:Ew; lia|].
  split; [unfold w; destruct (width mod 2 =? 1) eqn:Ew; lia|].
  split; [unfold h; destruct (height mod 2 =? 1) eqn:Eh; lia|].
  split; [unfold h; destruct (height mod 2 =? 1) eqn:Eh; lia|].
  split; [apply (grid_ok_shape h w); [done|apply np_ones_ok; lia]|].
  unfold np_ones. split; [rewrite length_replicate; lia|].
  apply Forall_replicate. split; [rewrite length_replicate; lia|].
  by apply Forall_replicate.
Qed.

Lemma init_dimensions_witness :
  0 < 4 ∧ 0 < 7
  ∧ ∃ m, maze.__init__ 4 7 = maze.Return m
    ∧ (4 mod 2 = 1 → maze.width m = 4)
    ∧ (4 mod 2 = 0 → maze.width m = 4 + 1)
    ∧ (7 mod 2 = 1 → maze.height m = 7)
    ∧ (7 mod 2 = 0 → maze.height m = 7 + 1)
    ∧ shape (maze.maze m) = (maze.height m, maze.width m)
    ∧ Z.of_nat (length (maze.maze m)) = maze.height m
    ∧ Forall (λ row, Z.of_nat (length row) = maze.width m ∧ Forall (λ v, v = 1) row)
        (maze.maze m).
Proof.
  split; [lia|]. split; [lia|]. apply (init_dimensions 4 7); lia.
Defined.

(** C8.  With both stored dimensions odd and at least 3 the carving loop
    comes to an empty stack, whatever is drawn; and every turn of the loop
    either pops the stack and leaves the grid as it is, or opens a cell that
    was a WALL, so that the number of WALL cells goes down. *)
Theorem carving_terminates width height rng m :
  maze.__init__ width height = maze.Return m →
  3 ≤ maze.width m → 3 ≤ maze.height m →
  (∃ m' draws, maze.carving rng m = maze.Return (m', draws))
  ∧ ∀ mi current below draws,
      carve_inv mi (current :: below) →
      ∃ m2 stack2 draws2,
        maze.carve_step rng mi current below draws = maze.Return (m2, stack2, draws2)
        ∧ carve_inv m2 stack2
        ∧ ((m2 = mi ∧ stack2 = below)
           ∨ (∃ next, stack2 = next :: current :: below
                ∧ getitem (maze.maze mi) next.1 next.2 = Some 1
                ∧ is_open (maze.maze m2) next
                ∧ (walls m2 < walls mi)%nat)).
Proof.
  intros Hinit Hw Hh. split.
  - destruct (carving_spec _ _ rng _ Hinit Hw Hh) as (m' & draws & Hc & _). eauto.
  - intros mi current below draws Hinv.
    destruct (carve_step_spec rng mi current below draws Hinv)
      as (m2 & stack2 & draws2 & Hs & Hinv2 & _ & _ & _ & _ & Hcase).
    exists m2, stack2, draws2. done.
Qed.

Lemma carving_terminates_witness :
  maze.__init__ 5 5 = maze.Return maze5
  ∧ 3 ≤ maze.width maze5 ∧ 3 ≤ maze.height maze5
  ∧ (∃ m' draws, maze.carving zeros maze5 = maze.Return (m', draws))
  ∧ ∀ mi current below draws,
      carve_inv mi (current :: below) →
      ∃ m2 stack2 draws2,
        maze.carve_step zeros mi current below draws = maze.Return (m2, stack2, draws2)
        ∧ carve_inv m2 stack2
        ∧ ((m2 = mi ∧ stack2 = below)
           ∨ (∃ next, stack2 = next :: current :: below
                ∧ getitem (maze.maze mi) next.1 next.2 = Some 1
                ∧ is_open (maze.maze m2) next
                ∧ (walls m2 < walls mi)%nat)).
Proof.
  split; [reflexivity|]. split; [simpl; lia|]. split; [simpl; lia|].
  apply (carving_terminates 5 5 zeros maze5); [reflexivity|simpl; lia..].
Defined.

(** * Further properties of [astar.py] *)

(** ** The heuristic *)

Lemma heuristic_adjacent p q e :
  adjacent p q = true →
  astar.heuristic q e = astar.heuristic p e - 1
  ∨ astar.heuristic q e = astar.heuristic p e + 1.
Proof.
  unfold adjacent, astar.heuristic. intros H%Z.eqb_eq. lia.
Qed.

Lemma heuristic_chained l p e :
  chained l = true → head l = Some p → last l = Some e →
  astar.heuristic p e + 1 ≤ Z.of_nat (length l).
Proof.
  revert p. induction l as [|x l IH]; intros p Hc Hh Hl; [done|].
  injection Hh as ->. destruct l as [|y l].
  - injection Hl as ->. unfold astar.heuristic. simpl. lia.
  - apply chained_cons in Hc as [Hadj Hc].
    specialize (IH y Hc eq_refl Hl).
    destruct (heuristic_adjacent _ _ e Hadj); simpl length in *; lia.
Qed.

(** ** Walks *)

Lemma walk_spec a s e l :
  walk a s e l = true ↔
  head l = Some s ∧ last l = Some e
  ∧ (∀ x, x ∈ tail l → astar.walkable a x = true) ∧ chained l = true.
Proof.
  unfold walk. rewrite !andb_true_iff, !bool_decide_eq_true, forallb_forall.
  split.
  - intros [[[? ?] Hall] ?]. repeat split; try done.
    intros x Hx. apply Hall. by apply list_elem_of_In.
  - intros (? & ? & Hall & ?). repeat split; try done.
    intros x Hx. apply Hall. by apply list_elem_of_In.
Qed.

Lemma reach_walk a start p :
  astar.reach a start p → ∃ l, walk a start p l = true.
Proof.
  intros Hr. induction Hr as [|p q Hr [path IH] Hq].
  - exists [start]. apply walk_spec. repeat split; try done.
    intros x Hx. by apply elem_of_nil in Hx.
  - apply walk_spec in IH as (Hh & Hl & Hw & Hc).
    apply get_neighbors_spec in Hq as [Hwq Hadj].
    exists (path ++ [q]). apply walk_spec. repeat split.
    + by destruct path.
    + apply last_snoc.
    + destruct path as [|x path]; [done|]. simpl in *.
      intros y [Hy| ->%list_elem_of_singleton]%elem_of_app; auto.
    + by apply (chained_snoc _ p).
Qed.

Lemma walk_reach a s e l : walk a s e l = true → astar.reach a s e.
Proof.
  revert e. induction l as [|q l IH] using rev_ind; intros e Hp.
  - by apply walk_spec in Hp as [? _].
  - apply walk_spec in Hp as (Hh & Hl & Hw & Hc).
    rewrite last_snoc in Hl. injection Hl as ->.
    destruct (decide (l = [])) as [->|Hne].
    + injection Hh as ->. constructor.
    + destruct (exists_last Hne) as (l' & p & ->).
      assert (Htl : ∀ x, x ∈ tail (l' ++ [p]) → x ∈ tail ((l' ++ [p]) ++ [e])).
      { intros x. destruct l'; simpl; [by intros ?%elem_of_nil|]. rewrite !elem_of_app. auto. }
      apply (astar.reach_step _ _ p).
      * apply IH. apply walk_spec. split; [by destruct l'|].
        split; [apply last_snoc|]. split.
        -- intros x Hx. by apply Hw, Htl.
        -- by apply chained_app_inv in Hc as [? _].
      * apply get_neighbors_spec. split.
        -- apply Hw. destruct l'; simpl; rewrite ?elem_of_app; set_solver.
        -- rewrite <- app_assoc in Hc. by apply chained_middle in Hc.
Qed.

(** A walk that does not come back to its first cell leaves it for OPEN cells only. *)
Lemma walk_open_path a s e l :
  astar.walkable a s = true → walk a s e l = true → astar.open_path a s e l = true.
Proof.
  intros Hs (Hh & Hl & Hw & Hc)%walk_spec. apply open_path_spec.
  repeat split; try done. intros x Hx. destruct l as [|y l]; [done|].
  injection Hh as ->. apply elem_of_cons in Hx as [->|Hx]; [done|]. by apply Hw.
Qed.

Lemma open_path_walk a s e l :
  astar.open_path a s e l = true → walk a s e l = true.
Proof.
  intros (Hh & Hl & Hw & Hc)%open_path_spec. apply walk_spec.
  repeat split; try done. intros x Hx. apply Hw. destruct l; [done|]. by right.
Qed.

(** ** What the loop returns, for any start *)

Section loop_walk.
Variable a : astar.AStar.
Variables start e : pos.

Lemma search_loop_walk fuel s hist path costs :
  search_inv a start e s →
  astar.result (astar.search_loop fuel a e s hist) = Some (path, costs) →
  costs = astar.generate_path_costs path e
  ∧ (path = [] ∨ (walk a start e path = true ∧ NoDup path)).
Proof.
  revert s hist. induction fuel as [|k IH]; intros s hist Hinv; [done|]. rewrite search_loop_S.
  destruct (heapq.heappop _ _) as [[current open']|] eqn:Hpop.
  - case_bool_decide as Hcur.
    + subst current.
      assert (Hin : e ∈ astar.open_list s).
      { apply heappop_perm in Hpop. rewrite Hpop. left. }
      pose proof (inv_open_nodes _ _ _ _ Hinv _ Hin) as Hsome.
      destruct (rebuild_path a start e s Hinv e Hsome)
        as (chain & Hr & Hchain & Hc & Hall & Hl & Hnd).
      rewrite Hr. simpl. intros [= <- <-]. split; [done|]. right.
      assert (Hnd' : NoDup (reverse (e :: chain))) by by rewrite reverse_Permutation.
      split; [|done]. apply walk_spec.
      assert (Hhd : head (reverse (e :: chain)) = Some start) by by rewrite head_reverse.
      split; [done|]. split; [by rewrite last_reverse|]. split; [|done].
      intros x Hx. destruct (reverse (e :: chain)) as [|y l] eqn:Hrev; [done|].
      injection Hhd as ->. simpl in Hx.
      assert (Hx' : x ∈ e :: chain).
      { rewrite <- elem_of_reverse, Hrev. by right. }
      destruct (Hall x Hx') as [->|?]; [|done].
      apply NoDup_cons in Hnd' as [Hnin _]. done.
    + destruct (expand_inv a start e s current open' Hinv Hpop Hcur) as (Hinv' & _ & _ & [n Hn]).
      rewrite Hn. by apply IH.
  - intros [= <- <-]. split; [done|]. by left.
Qed.

(** ** The costs kept in the nodes *)

Lemma initial_cost : cost_inv start e (astar.initial start e).
Proof.
  intros p n. unfold astar.initial. simpl. intros Hn.
  apply lookup_insert_Some in Hn as [[<- <-]|[_ Hn]]; [simpl; lia|done].
Qed.

Lemma relax_cost current s nb :
  cost_inv start e s → nb ∈ astar.get_neighbors a current →
  cost_inv start e (astar.relax e current s nb).
Proof.
  intros Hc Hnb. unfold astar.relax. case_bool_decide; [done|].
  destruct (astar.nodes s !! current) as [cur|] eqn:Hcur; [|done].
  apply get_neighbors_spec in Hnb as [_ Hadj].
  destruct (Hc _ _ Hcur) as (Hh & Hf & Hlo).
  assert (Hnew : ∀ p n,
    <[nb := astar.mkNode (astar.g cur + 1) (astar.heuristic nb e)
                (astar.g cur + 1 + astar.heuristic nb e) (Some current) "evaluating"]>
      (astar.nodes s) !! p = Some n →
    astar.h n = astar.heuristic p e ∧ astar.f n = astar.g n + astar.h n
    ∧ astar.heuristic start e ≤ astar.f n).
  { intros p n Hn. apply lookup_insert_Some in Hn as [[<- <-]|[_ Hn]]; [|by apply Hc].
    simpl. split; [done|]. split; [done|].
    destruct (heuristic_adjacent _ _ e Hadj); lia. }
  destruct (astar.nodes s !! nb) as [nbn|] eqn:Hnbn.
  - destruct (negb _); [|done]. case_bool_decide; exact Hnew.
  - case_bool_decide; exact Hnew.
Qed.

Lemma relax_fold_cost current nbs s :
  cost_inv start e s → (∀ nb, nb ∈ nbs → nb ∈ astar.get_neighbors a current) →
  cost_inv start e (foldl (astar.relax e current) s nbs).
Proof.
  revert s. induction nbs as [|nb nbs IH]; intros s Hc Hnbs; [done|]. simpl.
  apply IH.
  - apply relax_cost; [done|]. apply Hnbs. left.
  - intros x Hx. apply Hnbs. by right.
Qed.

Lemma search_loop_records fuel s hist :
  search_inv a start e s → cost_inv start e s →
  ∃ recs, astar.history (astar.search_loop fuel a e s hist) = hist ++ recs
    ∧ Forall (expansion_record (astar.heuristic start e)) recs
    ∧ (size (astar.closed_set s) + length recs ≤ length (universe a start))%nat.
Proof.
  assert (Hnil : ∀ (s : astar.search) (hist : list astar.CostRecord),
    search_inv a start e s →
    ∃ recs, hist = hist ++ recs
      ∧ Forall (expansion_record (astar.heuristic start e)) recs
      ∧ (size (astar.closed_set s) + length recs ≤ length (universe a start))%nat).
  { intros s0 h0 Hinv. exists []. rewrite app_nil_r. split; [done|]. split; [done|].
    pose proof (closed_bound a start e s0 Hinv) as Hb.
    change (length (@nil astar.CostRecord)) with 0%nat. lia. }
  revert s hist. induction fuel as [|k IH]; intros s hist Hinv Hc; [by apply Hnil|].
  rewrite search_loop_S.
  destruct (heapq.heappop _ _) as [[current open']|] eqn:Hpop; [|by apply Hnil].
  case_bool_decide as Hcur.
  - destruct (astar.rebuild _ _ _ _); by apply (Hnil s).
  - destruct (expand_inv a start e s current open' Hinv Hpop Hcur)
      as (Hinv' & Hcl & Hnin & [n Hn]).
    rewrite Hn.
    destruct (IH _ (astar.record_step hist n) Hinv') as (recs & Hh & Hrec & Hlen).
    { by apply relax_fold_cost. }
    exists (astar.mkCost (astar.g n) (astar.h n) (astar.f n) (astar.status n) :: recs).
    split; [|split].
    + rewrite Hh. unfold astar.record_step. by rewrite <- app_assoc.
    + constructor; [|done]. destruct (Hc _ _ Hn) as (Hhn & Hfn & Hlo).
      pose proof (inv_g _ _ _ _ Hinv _ _ Hn). pose proof (inv_status _ _ _ _ Hinv _ _ Hn).
      repeat split; simpl; try done. rewrite Hhn. unfold astar.heuristic. lia.
    + rewrite Hcl in Hlen. rewrite size_union in Hlen by set_solver.
      rewrite size_singleton in Hlen. rewrite length_cons. lia.
Qed.

End loop_walk.

(** Consecutive cells of a chained sequence are adjacent. *)
Lemma chained_lookup l i p q :
  chained l = true → l !! i = Some p → l !! S i = Some q → adjacent p q = true.
Proof.
  intros Hc Hp Hq. rewrite <- (take_drop_middle l i p Hp) in Hc.
  assert (Hd : drop (S i) l = q :: drop (S (S i)) l).
  { rewrite <- (take_drop_middle l (S i) q Hq) at 1.
    rewrite drop_app_length'; [done|]. rewrite length_take.
    apply lookup_lt_Some in Hq. lia. }
  rewrite Hd in Hc. by apply chained_middle in Hc.
Qed.

(** Cutting the loops out of a chained sequence leaves a simple path with
    the same ends that is no longer. *)
Lemma loop_erase (V : pos → Prop) l p q :
  head l = Some p → last l = Some q → Forall V l → chained l = true →
  ∃ l', simple_path_on V p q l' ∧ (length l' ≤ length l)%nat.
Proof.
  revert p. induction l as [|x l IH]; intros p Hh Hl HV Hc; [done|].
  injection Hh as <-. apply Forall_cons in HV as [Hx HV].
  destruct l as [|y l].
  - injection Hl as <-. exists [x]. split; [by apply simple_path_on_single|done].
  - apply chained_cons in Hc as [Hadj Hc].
    destruct (IH y eq_refl Hl HV Hc) as (l' & (Hh' & Hl' & Hnd & HV' & Hc') & Hlen).
    destruct (decide (x ∈ l')) as [Hin|Hnin].
    + apply list_elem_of_split in Hin as (l1 & l2 & ->).
      exists (x :: l2). split.
      * split; [done|]. split.
        { by rewrite last_app_cons in Hl'. }
        split; [by apply NoDup_app in Hnd as (_ & _ & ?)|].
        split; [by apply Forall_app in HV' as [_ ?]|].
        by apply chained_app_inv in Hc' as [_ ?].
      * rewrite length_app in Hlen. simpl in *. lia.
    + exists (x :: l'). split; [|simpl in *; lia].
      split; [done|]. split; [by destruct l'|].
      split; [by apply NoDup_cons|]. split; [by apply Forall_cons|].
      destruct l' as [|y' l']; [done|]. injection Hh' as ->.
      by apply chained_cons.
Qed.

(** The first pass of the loop of [find_path]: a start that is the end is
    returned at once, any other start is expanded. *)
Lemma find_path_run_first a start e :
  astar.find_path_run a start e =
  let hs := astar.heuristic start e in
  let start_node := astar.mkNode 0 hs (0 + hs) None "evaluating" in
  let nodes : gmap pos astar.Node := <[start := start_node]> ∅ in
  if bool_decide (start = e) then
    astar.mkRun (Some ([start], astar.generate_path_costs [start] e))
      (astar.mkSearch [] ∅ nodes) (astar.cost_history a)
  else
    astar.search_loop (S (Z.to_nat (astar.height a * astar.width a))) a e
      (foldl (astar.relax e start) (astar.mkSearch [] ({[start]} ∪ ∅) nodes)
         (astar.get_neighbors a start))
      (astar.record_step (astar.cost_history a) start_node).
Proof.
  unfold astar.find_path_run, astar.loop_fuel.
  replace (Z.to_nat (astar.height a * astar.width a) + 2)%nat
    with (S (S (Z.to_nat (astar.height a * astar.width a)))) by lia.
  rewrite search_loop_S.
  change (heapq.heappop _ (astar.open_list (astar.initial start e)))
    with (Some (start, @nil pos)).
  change (astar.nodes (astar.initial start e))
    with (<[start := astar.mkNode 0 (astar.heuristic start e)
              (0 + astar.heuristic start e) None "evaluating"]> (∅ : gmap pos astar.Node)).
  change (astar.closed_set (astar.initial start e)) with (∅ : gset pos).
  cbv zeta. destruct (decide (start = e)) as [Hse|Hse];
    [rewrite !bool_decide_eq_true_2 by done
    |rewrite !bool_decide_eq_false_2 by done; by rewrite lookup_insert_eq].
  rewrite map_size_insert_None, map_size_empty by apply lookup_empty.
  change (astar.rebuild 2 ?n (Some start) []) with
    (astar.rebuild 1 n (n !! start ≫= astar.parent) [start]).
  by rewrite lookup_insert_eq.
Qed.

Lemma maze5_done_tree : is_tree (maze.maze maze5_done).
Proof.
  assert (Hinit : maze.__init__ 5 5 = maze.Return maze5) by reflexivity.
  assert (Hg : maze.generate 1 one_reroll maze5 = maze.Return maze5_done) by reflexivity.
  destruct (generate_spec _ _ _ _ _ _ Hinit Hg) as (mc & draws & _ & Hinv & Hgse).
  destruct (generate_start_end_spec _ _ _ _ _ Hinv Hgse) as (sy & ey & H).
  apply H.
Qed.

(** ** Searching backwards *)

Lemma open_path_reverse a s e l :
  astar.open_path a s e l = true → astar.open_path a e s (reverse l) = true.
Proof.
  intros (Hh & Hl & Hw & Hc)%open_path_spec. apply open_path_spec.
  split; [by rewrite head_reverse|]. split; [by rewrite last_reverse|].
  split; [|by apply chained_reverse].
  intros x Hx. apply Hw. by rewrite elem_of_reverse in Hx.
Qed.

Lemma reach_sym a s e :
  astar.walkable a s = true → astar.walkable a e = true →
  astar.reach a s e → astar.reach a e s.
Proof.
  intros Hs He Hr. destruct (reach_open_path a s e Hs Hr) as [l Hl].
  by apply (open_path_reach _ _ _ (reverse l)), open_path_reverse.
Qed.

(** The empty pair is returned exactly when the end cannot be entered. *)
Lemma find_path_empty a s e :
  (astar.find_path a s e).1 = Some ([], []) ↔ ¬ astar.reach a s e.
Proof.
  split.
  - intros Hr. unfold astar.find_path, astar.find_path_run in Hr. simpl in Hr.
    by apply (search_loop_complete a s e) in Hr; [|apply initial_inv|apply initial_frontier].
  - intros Hn. destruct (find_path_total a s e) as [[path costs] Hr]. rewrite Hr.
    unfold astar.find_path, astar.find_path_run in Hr. simpl in Hr.
    destruct (search_loop_walk a s e _ _ _ _ _ (initial_inv a s e) Hr)
      as [-> [->|[Hw _]]]; [done|].
    exfalso. apply Hn. by apply (walk_reach _ _ _ path).
Qed.

(** ** The path and the expansions *)

(** Every cell of the returned path but the end was expanded. *)
Lemma search_loop_path_closed a start e fuel s hist path costs :
  search_inv a start e s →
  astar.result (astar.search_loop fuel a e s hist) = Some (path, costs) →
  ∀ x, x ∈ path →
    x = e ∨ x ∈ astar.closed_set (astar.final (astar.search_loop fuel a e s hist)).
Proof.
  revert s hist. induction fuel as [|k IH]; intros s hist Hinv; [done|]. rewrite search_loop_S.
  destruct (heapq.heappop _ _) as [[current open']|] eqn:Hpop.
  - case_bool_decide as Hcur.
    + subst current.
      assert (Hin : e ∈ astar.open_list s).
      { apply heappop_perm in Hpop. rewrite Hpop. left. }
      pose proof (inv_open_nodes _ _ _ _ Hinv _ Hin) as Hsome.
      destruct (rebuild_path a start e s Hinv e Hsome) as (chain & Hr & Hchain & _).
      rewrite Hr. simpl. intros [= <- <-] x Hx.
      rewrite elem_of_reverse in Hx. apply elem_of_cons in Hx as [->|Hx]; [by left|].
      right. by apply Hchain.
    + destruct (expand_inv a start e s current open' Hinv Hpop Hcur) as (Hinv' & _ & _ & [n Hn]).
      rewrite Hn. by apply IH.
  - simpl. intros [= <- <-] x Hx. by apply elem_of_nil in Hx.
Qed.

(** * Properties of [AStar] beyond its specification *)

(** X1.  The heuristic is admissible: the Manhattan distance from a cell
    to the goal never exceeds the number of steps of a walk of the grid
    between the two. *)
Theorem heuristic_admissible a s e l :
  walk a s e l = true →
  astar.heuristic s e ≤ Z.of_nat (length l) - 1.
Proof.
  intros (Hh & Hl & _ & Hc)%walk_spec.
  pose proof (heuristic_chained l s e Hc Hh Hl). lia.
Qed.

Lemma heuristic_admissible_witness :
  walk (astar.__init__ room_grid) (1, 0) (1, 4)
    [(1, 0); (1, 1); (2, 1); (2, 2); (1, 2); (1, 3); (1, 4)] = true
  ∧ astar.heuristic (1, 0) (1, 4)
    ≤ Z.of_nat (length [(1, 0); (1, 1); (2, 1); (2, 2); (1, 2); (1, 3); (1, 4) : pos]) - 1.
Proof.
  split; [reflexivity|].
  apply (heuristic_admissible (astar.__init__ room_grid)). reflexivity.
Defined.

(** X2.  [get_neighbors] returns, in the order right, down, left, up and
    without repetition, exactly the cells next to [p] that lie inside the
    grid and are OPEN: at most four of them, and never [p] itself. *)
Theorem get_neighbors_exact a p :
  astar.get_neighbors a p
    `sublist_of` [(p.1, p.2 + 1); (p.1 + 1, p.2); (p.1, p.2 - 1); (p.1 - 1, p.2)]
  ∧ NoDup (astar.get_neighbors a p)
  ∧ (length (astar.get_neighbors a p) ≤ 4)%nat
  ∧ (p ∉ astar.get_neighbors a p)
  ∧ ∀ q, q ∈ astar.get_neighbors a p ↔
      adjacent p q = true
      ∧ 0 ≤ q.1 < astar.height a ∧ 0 ≤ q.2 < astar.width a
      ∧ getitem (astar.maze a) q.1 q.2 = Some 0.
Proof.
  assert (Hmap : map (λ d : Z * Z, (p.1 + d.1, p.2 + d.2)) [(0, 1); (1, 0); (0, -1); (-1, 0)]
                 = [(p.1, p.2 + 1); (p.1 + 1, p.2); (p.1, p.2 - 1); (p.1 - 1, p.2)]).
  { simpl. repeat f_equal; lia. }
  unfold astar.get_neighbors. rewrite Hmap.
  split; [apply sublist_filter|]. split.
  { apply NoDup_filter. repeat (apply NoDup_cons; split);
      [rewrite ?elem_of_cons, elem_of_nil; intros H; repeat destruct H as [H|H];
       try done; injection H; lia ..|apply NoDup_nil_2]. }
  split; [apply (length_filter _ [_; _; _; _])|]. split.
  { intros [_ Hadj]%(proj1 (list_elem_of_filter _ _ _)).
    rewrite !elem_of_cons, elem_of_nil in Hadj.
    repeat destruct Hadj as [Hadj|Hadj]; try done; destruct p; injection Hadj; lia. }
  intros q. rewrite <- Hmap. fold (astar.get_neighbors a p). rewrite get_neighbors_spec.
  split.
  - intros [Hw Hadj]. split; [done|]. by apply walkable_bounds.
  - intros (Hadj & Hr & Hc & Hg). split; [|done]. unfold astar.walkable.
    rewrite !andb_true_iff, bool_decide_eq_true, !Z.leb_le, !Z.ltb_lt.
    repeat split; (lia || done).
Qed.

(** X3.  What [find_path] returns for any start and end, inside the grid
    or not, OPEN or not: the call returns; it returns the empty pair exactly
    when no walk joins the start to the end, a walk being a sequence of
    4-adjacent cells of which all but the first are OPEN cells of the grid;
    otherwise it returns such a walk, without repeated cells, and the
    timeline made from it. *)
Theorem find_path_walk a start e :
  ∃ path costs, (astar.find_path a start e).1 = Some (path, costs)
    ∧ costs = astar.generate_path_costs path e
    ∧ ((path = [] ∧ ∀ l, walk a start e l = false)
       ∨ (walk a start e path = true ∧ NoDup path)).
Proof.
  destruct (find_path_total a start e) as [[path costs] Hr].
  exists path, costs. split; [done|].
  unfold astar.find_path, astar.find_path_run in Hr. simpl in Hr.
  destruct (search_loop_walk a start e _ _ _ _ _ (initial_inv a start e) Hr) as [Hc Hp].
  split; [done|]. destruct Hp as [->|Hw]; [left|by right]. split; [done|].
  apply (search_loop_complete a start e) in Hr; [|apply initial_inv|apply initial_frontier].
  intros l. destruct (walk a start e l) eqn:Hl; [|done].
  exfalso. apply Hr. by apply (walk_reach _ _ _ l).
Qed.

(** X4.  When the start is the end, [find_path] returns the one-cell path
    with the single record (0, 0, 0, reached), expands nothing and leaves
    the instance as it was; the grid is not consulted, so this holds for a
    WALL and for a cell outside the grid too. *)
Theorem find_path_start_is_end a s :
  astar.find_path a s s = (Some ([s], [astar.mkCost 0 0 0 "reached"]), a).
Proof.
  unfold astar.find_path. rewrite find_path_run_first. cbv zeta.
  rewrite bool_decide_eq_true_2 by done. simpl.
  unfold astar.generate_path_costs. simpl.
  rewrite bool_decide_eq_true_2 by done.
  assert (Hz : astar.heuristic s s = 0) by (unfold astar.heuristic; lia).
  rewrite Hz. by destruct a.
Qed.

(** X5.  A returned path has at least as many cells as the Manhattan
    distance between its ends requires, and no more than the grid has cells,
    the start counted apart when it is not an OPEN cell of the grid. *)
Theorem find_path_length a start e path costs :
  (astar.find_path a start e).1 = Some (path, costs) → path ≠ [] →
  astar.heuristic start e + 1 ≤ Z.of_nat (length path)
  ∧ (length path ≤ Z.to_nat (astar.height a) * Z.to_nat (astar.width a) + 1)%nat
  ∧ (astar.walkable a start = true →
       (length path ≤ Z.to_nat (astar.height a) * Z.to_nat (astar.width a))%nat).
Proof.
  intros Hr Hne. unfold astar.find_path, astar.find_path_run in Hr. simpl in Hr.
  destruct (search_loop_walk a start e _ _ _ _ _ (initial_inv a start e) Hr)
    as [-> [->|[Hw Hnd]]]; [done|].
  pose proof Hw as (Hh & Hl & Hall & Hc)%walk_spec.
  assert (Hcells : ∀ l : list pos, NoDup l → (∀ x, x ∈ l → astar.walkable a x = true) →
            (length l ≤ Z.to_nat (astar.height a) * Z.to_nat (astar.width a))%nat).
  { intros l Hndl Hwl. rewrite <- all_cells_length. apply submseteq_length.
    apply NoDup_submseteq; [done|]. intros x Hx%Hwl%walkable_bounds.
    apply all_cells_spec. lia. }
  split; [by apply heuristic_chained|]. split.
  - destruct path as [|x path]; [done|]. apply NoDup_cons in Hnd as [_ Hnd].
    specialize (Hcells path Hnd Hall). simpl. lia.
  - intros Hs. apply (Hcells path Hnd).
    apply walk_open_path in Hw; [|done]. by apply open_path_spec in Hw as (_ & _ & ? & _).
Qed.

Lemma find_path_length_witness :
  let a := astar.__init__ room_grid in
  let path := [(1, 0); (1, 1); (1, 2); (1, 3); (1, 4)] in
  let costs := [astar.mkCost 0 4 4 "on_path"; astar.mkCost 1 3 4 "on_path";
                astar.mkCost 2 2 4 "on_path"; astar.mkCost 3 1 4 "on_path";
                astar.mkCost 4 0 4 "reached"] in
  (astar.find_path a (1, 0) (1, 4)).1 = Some (path, costs)
  ∧ path ≠ []
  ∧ astar.heuristic (1, 0) (1, 4) + 1 ≤ Z.of_nat (length path)
  ∧ (length path ≤ Z.to_nat (astar.height a) * Z.to_nat (astar.width a) + 1)%nat
  ∧ (astar.walkable a (1, 0) = true →
       (length path ≤ Z.to_nat (astar.height a) * Z.to_nat (astar.width a))%nat).
Proof.
  split; [vm_compute; reflexivity|]. split; [done|].
  apply (find_path_length (astar.__init__ room_grid) (1, 0) (1, 4)
           [(1, 0); (1, 1); (1, 2); (1, 3); (1, 4)]
           [astar.mkCost 0 4 4 "on_path"; astar.mkCost 1 3 4 "on_path";
            astar.mkCost 2 2 4 "on_path"; astar.mkCost 3 1 4 "on_path";
            astar.mkCost 4 0 4 "reached"]); [vm_compute; reflexivity|done].
Defined.

(** X6.  The records one call of [find_path] appends to [cost_history],
    one per expanded cell: each has [f = g + h] with [g] and [h] not
    negative, an [f] not below the Manhattan distance from the start to the
    end, and the status evaluating; there are at most as many as the grid has
    cells plus one; the first is the start's, and none is written when the
    start is the end. *)
Theorem find_path_history_records a start e :
  ∃ recs,
    astar.cost_history (astar.find_path a start e).2 = astar.cost_history a ++ recs
    ∧ Forall (expansion_record (astar.heuristic start e)) recs
    ∧ (length recs ≤ Z.to_nat (astar.height a) * Z.to_nat (astar.width a) + 1)%nat
    ∧ (start ≠ e →
         head recs = Some (astar.mkCost 0 (astar.heuristic start e)
                             (astar.heuristic start e) "evaluating"))
    ∧ (start = e → recs = []).
Proof.
  unfold astar.find_path. simpl.
  destruct (search_loop_records a start e (astar.loop_fuel a) _ (astar.cost_history a)
              (initial_inv a start e) (initial_cost start e)) as (recs & Hh & Hrec & Hlen).
  fold (astar.find_path_run a start e) in Hh.
  exists recs. split; [done|]. split; [done|]. split.
  { change (universe a start) with (start :: all_cells (astar.height a) (astar.width a)) in Hlen.
    rewrite length_cons, all_cells_length in Hlen. lia. }
  rewrite find_path_run_first in Hh. cbv zeta in Hh. split; intros Hse.
  - rewrite bool_decide_eq_false_2 in Hh by done.
    destruct (expand_inv a start e (astar.initial start e) start []
                (initial_inv a start e) eq_refl Hse) as (Hinv' & _).
    cbv zeta in Hinv'.
    destruct (search_loop_records a start e (S (Z.to_nat (astar.height a * astar.width a)))
                _ (astar.record_step (astar.cost_history a)
                     (astar.mkNode 0 (astar.heuristic start e) (0 + astar.heuristic start e)
                        None "evaluating")) Hinv') as (recs' & Hh' & _).
    { apply (relax_fold_cost a); [apply initial_cost|done]. }
    change (astar.closed_set (astar.initial start e)) with (∅ : gset pos) in Hh'.
    change (astar.nodes (astar.initial start e))
      with (<[start := astar.mkNode 0 (astar.heuristic start e)
                (0 + astar.heuristic start e) None "evaluating"]> (∅ : gmap pos astar.Node))
      in Hh'.
    rewrite Hh' in Hh. unfold astar.record_step in Hh. rewrite <- app_assoc in Hh.
    apply app_inv_head in Hh. by rewrite <- Hh.
  - rewrite bool_decide_eq_true_2 in Hh by done. simpl in Hh.
    symmetry in Hh. rewrite <- (app_nil_r (astar.cost_history a)) in Hh at 2.
    by apply app_inv_head in Hh.
Qed.

(** X7.  Along the timeline returned with a path, from one record to the
    next [g] grows by one, [h] changes by one, and [f] stays or grows by
    two: [f] never decreases. *)
Theorem path_costs_steps a start e path costs i c c' :
  (astar.find_path a start e).1 = Some (path, costs) →
  costs !! i = Some c → costs !! S i = Some c' →
  astar.cost_g c' = astar.cost_g c + 1
  ∧ (astar.cost_h c' = astar.cost_h c - 1 ∨ astar.cost_h c' = astar.cost_h c + 1)
  ∧ (astar.cost_f c' = astar.cost_f c ∨ astar.cost_f c' = astar.cost_f c + 2).
Proof.
  intros Hr Hc Hc'. unfold astar.find_path, astar.find_path_run in Hr. simpl in Hr.
  destruct (search_loop_walk a start e _ _ _ _ _ (initial_inv a start e) Hr)
    as [-> [->|[Hw Hnd]]]; [done|].
  apply walk_spec in Hw as (_ & _ & _ & Hch).
  unfold astar.generate_path_costs in Hc, Hc'. rewrite list_lookup_imap in Hc, Hc'.
  destruct (path !! i) as [p|] eqn:Hp; [|done].
  destruct (path !! S i) as [q|] eqn:Hq; [|done].
  simpl in Hc, Hc'. injection Hc as <-. injection Hc' as <-. simpl.
  pose proof (chained_lookup _ _ _ _ Hch Hp Hq) as Hadj.
  destruct (heuristic_adjacent _ _ e Hadj); lia.
Qed.

Lemma path_costs_steps_witness :
  let a := astar.__init__ detour_grid in
  let path := [(1, 5); (0, 5); (0, 4); (0, 3); (0, 2); (1, 2); (2, 2); (2, 1); (2, 0);
               (1, 0); (0, 0)] in
  let c := astar.mkCost 4 2 6 "on_path" in
  let c' := astar.mkCost 5 3 8 "on_path" in
  (astar.find_path a (1, 5) (0, 0)).1 = Some (path, astar.generate_path_costs path (0, 0))
  ∧ astar.generate_path_costs path (0, 0) !! 4%nat = Some c
  ∧ astar.generate_path_costs path (0, 0) !! 5%nat = Some c'
  ∧ astar.cost_g c' = astar.cost_g c + 1
  ∧ (astar.cost_h c' = astar.cost_h c - 1 ∨ astar.cost_h c' = astar.cost_h c + 1)
  ∧ (astar.cost_f c' = astar.cost_f c ∨ astar.cost_f c' = astar.cost_f c + 2).
Proof.
  split; [vm_compute; reflexivity|]. split; [reflexivity|]. split; [reflexivity|].
  apply (path_costs_steps (astar.__init__ detour_grid) (1, 5) (0, 0)
           [(1, 5); (0, 5); (0, 4); (0, 3); (0, 2); (1, 2); (2, 2); (2, 1); (2, 0);
            (1, 0); (0, 0)]
           (astar.generate_path_costs
              [(1, 5); (0, 5); (0, 4); (0, 3); (0, 2); (1, 2); (2, 2); (2, 1); (2, 0);
               (1, 0); (0, 0)] (0, 0)) 4);
    [vm_compute; reflexivity|reflexivity|reflexivity].
Defined.

(** X8.  On a grid whose OPEN cells form a tree, as the generated mazes
    are, the path [find_path] returns is a shortest one: no path of OPEN
    cells from the start to the end has fewer cells. *)
Theorem find_path_shortest_on_tree m start e path costs l :
  is_tree m →
  (astar.find_path (astar.__init__ m) start e).1 = Some (path, costs) →
  astar.open_path (astar.__init__ m) start e l = true →
  (length path ≤ length l)%nat.
Proof.
  intros Htree Hr Hl.
  assert (Hw : ∀ x, astar.walkable (astar.__init__ m) x = open_cell m x) by done.
  apply open_path_spec in Hl as (Hh & Hla & Hall & Hc).
  assert (HV : Forall (is_open m) l).
  { apply Forall_forall. intros x Hx. unfold is_open. rewrite <- Hw. by apply Hall. }
  assert (Hs : is_open m start).
  { destruct l as [|x l]; [done|]. injection Hh as <-. by apply Forall_cons in HV as [? _]. }
  assert (He : is_open m e).
  { apply (proj1 (Forall_forall _ _) HV). by apply last_Some_elem_of. }
  destruct (find_path_on_tree m start e Htree Hs He) as (path' & costs' & Hr' & _ & Huniq).
  rewrite Hr in Hr'. injection Hr' as <- <-.
  destruct (loop_erase (is_open m) l start e Hh Hla HV Hc) as (l' & Hl' & Hlen).
  by rewrite <- (Huniq l' Hl').
Qed.

Lemma find_path_shortest_on_tree_witness :
  let m := maze.maze maze5_done in
  let path := [(1, 0); (1, 1); (1, 2); (1, 3); (1, 4)] in
  let l := [(1, 0); (1, 1); (1, 2); (1, 3); (2, 3); (3, 3); (2, 3); (1, 3); (1, 4)] in
  is_tree m
  ∧ (astar.find_path (astar.__init__ m) (1, 0) (1, 4)).1
    = Some (path, astar.generate_path_costs path (1, 4))
  ∧ astar.open_path (astar.__init__ m) (1, 0) (1, 4) l = true
  ∧ (length path ≤ length l)%nat.
Proof.
  split; [apply maze5_done_tree|]. split; [vm_compute; reflexivity|].
  split; [reflexivity|].
  apply (find_path_shortest_on_tree (maze.maze maze5_done) (1, 0) (1, 4)
           [(1, 0); (1, 1); (1, 2); (1, 3); (1, 4)]
           (astar.generate_path_costs [(1, 0); (1, 1); (1, 2); (1, 3); (1, 4)] (1, 4)));
    [apply maze5_done_tree|vm_compute; reflexivity|reflexivity].
Defined.

(** X9.  Between two OPEN cells of the grid the search fails in one
    direction exactly when it fails in the other. *)
Theorem find_path_symmetric a s e :
  astar.walkable a s = true → astar.walkable a e = true →
  ((astar.find_path a s e).1 = Some ([], [])
   ↔ (astar.find_path a e s).1 = Some ([], [])).
Proof.
  intros Hs He. rewrite !find_path_empty.
  split; intros Hn Hr; apply Hn; by apply reach_sym.
Qed.

Lemma find_path_symmetric_witness :
  astar.walkable (astar.__init__ [[0; 1; 0]]) (0, 0) = true
  ∧ astar.walkable (astar.__init__ [[0; 1; 0]]) (0, 2) = true
  ∧ ((astar.find_path (astar.__init__ [[0; 1; 0]]) (0, 0) (0, 2)).1 = Some ([], [])
     ↔ (astar.find_path (astar.__init__ [[0; 1; 0]]) (0, 2) (0, 0)).1 = Some ([], [])).
Proof.
  split; [reflexivity|]. split; [reflexivity|].
  apply (find_path_symmetric (astar.__init__ [[0; 1; 0]]) (0, 0) (0, 2)); reflexivity.
Defined.

(** X10.  On a grid whose OPEN cells form a tree, as the generated mazes
    are, searching from the end to the start returns the path found from the
    start to the end, reversed. *)
Theorem find_path_reverse_on_tree m s e :
  is_tree m → is_open m s → is_open m e →
  ∃ path costs costs',
    (astar.find_path (astar.__init__ m) s e).1 = Some (path, costs)
    ∧ (astar.find_path (astar.__init__ m) e s).1 = Some (reverse path, costs')
    ∧ path ≠ [].
Proof.
  intros Htree Hs He.
  destruct (find_path_on_tree m s e Htree Hs He) as (path & costs & Hr & Hsimple & _).
  destruct (find_path_on_tree m e s Htree He Hs) as (path' & costs' & Hr' & _ & Huniq).
  exists path, costs, costs'. split; [done|]. split.
  - by rewrite (Huniq (reverse path) (simple_path_on_reverse _ _ _ _ Hsimple)).
  - destruct Hsimple as (Hh & _). by destruct path.
Qed.

Lemma find_path_reverse_on_tree_witness :
  let m := maze.maze maze5_done in
  is_tree m ∧ is_open m (1, 0) ∧ is_open m (3, 1)
  ∧ ∃ path costs costs',
      (astar.find_path (astar.__init__ m) (1, 0) (3, 1)).1 = Some (path, costs)
      ∧ (astar.find_path (astar.__init__ m) (3, 1) (1, 0)).1 = Some (reverse path, costs')
      ∧ path ≠ [].
Proof.
  split; [apply maze5_done_tree|]. split; [reflexivity|]. split; [reflexivity|].
  apply (find_path_reverse_on_tree (maze.maze maze5_done) (1, 0) (3, 1));
    [apply maze5_done_tree|reflexivity|reflexivity].
Defined.

(** X11.  Every cell of the returned path but the last was expanded by
    the call, so a call that returns a path of n cells appends at least
    n - 1 records to [cost_history]. *)
Theorem find_path_expands_path a start e path costs :
  (astar.find_path a start e).1 = Some (path, costs) →
  (∀ x, x ∈ path → x = e ∨ x ∈ astar.closed_set (astar.final (astar.find_path_run a start e)))
  ∧ ∃ recs,
      astar.cost_history (astar.find_path a start e).2 = astar.cost_history a ++ recs
      ∧ (length path ≤ length recs + 1)%nat.
Proof.
  intros Hr. unfold astar.find_path in *. simpl in *. unfold astar.find_path_run in *.
  pose proof (search_loop_path_closed a start e _ _ _ _ _ (initial_inv a start e) Hr) as Hcl.
  split; [done|].
  destruct (search_loop_history a start e (astar.loop_fuel a) _ (astar.cost_history a)
              (initial_inv a start e)) as (recs & Hh & Hsz & _ & _).
  exists recs. split; [done|].
  destruct (search_loop_result a start e _ _ _ _ _ (initial_inv a start e) Hr)
    as [[-> _]|(front & -> & Hfront & _ & _ & _ & Hnd)]; [simpl; lia|].
  rewrite length_app. simpl.
  assert (Hle : (length front ≤ length (elements (astar.closed_set
            (astar.final (astar.search_loop (astar.loop_fuel a) a e
               (astar.initial start e) (astar.cost_history a))))))%nat).
  { apply submseteq_length, NoDup_submseteq; [by apply NoDup_app in Hnd as [? _]|].
    intros x Hx. apply elem_of_elements.
    destruct (Hcl x) as [->|?]; [apply elem_of_app; by left|done|done]. }
  change (length (elements ?X)) with (size X) in Hle. rewrite Hsz in Hle.
  change (astar.closed_set (astar.initial start e)) with (∅ : gset pos) in Hle.
  rewrite size_empty in Hle. lia.
Qed.

Lemma find_path_expands_path_witness :
  let a := astar.__init__ room_grid in
  let path := [(1, 0); (1, 1); (1, 2); (1, 3); (1, 4)] in
  (astar.find_path a (1, 0) (1, 4)).1
  = Some (path, astar.generate_path_costs path (1, 4))
  ∧ (∀ x, x ∈ path →
       x = (1, 4)
       ∨ x ∈ astar.closed_set (astar.final (astar.find_path_run a (1, 0) (1, 4))))
  ∧ ∃ recs,
      astar.cost_history (astar.find_path a (1, 0) (1, 4)).2 = astar.cost_history a ++ recs
      ∧ (length path ≤ length recs + 1)%nat.
Proof.
  split; [vm_compute; reflexivity|].
  apply (find_path_expands_path (astar.__init__ room_grid) (1, 0) (1, 4)
           [(1, 0); (1, 1); (1, 2); (1, 3); (1, 4)]
           (astar.generate_path_costs [(1, 0); (1, 1); (1, 2); (1, 3); (1, 4)] (1, 4))).
  vm_compute; reflexivity.
Defined.

(** * Further properties of [maze.py] *)

(** ** The cells of a grid *)

Lemma all_cells_nodup h w : NoDup (all_cells h w).
Proof.
  unfold all_cells. apply NoDup_bind; [| |apply NoDup_seqZ].
  - intros r1 r2 y _ _ (c1 & ->%list_elem_of_singleton & _)%list_elem_of_bind
      (c2 & [= -> _]%list_elem_of_singleton & _)%list_elem_of_bind. done.
  - intros r _. apply NoDup_bind; [| |apply NoDup_seqZ].
    + intros c1 c2 y _ _ ->%list_elem_of_singleton [= ->]%list_elem_of_singleton. done.
    + intros c _. apply NoDup_singleton.
Qed.

Lemma same_length {A} (l k : list A) :
  NoDup l → NoDup k → (∀ x, x ∈ l ↔ x ∈ k) → length l = length k.
Proof. intros Hl Hk Heq. by rewrite (NoDup_Permutation l k Hl Hk Heq). Qed.

Lemma open_cells_spec m x :
  grid_ok (maze.height m) (maze.width m) (maze.maze m) → 0 < maze.height m →
  x ∈ open_cells m ↔ is_open (maze.maze m) x.
Proof.
  intros Hok Hh. unfold open_cells. rewrite list_elem_of_filter, all_cells_spec.
  split; [by intros [? _]|]. intros Ho. split; [done|].
  apply (is_open_spec _ _ _ Hh Hok) in Ho. lia.
Qed.

Lemma open_cells_nodup m : NoDup (open_cells m).
Proof. apply NoDup_filter, all_cells_nodup. Qed.

Lemma open_rooms_spec m x :
  grid_ok (maze.height m) (maze.width m) (maze.maze m) → 0 < maze.height m →
  x ∈ open_rooms m ↔ is_open (maze.maze m) x ∧ x.1 mod 2 = 1 ∧ x.2 mod 2 = 1.
Proof.
  intros Hok Hh. unfold open_rooms. rewrite list_elem_of_filter, open_cells_spec by done.
  tauto.
Qed.

Lemma open_rooms_nodup m : NoDup (open_rooms m).
Proof. apply NoDup_filter, open_cells_nodup. Qed.

Lemma rooms_spec m x :
  maze.height m mod 2 = 1 → maze.width m mod 2 = 1 →
  x ∈ rooms m ↔
  0 < x.1 < maze.height m - 1 ∧ 0 < x.2 < maze.width m - 1
  ∧ x.1 mod 2 = 1 ∧ x.2 mod 2 = 1.
Proof.
  intros Hh Hw. unfold rooms. rewrite list_elem_of_bind. split.
  - intros (i & (j & ->%list_elem_of_singleton & Hj%elem_of_seqZ)%list_elem_of_bind
              & Hi%elem_of_seqZ). simpl. zlia.
  - intros (Hr & Hc & Hro & Hco). exists ((x.1 - 1) / 2). split; [|apply elem_of_seqZ; zlia].
    apply list_elem_of_bind. exists ((x.2 - 1) / 2). split; [|apply elem_of_seqZ; zlia].
    apply list_elem_of_singleton. destruct x as [r c]. simpl in *. f_equal; zlia.
Qed.

Lemma rooms_nodup m : NoDup (rooms m).
Proof.
  unfold rooms. apply NoDup_bind; [| |apply NoDup_seqZ].
  - intros r1 r2 y _ _ (c1 & ->%list_elem_of_singleton & _)%list_elem_of_bind
      (c2 & [= ? _]%list_elem_of_singleton & _)%list_elem_of_bind. lia.
  - intros r _. apply NoDup_bind; [| |apply NoDup_seqZ].
    + intros c1 c2 y _ _ ->%list_elem_of_singleton [= ?]%list_elem_of_singleton. lia.
    + intros c _. apply NoDup_singleton.
Qed.

Lemma rooms_length m :
  length (rooms m)
  = (Z.to_nat ((maze.height m - 1) / 2) * Z.to_nat ((maze.width m - 1) / 2))%nat.
Proof.
  unfold rooms. rewrite (length_bind_const _ _ (Z.to_nat ((maze.width m - 1) / 2))).
  - by rewrite length_seqZ.
  - intros r. rewrite (length_bind_const _ _ 1%nat); [|done]. rewrite length_seqZ. lia.
Qed.

(** ** The grid after the carving loop *)

(** After the loop every room is OPEN. *)
Lemma carved_cell m i j :
  carve_inv m [] → 0 ≤ i → 2 * i + 1 < maze.height m - 1 →
  0 ≤ j → 2 * j + 1 < maze.width m - 1 →
  is_open (maze.maze m) (2 * i + 1, 2 * j + 1).
Proof.
  intros Hinv Hi. pattern i. apply natlike_ind; [| |exact Hi]; clear i Hi.
  - intros _ Hj Hlt. by apply carved_row.
  - intros i Hi IH Hlt Hj Hjlt.
    assert (Ho : is_open (maze.maze m) (2 * i + 1, 2 * j + 1)) by (apply IH; lia).
    destruct (ci_done _ _ Hinv _ Ho) as [Hin|Hall]; simpl; [zlia|zlia|by apply elem_of_nil in Hin|].
    assert (Hd : (2, 0) ∈ maze.directions) by (right; left).
    specialize (Hall _ Hd). simpl in Hall.
    eapply is_open_eq; [apply Hall; lia|]. f_equal; lia.
Qed.

Lemma carved_rooms m :
  carve_inv m [] → ∀ x, x ∈ open_rooms m ↔ x ∈ rooms m.
Proof.
  intros Hinv x.
  destruct (ci_height _ _ Hinv) as [Hh3 Hho]. destruct (ci_width _ _ Hinv) as [Hw3 Hwo].
  rewrite open_rooms_spec by (try apply (ci_grid _ _ Hinv); lia).
  rewrite rooms_spec by done. split.
  - intros (Ho & ? & ?). destruct (ci_interior _ _ Hinv _ Ho) as (? & ? & _). done.
  - intros (Hr & Hc & Hro & Hco). split; [|done]. destruct x as [r c]. simpl in *.
    eapply is_open_eq; [apply (carved_cell m ((r - 1) / 2) ((c - 1) / 2) Hinv); zlia|].
    f_equal; zlia.
Qed.

(** ** Counting along the carving loop *)

(** A push opens exactly two cells, of which one is a room. *)
Lemma carve_step_count rng m current below draws m2 stack2 draws2 :
  carve_inv m (current :: below) → count_inv m draws →
  maze.carve_step rng m current below draws = maze.Return (m2, stack2, draws2) →
  count_inv m2 draws2.
Proof.
  intros Hinv Hcnt. unfold maze.carve_step. destruct current as [r c].
  case_bool_decide as Hunv; [by intros [= <- _ <-]|].
  destruct (choice_elem (rng draws) _ Hunv) as (next & -> & Hnext).
  apply unvisited_spec in Hnext
    as (dr & dc & Hd & -> & Hnr & Hnc & Hwall & Hwr & Hwc).
  simpl in Hwr, Hwc. simpl. rewrite Hwr, Hwc.
  destruct (step_push m below r c dr dc Hinv Hd Hnr Hnc Hwall)
    as (a1 & a2 & Hset1 & Hset2 & Hinv' & _).
  rewrite Hset1. simpl. rewrite Hset2. simpl. intros [= <- _ <-].
  destruct (ci_height _ _ Hinv) as [Hh3 _].
  assert (Hh : 0 < maze.height m) by lia.
  pose proof (ci_grid _ _ Hinv) as Hok.
  destruct (step_current m below r c Hinv) as (Hcur & Hro & Hco & Hrr & Hcr).
  destruct (setitem_open _ _ (maze.maze m) Hh Hok (r + dr) (c + dc))
    as (a1' & Hset1' & Hok1 & Hopen1 & _); [lia..|].
  rewrite Hset1 in Hset1'. injection Hset1' as <-.
  destruct (setitem_open _ _ a1 Hh Hok1 (r + 2 * dr) (c + 2 * dc))
    as (a2' & Hset2' & Hok2 & Hopen2 & _); [lia..|].
  rewrite Hset2 in Hset2'. injection Hset2' as <-.
  assert (Hnc' : ¬ is_open (maze.maze m) (r + 2 * dr, c + 2 * dc))
    by (eapply step_next_closed; eauto).
  assert (Hwc' : ¬ is_open (maze.maze m) (r + dr, c + dc))
    by (eapply step_wall_closed; eauto).
  assert (Hcells : length (open_cells (maze.set_maze m a2)) = S (S (length (open_cells m)))).
  { change (S (S (length (open_cells m))))
      with (length ((r + 2 * dr, c + 2 * dc) :: (r + dr, c + dc) :: open_cells m)).
    apply same_length; [apply open_cells_nodup| |].
    - apply NoDup_cons. split; [|apply NoDup_cons; split; [|apply open_cells_nodup]].
      + rewrite elem_of_cons, open_cells_spec by done. intros [[= ? ?]|?]; [lia|done].
      + by rewrite open_cells_spec.
    - intros x. rewrite !elem_of_cons, !open_cells_spec by done. simpl.
      rewrite Hopen2, Hopen1. tauto. }
  assert (Hrooms : length (open_rooms (maze.set_maze m a2)) = S (length (open_rooms m))).
  { change (S (length (open_rooms m)))
      with (length ((r + 2 * dr, c + 2 * dc) :: open_rooms m)).
    apply same_length; [apply open_rooms_nodup| |].
    - apply NoDup_cons. split; [|apply open_rooms_nodup].
      rewrite open_rooms_spec by done. by intros [? _].
    - intros x. rewrite !elem_of_cons, !open_rooms_spec by done. simpl.
      rewrite Hopen2, Hopen1. split.
      + intros ([->|[->|Ho]] & H1 & H2); simpl in *; [by left|zlia|by right].
      + intros [->|(Ho & H1 & H2)]; simpl; [|tauto]. split; [by left|zlia]. }
  destruct Hcnt as [Hc1 Hc2]. split; lia.
Qed.

Lemma carve_count rng fuel m stack draws m' draws' :
  carve_inv m stack → count_inv m draws →
  maze.carve fuel rng m stack draws = maze.Return (m', draws') →
  count_inv m' draws'.
Proof.
  revert m stack draws. induction fuel as [|k IH]; intros m stack draws Hinv Hcnt; [done|].
  destruct stack as [|current below]; [by intros [= <- <-]|].
  rewrite carve_S.
  destruct (carve_step_spec rng m current below draws Hinv)
    as (m2 & stack2 & draws2 & Hstep & Hinv2 & _).
  rewrite Hstep. simpl. apply (IH m2 stack2 draws2 Hinv2).
  by apply (carve_step_count rng m current below draws _ stack2).
Qed.

(** The counts when [carving] returns: one draw per room but the first,
    and two OPEN cells per draw. *)
Lemma carving_count width height rng m mc draws :
  maze.__init__ width height = maze.Return m →
  maze.carving rng m = maze.Return (mc, draws) →
  carve_inv mc [] ∧ count_inv mc draws
  ∧ maze.height mc = maze.height m ∧ maze.width mc = maze.width m.
Proof.
  intros Hinit Hc.
  destruct (carving_dims _ _ _ _ _ Hinit Hc) as [Hw3 Hh3].
  destruct (carving_spec _ _ rng _ Hinit Hw3 Hh3)
    as (mc' & draws' & Hc' & Hinv & Hh' & Hw' & _).
  rewrite Hc in Hc'. injection Hc' as <- <-.
  split; [done|]. split; [|done].
  pose proof (init_odd _ _ _ Hinit) as [Hwo Hho].
  apply init_spec in Hinit as (_ & _ & Hm & Hs & He & Hw & Hh).
  assert (Hok : grid_ok (maze.height m) (maze.width m) (maze.maze m))
    by (rewrite Hm; apply np_ones_ok; lia).
  assert (Hh0 : 0 < maze.height m) by lia.
  destruct (setitem_open _ _ (maze.maze m) Hh0 Hok 1 1)
    as (a0 & Hset & Hok0 & Hopen0 & Hwall0); [lia..|].
  assert (Hone : ∀ x, is_open a0 x ↔ x = (1, 1)).
  { intros x. rewrite Hopen0, Hm. split; [|by left].
    intros [?|Ho]; [done|]. by apply np_ones_closed in Ho. }
  unfold maze.carving in Hc. rewrite Hset in Hc. simpl in Hc.
  assert (Hinv0 : carve_inv (maze.set_maze m a0) [(1, 1)]).
  { split; simpl.
    - done.
    - done.
    - done.
    - intros p ->%Hone. simpl. repeat split; try lia. by left.
    - intros p ->%Hone. simpl. intros Hp. change (1 mod 2) with 1 in Hp. lia.
    - intros p ->%Hone. simpl. intros Hp. change (1 mod 2) with 1 in Hp. lia.
    - intros p ->%list_elem_of_singleton. split; [by apply Hone|done].
    - by apply Hone.
    - intros p ->%Hone _ _. left. left.
    - apply (tree_on_single _ (1, 1)). intros y. apply Hone. }
  apply (carve_count rng _ _ _ _ _ _ Hinv0) in Hc; [done|].
  assert (H1 : length (open_cells (maze.set_maze m a0)) = 1%nat).
  { change 1%nat with (length [((1, 1) : pos)]).
    apply same_length; [apply open_cells_nodup|apply NoDup_singleton|].
    intros x. rewrite open_cells_spec, list_elem_of_singleton by done. apply Hone. }
  assert (H2 : length (open_rooms (maze.set_maze m a0)) = 1%nat).
  { change 1%nat with (length [((1, 1) : pos)]).
    apply same_length; [apply open_rooms_nodup|apply NoDup_singleton|].
    intros x. rewrite open_rooms_spec, list_elem_of_singleton by done. simpl.
    rewrite Hone. split; [by intros [? _]|]. by intros ->. }
  split; lia.
Qed.

(** ** Errors of [generate] *)

(** On a grid of at least three rows the rejection loop raises nothing. *)
Lemma reroll_no_raise rng m col fuel y draws :
  0 < maze.height m → grid_ok (maze.height m) (maze.width m) (maze.maze m) →
  0 ≤ col < maze.width m → 1 ≤ y ≤ maze.height m - 2 →
  (∃ y' draws', maze.reroll fuel rng m col y draws = maze.Return (y', draws'))
  ∨ maze.reroll fuel rng m col y draws = maze.OutOfFuel.
Proof.
  intros Hh Hok Hcol. revert y draws.
  induction fuel as [|k IH]; intros y draws Hy.
  - simpl. destruct (getitem_in _ _ _ Hh Hok y col) as (v & Hg & Hv); [lia..|].
    rewrite Hg. simpl. destruct Hv as [-> | ->]; simpl; [left; eauto|by right].
  - simpl. destruct (getitem_in _ _ _ Hh Hok y col) as (v & Hg & Hv); [lia..|].
    rewrite Hg. simpl. destruct Hv as [-> | ->]; simpl; [left; eauto|].
    destruct (randint_range (rng draws) 1 (maze.height m - 2)) as (y2 & Hy2 & Hr2); [lia|].
    rewrite Hy2. simpl. by apply IH.
Qed.

Lemma generate_start_end_no_raise fuel rng m draws :
  carve_inv m [] →
  (∃ m', maze.generate_start_end fuel rng m draws = maze.Return m')
  ∨ maze.generate_start_end fuel rng m draws = maze.OutOfFuel.
Proof.
  intros Hinv.
  destruct (ci_height _ _ Hinv) as [Hh3 _]. destruct (ci_width _ _ Hinv) as [Hw3 _].
  assert (Hh : 0 < maze.height m) by lia.
  pose proof (ci_grid _ _ Hinv) as Hok.
  unfold maze.generate_start_end.
  destruct (randint_range (rng draws) 1 (maze.height m - 2)) as (sy0 & Hs0 & Hsy0); [lia|].
  rewrite Hs0. simpl.
  destruct (reroll_no_raise rng m 1 fuel sy0 (S draws) Hh Hok) as [(sy & d1 & Hr1)| ->];
    [lia|done| |by right].
  rewrite Hr1. simpl.
  apply reroll_spec in Hr1 as [Hsy _]; [|done|done|lia|done].
  destruct (randint_range (rng d1) 1 (maze.height m - 2)) as (ey0 & He0 & Hey0); [lia|].
  rewrite He0. simpl.
  destruct (reroll_no_raise rng m (maze.width m - 2) fuel ey0 (S d1) Hh Hok)
    as [(ey & d2 & Hr2)| ->]; [lia|done| |by right].
  rewrite Hr2. simpl.
  apply reroll_spec in Hr2 as [Hey _]; [|done|done|lia|done].
  destruct (setitem_open _ _ (maze.maze m) Hh Hok sy 0) as (a1 & -> & Hok1 & _); [lia..|].
  simpl.
  destruct (setitem_open _ _ a1 Hh Hok1 ey (maze.width m - 1)) as (a2 & -> & _); [lia..|].
  simpl. left. eauto.
Qed.

(** The first write of [generate] fails on a grid with one row or one column. *)
Lemma carving_too_small width height rng m :
  maze.__init__ width height = maze.Return m →
  maze.width m < 3 ∨ maze.height m < 3 →
  maze.carving rng m = maze.Raise maze.IndexError.
Proof.
  intros Hinit Hsmall. pose proof (init_odd _ _ _ Hinit) as [Hwo Hho].
  apply init_spec in Hinit as (_ & _ & Hm & _ & _ & Hw & Hh).
  unfold maze.carving.
  destruct (setitem (maze.maze m) 1 1 0) as [a0|] eqn:Hset; [|done].
  exfalso. apply setitem_shape in Hset as [H1 H2]; [|lia..].
  rewrite Hm in H1, H2.
  assert (Hh2 : 1 < maze.height m).
  { unfold shape, np_ones in H1. simpl in H1. rewrite length_replicate in H1. lia. }
  rewrite (grid_ok_shape (maze.height m) (maze.width m)) in H2;
    [|lia|apply np_ones_ok; lia]. simpl in H2. zlia.
Qed.

(** ** The counts of a finished maze *)

Lemma carved_count mc draws :
  carve_inv mc [] → count_inv mc draws →
  Z.of_nat (length (open_cells mc))
  = 2 * ((maze.height mc - 1) / 2 * ((maze.width mc - 1) / 2)) - 1
  ∧ Z.of_nat draws = (maze.height mc - 1) / 2 * ((maze.width mc - 1) / 2) - 1.
Proof.
  intros Hinv [Hcells Hd].
  rewrite (same_length _ (rooms mc) (open_rooms_nodup mc) (rooms_nodup mc)
             (carved_rooms mc Hinv)), rooms_length in Hcells, Hd.
  destruct (ci_height _ _ Hinv) as [Hh3 _]. destruct (ci_width _ _ Hinv) as [Hw3 _].
  assert (0 ≤ (maze.height mc - 1) / 2) by zlia.
  assert (0 ≤ (maze.width mc - 1) / 2) by zlia.
  split; nia.
Qed.

(** The start and the end are two more OPEN cells. *)
Lemma start_end_count fuel rng mc draws m' :
  carve_inv mc [] →
  maze.generate_start_end fuel rng mc draws = maze.Return m' →
  length (open_cells m') = S (S (length (open_cells mc)))
  ∧ ∀ x, is_open (maze.maze m') x → x ∈ open_cells m'.
Proof.
  intros Hinv Hg.
  destruct (generate_start_end_spec _ _ _ _ _ Hinv Hg)
    as (sy & ey & Hs & He & Hw & Hh & Hsy & Hey & _ & _ & Hopen & _).
  destruct (ci_height _ _ Hinv) as [Hh3 Hho]. destruct (ci_width _ _ Hinv) as [Hw3 Hwo].
  assert (Hh0 : 0 < maze.height mc) by lia.
  pose proof (ci_grid _ _ Hinv) as Hok.
  assert (Hin : ∀ x, x ∈ open_cells m' ↔ is_open (maze.maze m') x).
  { intros x. unfold open_cells. rewrite list_elem_of_filter, all_cells_spec, Hh, Hw.
    change (open_cell (maze.maze m') x = true) with (is_open (maze.maze m') x).
    split; [tauto|]. intros Hx. split; [done|].
    apply Hopen in Hx as [->|[->|Ho]]; simpl; [lia..|].
    apply (is_open_spec _ _ _ Hh0 Hok) in Ho. lia. }
  split; [|intros x; apply Hin].
  change (S (S (length (open_cells mc))))
    with (length ((ey, maze.width mc - 1) :: (sy, 0) :: open_cells mc)).
  apply same_length; [apply open_cells_nodup| |].
  - apply NoDup_cons. split; [|apply NoDup_cons; split; [|apply open_cells_nodup]].
    + rewrite elem_of_cons, open_cells_spec by done. intros [[= ? ?]|Ho]; [lia|].
      destruct (ci_interior _ _ Hinv _ Ho) as (_ & ? & _). simpl in *. lia.
    + rewrite open_cells_spec by done. intros Ho.
      destruct (ci_interior _ _ Hinv _ Ho) as (_ & ? & _). simpl in *. lia.
  - intros x. rewrite Hin, !elem_of_cons, (open_cells_spec mc) by done. apply Hopen.
Qed.

(** The two writes of the start and the end keep the shape of the grid. *)
Lemma start_end_grid fuel rng m draws m' :
  carve_inv m [] →
  maze.generate_start_end fuel rng m draws = maze.Return m' →
  grid_ok (maze.height m) (maze.width m) (maze.maze m').
Proof.
  intros Hinv Hg.
  destruct (ci_height _ _ Hinv) as [Hh3 _]. destruct (ci_width _ _ Hinv) as [Hw3 _].
  assert (Hh : 0 < maze.height m) by lia.
  pose proof (ci_grid _ _ Hinv) as Hok.
  unfold maze.generate_start_end in Hg.
  destruct (randint_range (rng draws) 1 (maze.height m - 2)) as (sy0 & Hs0 & Hsy0); [lia|].
  rewrite Hs0 in Hg. simpl in Hg.
  destruct (maze.reroll fuel rng m 1 sy0 (S draws)) as [[sy d1]| |] eqn:Hr1; [|done..].
  simpl in Hg.
  apply reroll_spec in Hr1 as [Hsy _]; [|done|done|lia|done].
  destruct (randint_range (rng d1) 1 (maze.height m - 2)) as (ey0 & He0 & Hey0); [lia|].
  rewrite He0 in Hg. simpl in Hg.
  destruct (maze.reroll fuel rng m (maze.width m - 2) ey0 (S d1)) as [[ey d2]| |] eqn:Hr2;
    [|done..].
  simpl in Hg.
  apply reroll_spec in Hr2 as [Hey _]; [|done|done|lia|done].
  destruct (setitem_open _ _ (maze.maze m) Hh Hok sy 0) as (a1 & Hset1 & Hok1 & _); [lia..|].
  destruct (setitem_open _ _ a1 Hh Hok1 ey (maze.width m - 1)) as (a2 & Hset2 & Hok2 & _);
    [lia..|].
  rewrite Hset1 in Hg. simpl in Hg. rewrite Hset2 in Hg. simpl in Hg.
  by injection Hg as <-.
Qed.

(** * Properties of [Maze] beyond its specification *)

(** X12.  The errors of [generate] on a maze the constructor has
    returned.  The arguments were not negative then, a negative stored
    dimension being refused by [np.ones] (-1 is odd and stays, -2 becomes
    -1).  If one of them is 0 or 1 the grid has one row or one column and the
    first write of [generate], at (1, 1), raises IndexError.  If both are 2 or
    more [generate] raises nothing: it returns, unless the draws for the start
    or the end keep proposing WALL rows. *)
Theorem generate_errors width height fuel rng m :
  maze.__init__ width height = maze.Return m →
  0 ≤ width ∧ 0 ≤ height
  ∧ (width < 2 ∨ height < 2 →
       maze.generate fuel rng m = maze.Raise maze.IndexError)
  ∧ (2 ≤ width → 2 ≤ height →
       (∃ m', maze.generate fuel rng m = maze.Return m')
       ∨ maze.generate fuel rng m = maze.OutOfFuel).
Proof.
  intros Hinit.
  pose proof (init_odd _ _ _ Hinit) as [Hwo Hho].
  pose proof (init_spec _ _ _ Hinit) as (Hmw & Hmh & _ & _ & _ & Hw0 & Hh0).
  assert (Hw : width ≤ maze.width m ≤ width + 1) by (destruct (_ =? _) in Hmw; lia).
  assert (Hh : height ≤ maze.height m ≤ height + 1) by (destruct (_ =? _) in Hmh; lia).
  split; [zlia|]. split; [zlia|]. split.
  - intros Hsmall. unfold maze.generate.
    rewrite (carving_too_small width height rng m Hinit); [done|]. zlia.
  - intros Hw2 Hh2.
    destruct (carving_spec _ _ rng _ Hinit) as (mc & draws & Hc & Hinv & _); [zlia..|].
    unfold maze.generate. rewrite Hc. simpl.
    apply generate_start_end_no_raise, Hinv.
Qed.

Lemma generate_errors_witness :
  let m := maze.mkMaze 1 5 (np_ones 5 1) None None in
  maze.__init__ 0 5 = maze.Return m
  ∧ 0 ≤ 0 ∧ 0 ≤ 5
  ∧ (0 < 2 ∨ 5 < 2 → maze.generate 0 zeros m = maze.Raise maze.IndexError)
  ∧ (2 ≤ 0 → 2 ≤ 5 →
       (∃ m', maze.generate 0 zeros m = maze.Return m')
       ∨ maze.generate 0 zeros m = maze.OutOfFuel).
Proof.
  split; [reflexivity|].
  apply (generate_errors 0 5 0 zeros (maze.mkMaze 1 5 (np_ones 5 1) None None)).
  reflexivity.
Defined.

(** X13.  The grid [generate] returns.  Every room, that is every cell
    with odd row and odd column inside the border, is OPEN; no cell with
    even row and even column is; and of the border cells exactly the start
    and the end are OPEN. *)
Theorem generate_lattice width height fuel rng m m' :
  maze.__init__ width height = maze.Return m →
  maze.generate fuel rng m = maze.Return m' →
  (∀ i j, 0 ≤ i → 2 * i + 1 < maze.height m' - 1 → 0 ≤ j → 2 * j + 1 < maze.width m' - 1 →
      is_open (maze.maze m') (2 * i + 1, 2 * j + 1))
  ∧ (∀ p, is_open (maze.maze m') p →
      maze.start m' = Some p ∨ maze.end_ m' = Some p
      ∨ (0 < p.1 < maze.height m' - 1 ∧ 0 < p.2 < maze.width m' - 1
         ∧ (p.1 mod 2 = 1 ∨ p.2 mod 2 = 1)))
  ∧ (∀ p, maze.start m' = Some p ∨ maze.end_ m' = Some p → is_open (maze.maze m') p).
Proof.
  intros Hinit Hg.
  destruct (generate_spec _ _ _ _ _ _ Hinit Hg) as (mc & draws & _ & Hinv & Hgse).
  destruct (generate_start_end_spec _ _ _ _ _ Hinv Hgse)
    as (sy & ey & Hs & He & Hw & Hh & Hsy & Hey & _ & _ & Hopen & _).
  rewrite Hs, He, Hw, Hh. split; [|split].
  - intros i j Hi Hil Hj Hjl. apply Hopen. right; right. by apply carved_cell.
  - intros p [->|[->|Ho]]%Hopen; [right; by left|by left|].
    right; right. apply (ci_interior _ _ Hinv _ Ho).
  - intros p [[= <-]|[= <-]]; apply Hopen; auto.
Qed.

Lemma generate_lattice_witness :
  maze.__init__ 5 5 = maze.Return maze5
  ∧ maze.generate 1 one_reroll maze5 = maze.Return maze5_done
  ∧ (∀ i j, 0 ≤ i → 2 * i + 1 < maze.height maze5_done - 1 →
            0 ≤ j → 2 * j + 1 < maze.width maze5_done - 1 →
      is_open (maze.maze maze5_done) (2 * i + 1, 2 * j + 1))
  ∧ (∀ p, is_open (maze.maze maze5_done) p →
      maze.start maze5_done = Some p ∨ maze.end_ maze5_done = Some p
      ∨ (0 < p.1 < maze.height maze5_done - 1 ∧ 0 < p.2 < maze.width maze5_done - 1
         ∧ (p.1 mod 2 = 1 ∨ p.2 mod 2 = 1)))
  ∧ (∀ p, maze.start maze5_done = Some p ∨ maze.end_ maze5_done = Some p →
      is_open (maze.maze maze5_done) p).
Proof.
  split; [reflexivity|]. split; [reflexivity|].
  apply (generate_lattice 5 5 1 one_reroll maze5 maze5_done); reflexivity.
Defined.

(** X14.  The carving loop draws once per room other than the first:
    [random.choice] is called (height - 1) / 2 * (width - 1) / 2 - 1 times,
    whatever the draws are. *)
Theorem carving_draws width height rng m mc draws :
  maze.__init__ width height = maze.Return m →
  maze.carving rng m = maze.Return (mc, draws) →
  Z.of_nat draws = (maze.height m - 1) / 2 * ((maze.width m - 1) / 2) - 1.
Proof.
  intros Hinit Hc.
  destruct (carving_count _ _ _ _ _ _ Hinit Hc) as (Hinv & Hcnt & <- & <-).
  by destruct (carved_count mc draws Hinv Hcnt) as [_ ?].
Qed.

Lemma carving_draws_witness :
  maze.__init__ 5 5 = maze.Return maze5
  ∧ maze.carving one_reroll maze5 = maze.Return (maze5_carved, 3%nat)
  ∧ Z.of_nat 3 = (maze.height maze5 - 1) / 2 * ((maze.width maze5 - 1) / 2) - 1.
Proof.
  split; [reflexivity|]. split; [reflexivity|].
  apply (carving_draws 5 5 one_reroll maze5 maze5_carved 3); reflexivity.
Defined.

(** X15.  The number of OPEN cells of a generated maze is fixed by its
    size: with R = (height - 1) / 2 * (width - 1) / 2 rooms, the grid has the
    R rooms, the R - 1 cells opened between two rooms, and the start and the
    end, 2 R + 1 OPEN cells in all, whatever the draws were. *)
Theorem generate_open_count width height fuel rng m m' :
  maze.__init__ width height = maze.Return m →
  maze.generate fuel rng m = maze.Return m' →
  Z.of_nat (length (open_cells m'))
  = 2 * ((maze.height m' - 1) / 2 * ((maze.width m' - 1) / 2)) + 1.
Proof.
  intros Hinit Hg. unfold maze.generate in Hg.
  destruct (maze.carving rng m) as [[mc draws]| |] eqn:Hc; [|done..]. simpl in Hg.
  destruct (carving_count _ _ _ _ _ _ Hinit Hc) as (Hinv & Hcnt & _).
  destruct (carved_count mc draws Hinv Hcnt) as [Hcells _].
  destruct (start_end_count _ _ _ _ _ Hinv Hg) as [Hlen _].
  destruct (generate_start_end_spec _ _ _ _ _ Hinv Hg)
    as (sy & ey & _ & _ & Hw & Hh & _).
  rewrite Hh, Hw, Hlen. lia.
Qed.

Lemma generate_open_count_witness :
  maze.__init__ 5 5 = maze.Return maze5
  ∧ maze.generate 1 one_reroll maze5 = maze.Return maze5_done
  ∧ Z.of_nat (length (open_cells maze5_done))
    = 2 * ((maze.height maze5_done - 1) / 2 * ((maze.width maze5_done - 1) / 2)) + 1.
Proof.
  split; [reflexivity|]. split; [reflexivity|].
  apply (generate_open_count 5 5 1 one_reroll maze5 maze5_done); reflexivity.
Defined.

(** X16.  [generate] keeps the stored dimensions and the shape of the
    grid: the array it leaves has [height] rows of [width] cells, each 0 or
    1, and an [AStar] made from it reads these same dimensions. *)
Theorem generate_grid width height fuel rng m m' :
  maze.__init__ width height = maze.Return m →
  maze.generate fuel rng m = maze.Return m' →
  maze.width m' = maze.width m ∧ maze.height m' = maze.height m
  ∧ grid_ok (maze.height m') (maze.width m') (maze.get_maze m')
  ∧ astar.height (astar.__init__ (maze.get_maze m')) = maze.height m'
  ∧ astar.width (astar.__init__ (maze.get_maze m')) = maze.width m'.
Proof.
  intros Hinit Hg. unfold maze.generate in Hg.
  destruct (maze.carving rng m) as [[mc draws]| |] eqn:Hc; [|done..]. simpl in Hg.
  destruct (carving_count _ _ _ _ _ _ Hinit Hc) as (Hinv & _ & Hhc & Hwc).
  destruct (generate_start_end_spec _ _ _ _ _ Hinv Hg)
    as (sy & ey & _ & _ & Hw & Hh & _).
  pose proof (start_end_grid _ _ _ _ _ Hinv Hg) as Hok.
  rewrite <- Hh, <- Hw in Hok.
  destruct (ci_height _ _ Hinv) as [Hh3 _].
  split; [congruence|]. split; [congruence|]. split; [done|].
  unfold astar.__init__, maze.get_maze. cbn [astar.height astar.width].
  rewrite (grid_ok_shape (maze.height m') (maze.width m')); [done|lia|done].
Qed.

Lemma generate_grid_witness :
  maze.__init__ 5 5 = maze.Return maze5
  ∧ maze.generate 1 one_reroll maze5 = maze.Return maze5_done
  ∧ maze.width maze5_done = maze.width maze5 ∧ maze.height maze5_done = maze.height maze5
  ∧ grid_ok (maze.height maze5_done) (maze.width maze5_done) (maze.get_maze maze5_done)
  ∧ astar.height (astar.__init__ (maze.get_maze maze5_done)) = maze.height maze5_done
  ∧ astar.width (astar.__init__ (maze.get_maze maze5_done)) = maze.width maze5_done.
Proof.
  split; [reflexivity|]. split; [reflexivity|].
  apply (generate_grid 5 5 1 one_reroll maze5 maze5_done); reflexivity.
Defined.

(** * The pipeline of [main.py] *)

(** X17.  Generating a maze and searching it from its start to its end,
    as [main] does: [find_path] returns the one simple path of OPEN cells
    between the two; no path of OPEN cells is shorter; it has at least as
    many cells as the grid has columns and at most as many as the grid has
    OPEN cells. *)
Theorem generated_maze_solved width height fuel rng m m' :
  maze.__init__ width height = maze.Return m →
  maze.generate fuel rng m = maze.Return m' →
  ∃ s e path costs,
    maze.get_start m' = Some s ∧ maze.get_end m' = Some e
    ∧ (astar.find_path (astar.__init__ (maze.get_maze m')) s e).1 = Some (path, costs)
    ∧ simple_path (maze.get_maze m') s e path
    ∧ (∀ l, simple_path (maze.get_maze m') s e l → l = path)
    ∧ (∀ l, astar.open_path (astar.__init__ (maze.get_maze m')) s e l = true →
         (length path ≤ length l)%nat)
    ∧ maze.width m' ≤ Z.of_nat (length path)
      ≤ 2 * ((maze.height m' - 1) / 2 * ((maze.width m' - 1) / 2)) + 1.
Proof.
  intros Hinit Hg. pose proof Hg as Hg'. unfold maze.generate in Hg'.
  destruct (maze.carving rng m) as [[mc draws]| |] eqn:Hc; [|done..]. simpl in Hg'.
  destruct (carving_count _ _ _ _ _ _ Hinit Hc) as (Hinv & Hcnt & _).
  destruct (carved_count mc draws Hinv Hcnt) as [Hcells _].
  destruct (start_end_count _ _ _ _ _ Hinv Hg') as [Hlen Hin].
  destruct (generate_start_end_spec _ _ _ _ _ Hinv Hg')
    as (sy & ey & Hs & He & Hw & Hh & Hsy & Hey & _ & _ & Hopen & Htree).
  unfold maze.get_start, maze.get_end, maze.get_maze.
  assert (Hso : is_open (maze.maze m') (sy, 0)) by (apply Hopen; auto).
  assert (Heo : is_open (maze.maze m') (ey, maze.width mc - 1)) by (apply Hopen; auto).
  destruct (find_path_on_tree _ _ _ Htree Hso Heo) as (path & costs & Hr & Hsimple & Huniq).
  exists (sy, 0), (ey, maze.width mc - 1), path, costs.
  split; [done|]. split; [done|]. split; [done|]. split; [done|]. split; [done|].
  destruct Hsimple as (Hhd & Hla & Hnd & Hall & Hch).
  destruct (ci_width _ _ Hinv) as [Hw3 _].
  split; [|split].
  - intros l (Hh' & Hl' & Hw' & Hc')%open_path_spec.
    assert (HV : Forall (is_open (maze.maze m')) l).
    { apply Forall_forall. intros x Hx. by apply Hw'. }
    destruct (loop_erase (is_open (maze.maze m')) l _ _ Hh' Hl' HV Hc') as (l' & Hl'' & Hle).
    by rewrite <- (Huniq l' Hl'').
  - pose proof (heuristic_chained path _ _ Hch Hhd Hla) as Hheur.
    unfold astar.heuristic in Hheur. simpl in Hheur. lia.
  - assert (Hle : (length path ≤ length (open_cells m'))%nat).
    { apply submseteq_length, NoDup_submseteq; [done|].
      intros x Hx. apply Hin. by apply (proj1 (Forall_forall _ _) Hall). }
    rewrite Hh, Hw. lia.
Qed.

Lemma generated_maze_solved_witness :
  maze.__init__ 5 5 = maze.Return maze5
  ∧ maze.generate 1 one_reroll maze5 = maze.Return maze5_done
  ∧ ∃ s e path costs,
      maze.get_start maze5_done = Some s ∧ maze.get_end maze5_done = Some e
      ∧ (astar.find_path (astar.__init__ (maze.get_maze maze5_done)) s e).1
        = Some (path, costs)
      ∧ simple_path (maze.get_maze maze5_done) s e path
      ∧ (∀ l, simple_path (maze.get_maze maze5_done) s e l → l = path)
      ∧ (∀ l, astar.open_path (astar.__init__ (maze.get_maze maze5_done)) s e l = true →
           (length path ≤ length l)%nat)
      ∧ maze.width maze5_done ≤ Z.of_nat (length path)
        ≤ 2 * ((maze.height maze5_done - 1) / 2 * ((maze.width maze5_done - 1) / 2)) + 1.
Proof.
  split; [reflexivity|]. split; [reflexivity|].
  apply (generated_maze_solved 5 5 1 one_reroll maze5 maze5_done); reflexivity.
Defined.

(** * Properties of [Visualizer] *)

Lemma truthy_spec {A} (l : list A) : visualizer.truthy l = true ↔ l ≠ [].
Proof. by destruct l. Qed.

(** [draw_maze] redraws the maze axes and touches nothing else; the markers
    are there when there is a path. *)
Lemma draw_maze_spec v :
  ∃ ax, visualizer.draw_maze v
        = Some (visualizer.mkVisualizer (visualizer.maze v) ax (visualizer.text_ax v)
                  (visualizer.path_points v) (visualizer.current_path v)
                  (visualizer.animation v) (visualizer.is_animating v)
                  (visualizer.is_paused v) (visualizer.cost_history v))
    ∧ ((visualizer.path_points v = [] ∧ ax = [visualizer.Image (visualizer.maze v)])
       ∨ (∃ s e, head (visualizer.path_points v) = Some s
            ∧ last (visualizer.path_points v) = Some e
            ∧ ax = [visualizer.Image (visualizer.maze v);
                    visualizer.StartMarker s.2 s.1; visualizer.EndMarker e.2 e.1])).
Proof.
  unfold visualizer.draw_maze. destruct (visualizer.path_points v) as [|s l] eqn:Hp.
  - simpl. eexists. split; [done|]. by left.
  - simpl. destruct (last (s :: l)) as [e|] eqn:Hl.
    + simpl. eexists. split; [done|]. right. by exists s, e.
    + by apply last_None in Hl.
Qed.

(** A frame inside the path adds its point and redraws; a frame beyond it
    does nothing. *)
Lemma update_spec v frame :
  match visualizer.path_points v !! frame with
  | None => visualizer.update v frame = Some v
  | Some p =>
    ∃ ax texts,
      visualizer.update v frame
      = Some (visualizer.mkVisualizer (visualizer.maze v) ax texts
                (visualizer.path_points v) (visualizer.current_path v ++ [p])
                (visualizer.animation v) (visualizer.is_animating v)
                (visualizer.is_paused v) (visualizer.cost_history v))
      ∧ (∃ s e, head (visualizer.path_points v) = Some s
           ∧ last (visualizer.path_points v) = Some e
           ∧ ax = [visualizer.Image (visualizer.maze v);
                   visualizer.StartMarker s.2 s.1; visualizer.EndMarker e.2 e.1;
                   visualizer.PathLine (map snd (visualizer.current_path v ++ [p]))
                     (map fst (visualizer.current_path v ++ [p]))])
      ∧ texts = match visualizer.cost_history v !! frame with
                | Some c => map (λ l, visualizer.mkText l (visualizer.has_colon l))
                              (visualizer.info_text v frame c p)
                | None => visualizer.text_ax v
                end
  end.
Proof.
  unfold visualizer.update.
  destruct (visualizer.path_points v !! frame) as [p|] eqn:Hp.
  - pose proof (lookup_lt_Some _ _ _ Hp) as Hlt.
    apply Nat.ltb_lt in Hlt. rewrite Hlt. simpl.
    destruct (draw_maze_spec
      (visualizer.mkVisualizer (visualizer.maze v) (visualizer.maze_ax v)
         (visualizer.text_ax v) (visualizer.path_points v)
         (visualizer.current_path v ++ [p]) (visualizer.animation v)
         (visualizer.is_animating v) (visualizer.is_paused v) (visualizer.cost_history v)))
      as (ax & -> & Hax). simpl in Hax. simpl.
    destruct Hax as [[Hnil _]|(s & e & Hs & He & ->)]; [by rewrite Hnil in Hp|].
    assert (Ht : visualizer.truthy (visualizer.current_path v ++ [p]) = true)
      by (apply truthy_spec; by destruct (visualizer.current_path v)).
    rewrite Ht.
    destruct (visualizer.cost_history v !! frame) as [c|] eqn:Hc.
    + pose proof (lookup_lt_Some _ _ _ Hc) as Hlt'.
      apply Nat.ltb_lt in Hlt'. rewrite Hlt'.
      assert (Ht' : visualizer.truthy (visualizer.cost_history v) = true)
        by (apply truthy_spec; intros Hnil; by rewrite Hnil in Hc).
      rewrite Ht'. simpl. rewrite Hp. simpl.
      eexists _, _. split; [reflexivity|]. split; [|reflexivity]. by exists s, e.
    + apply lookup_ge_None in Hc.
      assert (Hlt' : (frame <? length (visualizer.cost_history v))%nat = false)
        by (apply Nat.ltb_ge; lia).
      rewrite Hlt', andb_false_r. eexists _, _. split; [done|]. split; [|done].
      by exists s, e.
  - apply lookup_ge_None in Hp.
    assert (Hlt : (frame <? length (visualizer.path_points v))%nat = false)
      by (apply Nat.ltb_ge; lia).
    by rewrite Hlt.
Qed.

Lemma omap_lookup_seq {A} (p l : list A) :
  omap (λ f, (p ++ l) !! f) (seq (length p) (length l)) = l.
Proof.
  revert p. induction l as [|x l IH]; intros p; [done|]. simpl.
  rewrite list_lookup_middle by done. f_equal.
  specialize (IH (p ++ [x])). rewrite <- app_assoc, length_app in IH. simpl in IH.
  by rewrite Nat.add_1_r in IH.
Qed.

Lemma draw_path_spec v path costs :
  ∃ ax ch, visualizer.draw_path v path costs
        = Some (visualizer.mkVisualizer (visualizer.maze v) ax (visualizer.text_ax v)
                  path [] (visualizer.animation v) (visualizer.is_animating v)
                  (visualizer.is_paused v) ch)
    ∧ ch = match costs with Some c => c | None => [] end.
Proof.
  unfold visualizer.draw_path.
  match goal with |- context [visualizer.draw_maze ?x] =>
    destruct (draw_maze_spec x) as (ax & -> & _) end.
  simpl. eexists _, _. split; [done|]. by destruct costs as [[|c cs]|].
Qed.

(** A run of frames adds the points of the frames that lie inside the path,
    in the order of the calls, and leaves the line through them on the
    maze axes. *)
Lemma updates_spec v fs :
  ∃ v2, visualizer.do_calls v (visualizer.Update <$> fs) = Some v2
    ∧ visualizer.maze v2 = visualizer.maze v
    ∧ visualizer.path_points v2 = visualizer.path_points v
    ∧ visualizer.current_path v2
      = visualizer.current_path v ++ omap (λ f, visualizer.path_points v !! f) fs
    ∧ visualizer.animation v2 = visualizer.animation v
    ∧ visualizer.is_animating v2 = visualizer.is_animating v
    ∧ visualizer.is_paused v2 = visualizer.is_paused v
    ∧ visualizer.cost_history v2 = visualizer.cost_history v
    ∧ (∀ f p, last fs = Some f → visualizer.path_points v !! f = Some p →
         ∃ s e, head (visualizer.path_points v) = Some s
           ∧ last (visualizer.path_points v) = Some e
           ∧ visualizer.maze_ax v2
             = [visualizer.Image (visualizer.maze v);
                visualizer.StartMarker s.2 s.1; visualizer.EndMarker e.2 e.1;
                visualizer.PathLine (map snd (visualizer.current_path v2))
                  (map fst (visualizer.current_path v2))]).
Proof.
  revert v. induction fs as [|f fs IH]; intros v.
  - exists v. simpl. rewrite app_nil_r. repeat split; done.
  - rewrite fmap_cons.
    change (visualizer.do_calls v (visualizer.Update f :: (visualizer.Update <$> fs)))
      with (visualizer.update v f ≫= λ v, visualizer.do_calls v (visualizer.Update <$> fs)).
    pose proof (update_spec v f) as Hu.
    destruct (visualizer.path_points v !! f) as [p|] eqn:Hp.
    + destruct Hu as (ax & texts & -> & (s & e & Hs & He & Hax) & _).
      cbn [mbind option_bind].
      match goal with |- context [visualizer.do_calls ?x _] =>
        destruct (IH x) as (v2 & Hr & Hm & Hpp & Hcp & Ha & Hia & Hip & Hch & Hlast) end.
      rewrite Hr.
      cbn [visualizer.maze visualizer.path_points visualizer.current_path
           visualizer.animation visualizer.is_animating visualizer.is_paused
           visualizer.cost_history] in *.
      exists v2. rewrite <- app_assoc in Hcp.
      split; [done|]. split; [done|]. split; [done|]. split; [rewrite Hcp; simpl; by rewrite Hp|].
      split; [done|]. split; [done|]. split; [done|]. split; [done|].
      intros f' p' Hl Hp'. destruct fs as [|f2 fs].
      * injection Hl as <-. rewrite Hp in Hp'. injection Hp' as <-.
        exists s, e. split; [done|]. split; [done|].
        injection Hr as <-. simpl. by rewrite Hax.
      * exact (Hlast f' p' Hl Hp').
    + rewrite Hu. cbn [mbind option_bind].
      destruct (IH v) as (v2 & Hr & Hm & Hpp & Hcp & Ha & Hia & Hip & Hch & Hlast).
      exists v2. split; [done|]. split; [done|]. split; [done|].
      split; [rewrite Hcp; simpl; by rewrite Hp|].
      split; [done|]. split; [done|]. split; [done|]. split; [done|].
      intros f' p' Hl Hp'. destruct fs as [|f2 fs]; [|exact (Hlast f' p' Hl Hp')].
      injection Hl as <-. congruence.
Qed.

(** ** The animation *)

Lemma alternates_snoc next l c :
  alternates next l = true →
  (alternates next (l ++ [c]) = true ↔
   c = match last l with
       | None => next
       | Some visualizer.stop => visualizer.start
       | Some visualizer.start => visualizer.stop
       end).
Proof.
  revert next. induction l as [|x l IH]; intros next Hl.
  - simpl. destruct c, next; simpl; split; first [done|intros H; discriminate H].
  - destruct x, next; simpl in Hl; try done.
    + change (alternates visualizer.stop ((visualizer.stop :: l) ++ [c]))
        with (alternates visualizer.start (l ++ [c])).
      rewrite (IH _ Hl). destruct l as [|y l]; [done|].
      change (last (visualizer.stop :: y :: l)) with (last (y :: l)).
      destruct (last (y :: l)) eqn:E; [done|by apply last_None in E].
    + change (alternates visualizer.start ((visualizer.start :: l) ++ [c]))
        with (alternates visualizer.stop (l ++ [c])).
      rewrite (IH _ Hl). destruct l as [|y l]; [done|].
      change (last (visualizer.start :: y :: l)) with (last (y :: l)).
      destruct (last (y :: l)) eqn:E; [done|by apply last_None in E].
Qed.

Lemma init_inv m : vis_inv (visualizer.__init__ m).
Proof.
  split; simpl; done.
Qed.

(** When [toggle_pause] raises, and what it leaves then. *)
Lemma toggle_pause_raises v :
  vis_inv v →
  match visualizer.toggle_pause v with
  | visualizer.Returns _ =>
    ∀ a, visualizer.animation v = Some a → visualizer.event_source_is_None a = false
  | visualizer.AttributeError v' =>
    (∃ a, visualizer.animation v = Some a ∧ visualizer.event_source_is_None a = true)
    ∧ v' = visualizer.mkVisualizer (visualizer.maze v) (visualizer.maze_ax v)
             (visualizer.text_ax v) (visualizer.path_points v) (visualizer.current_path v)
             (visualizer.animation v) (visualizer.is_animating v)
             (negb (visualizer.is_paused v)) (visualizer.cost_history v)
  end.
Proof.
  intros [H1 H2 H3]. unfold visualizer.toggle_pause.
  destruct (visualizer.is_animating v) eqn:Hia; simpl.
  - destruct (proj1 H1 eq_refl) as [a Ha]. rewrite Ha.
    destruct (visualizer.event_source_is_None a) eqn:Hn.
    + split; [by exists a|done].
    + by intros a' [= <-].
  - intros a Ha. assert (Hs : is_Some (visualizer.animation v)) by eauto.
    apply H1 in Hs. done.
Qed.

(** No call fails on an index, and every event keeps the invariant, the
    maze, and the animation once there is one. *)
Lemma do_call_inv v c :
  vis_inv v →
  ∃ v', visualizer.do_call v c = Some v' ∧ vis_inv v'
    ∧ visualizer.maze v' = visualizer.maze v
    ∧ (∀ a, visualizer.animation v = Some a →
         ∃ a', visualizer.animation v' = Some a'
           ∧ visualizer.frames a' = visualizer.frames a
           ∧ visualizer.interval a' = visualizer.interval a
           ∧ visualizer.event_source a `prefix_of` visualizer.event_source a').
Proof.
  intros Hinv.
  assert (Hsame : ∀ v', visualizer.maze v' = visualizer.maze v →
    visualizer.animation v' = visualizer.animation v →
    visualizer.is_animating v' = visualizer.is_animating v →
    visualizer.is_paused v' = visualizer.is_paused v →
    vis_inv v' ∧ visualizer.maze v' = visualizer.maze v
    ∧ (∀ a, visualizer.animation v = Some a →
         ∃ a', visualizer.animation v' = Some a'
           ∧ visualizer.frames a' = visualizer.frames a
           ∧ visualizer.interval a' = visualizer.interval a
           ∧ visualizer.event_source a `prefix_of` visualizer.event_source a')).
  { intros v' Hm Ha Hia Hip. split; [|split; [done|]].
    - destruct Hinv as [H1 H2 H3]. split; rewrite ?Ha, ?Hia, ?Hip; done.
    - intros a Hsome. exists a. by rewrite Ha. }
  destruct c as [|path costs|frame| | | |]; simpl.
  - destruct (draw_maze_spec v) as (ax & -> & _). eexists. split; [done|]. by apply Hsame.
  - destruct (draw_path_spec v path costs) as (ax & ch & -> & _).
    eexists. split; [done|]. by apply Hsame.
  - pose proof (update_spec v frame) as Hu.
    destruct (visualizer.path_points v !! frame) as [p|].
    + destruct Hu as (ax & texts & -> & _). eexists. split; [done|]. by apply Hsame.
    + rewrite Hu. eexists. split; [done|]. by apply Hsame.
  - eexists. split; [done|]. unfold visualizer.start_animation.
    destruct (visualizer.is_animating v) eqn:Hia; simpl; [by apply Hsame|].
    destruct (visualizer.path_points v) as [|p l] eqn:Hp; simpl; [by apply Hsame|].
    split; [|split; [done|]].
    + split; simpl.
      * split; [by eauto|done].
      * done.
      * intros a [= <-]. simpl. split; [lia|]. split; [lia|]. split; [done|]. done.
    + intros a Ha. destruct Hinv as [H1 _ _].
      assert (Hn : is_Some (visualizer.animation v)) by eauto.
      apply H1 in Hn. congruence.
  - eexists. split; [done|]. unfold visualizer.toggle_pause.
    destruct (visualizer.is_animating v) eqn:Hia; [|by apply Hsame].
    destruct Hinv as [H1 H2 H3].
    destruct (proj1 H1 Hia) as [a Ha]. simpl. rewrite Ha.
    destruct (H3 a Ha) as (Hf & Hi & Halt & Hp).
    destruct (visualizer.event_source_is_None a) eqn:Hn; simpl.
    + split; [|split; [done|]].
      * split; simpl.
        -- split; [by eauto|done].
        -- done.
        -- intros a' [= <-].
           split; [done|]. split; [done|]. split; [done|]. by rewrite Hn.
      * intros a' [= <-]. by exists a.
    + specialize (Hp eq_refl). split; [|split; [done|]].
      * split; simpl.
        -- split; [by eauto|done].
        -- done.
        -- intros a' [= <-]. simpl. split; [done|]. split; [done|].
           rewrite last_snoc. split.
           ++ apply alternates_snoc; [done|].
              destruct (visualizer.is_paused v); simpl.
              ** by rewrite (proj1 Hp eq_refl).
              ** destruct (last (visualizer.event_source a)) as [[]|] eqn:Hl; try done.
                 discriminate (proj2 Hp eq_refl).
           ++ intros _. destruct (visualizer.is_paused v); simpl; split;
                first [done|intros H; discriminate H].
      * intros a' [= <-].
        eexists. split; [done|]. simpl. split; [done|]. split; [done|].
        by apply prefix_app_r.
  - destruct (draw_maze_spec v) as (ax & Hd & _). unfold visualizer.show. rewrite Hd.
    eexists. split; [done|]. by apply Hsame.
  - eexists. split; [done|]. unfold visualizer.animation_ends.
    destruct (visualizer.animation v) as [a|] eqn:Ha; [|by apply Hsame].
    destruct Hinv as [H1 H2 H3]. destruct (H3 a Ha) as (Hf & Hi & Halt & Hp).
    split; [|split; [done|]].
    + split; simpl.
      * rewrite Ha in H1. split; [by eauto|]. intros _. by apply H1.
      * done.
      * intros a' [= <-]. simpl. done.
    + intros a' [= <-]. eexists. split; [done|]. done.
Qed.

Lemma do_calls_inv cs v :
  vis_inv v →
  ∃ v', visualizer.do_calls v cs = Some v' ∧ vis_inv v'
    ∧ visualizer.maze v' = visualizer.maze v
    ∧ (∀ a, visualizer.animation v = Some a →
         ∃ a', visualizer.animation v' = Some a'
           ∧ visualizer.frames a' = visualizer.frames a
           ∧ visualizer.interval a' = visualizer.interval a
           ∧ visualizer.event_source a `prefix_of` visualizer.event_source a').
Proof.
  revert v. induction cs as [|c cs IH]; intros v Hinv.
  - exists v. split; [done|]. split; [done|]. split; [done|].
    intros a Ha. by exists a.
  - destruct (do_call_inv v c Hinv) as (v1 & Hc & Hinv1 & Hm1 & Ha1).
    destruct (IH v1 Hinv1) as (v2 & Hcs & Hinv2 & Hm2 & Ha2).
    exists v2. simpl. rewrite Hc. simpl. split; [done|]. split; [done|].
    split; [congruence|]. intros a Ha.
    destruct (Ha1 a Ha) as (a1 & Hs1 & Hf1 & Hi1 & Hp1).
    destruct (Ha2 a1 Hs1) as (a2 & Hs2 & Hf2 & Hi2 & Hp2).
    exists a2. split; [done|]. split; [congruence|]. split; [congruence|].
    by transitivity (visualizer.event_source a1).
Qed.

(** X18.  After [draw_path], calls of [update] add to [current_path] the
    points of the path at the frames passed, in the order of the calls;
    a frame beyond the path adds nothing and a frame passed twice adds its
    point twice.  The frames 0, 1, ... of the whole path in turn leave
    [current_path] equal to the path, and after a frame inside the path the
    maze axes hold the image, the two markers at the ends of the path and
    the line through [current_path]. *)
Theorem update_replay v path costs fs :
  ∃ v1 v2,
    visualizer.draw_path v path costs = Some v1
    ∧ visualizer.do_calls v1 (visualizer.Update <$> fs) = Some v2
    ∧ visualizer.path_points v2 = path
    ∧ visualizer.current_path v2 = omap (λ f, path !! f) fs
    ∧ (fs = seq 0 (length path) → visualizer.current_path v2 = path)
    ∧ (∀ f p, last fs = Some f → path !! f = Some p →
         ∃ s e, head path = Some s ∧ last path = Some e
           ∧ visualizer.maze_ax v2
             = [visualizer.Image (visualizer.maze v);
                visualizer.StartMarker s.2 s.1; visualizer.EndMarker e.2 e.1;
                visualizer.PathLine (map snd (visualizer.current_path v2))
                  (map fst (visualizer.current_path v2))]).
Proof.
  destruct (draw_path_spec v path costs) as (ax & ch & Hd & _).
  eexists. destruct (updates_spec
    (visualizer.mkVisualizer (visualizer.maze v) ax (visualizer.text_ax v) path []
       (visualizer.animation v) (visualizer.is_animating v) (visualizer.is_paused v) ch) fs)
    as (v2 & Hr & Hm & Hpp & Hcp & _ & _ & _ & _ & Hlast).
  simpl in Hm, Hpp, Hcp, Hlast.
  exists v2. split; [exact Hd|]. split; [done|]. split; [done|]. split; [done|].
  split; [|done]. intros ->. rewrite Hcp. apply (omap_lookup_seq [] path).
Qed.

(** X19.  The panel shown while the path returned by [find_path] is
    replayed with its timeline: every frame of the path rewrites the panel;
    it shows the cell, the number of the frame as [g], the Manhattan distance
    to the end as [h], their sum as [f], the count of cells shown and of
    cells left; the status line reads that the end is reached on the last
    frame and that the cell is on the path on every other frame. *)
Theorem info_panel_on_path a start e (path : list pos) costs v i (p : pos) :
  (astar.find_path a start e).1 = Some (path, costs) →
  path !! i = Some p →
  ∃ v1 v2,
    visualizer.draw_path v path (Some costs) = Some v1
    ∧ visualizer.update v1 i = Some v2
    ∧ visualizer.text_ax v2
      = map (λ l, visualizer.mkText l (visualizer.has_colon l))
          [ "当前节点信息:";
            "坐标: (" +:+ pretty p.1 +:+ ", " +:+ pretty p.2 +:+ ")";
            "状态: " +:+ (if bool_decide (S i = length path)
                          then "已到达终点" else "在最短路径上");
            "";
            "代价评估:";
            "g(n) = " +:+ visualizer.fmt2 (Z.of_nat i) +:+ " (实际代价)";
            "h(n) = " +:+ visualizer.fmt2 (astar.heuristic p e) +:+ " (估计代价)";
            "f(n) = " +:+ visualizer.fmt2 (Z.of_nat i + astar.heuristic p e)
              +:+ " (总评估值)";
            "";
            "搜索进度:";
            "已探索节点: " +:+ pretty (Z.of_nat i + 1);
            "剩余节点: " +:+ pretty (Z.of_nat (length path) - Z.of_nat i - 1) ].
Proof.
  intros Hr Hp. unfold astar.find_path, astar.find_path_run in Hr. simpl in Hr.
  assert (Hne : path ≠ []) by (intros ->; done).
  destruct (search_loop_result a start e _ _ _ _ _ (initial_inv a start e) Hr)
    as [[-> _]|(front & Hpath & Hfront & Hcosts & _)]; [done|].
  assert (Hc : costs !! i
    = Some (astar.mkCost (Z.of_nat i) (astar.heuristic p e) (Z.of_nat i + astar.heuristic p e)
              (if bool_decide (S i = length path) then "reached" else "on_path"))).
  { rewrite Hcosts. unfold astar.generate_path_costs. rewrite list_lookup_imap, Hp. simpl.
    do 2 f_equal. rewrite Hpath in Hp |- *. rewrite length_app. simpl.
    destruct (decide (i < length front)%nat) as [Hlt|Hge].
    - rewrite lookup_app_l in Hp by done.
      rewrite bool_decide_eq_false_2, bool_decide_eq_false_2; [done|lia|].
      intros ->. apply Hfront. by apply list_elem_of_lookup_2 in Hp.
    - pose proof (lookup_lt_Some _ _ _ Hp) as Hlt. rewrite length_app in Hlt. simpl in Hlt.
      assert (i = length front) as -> by lia.
      rewrite list_lookup_middle in Hp by done. injection Hp as <-.
      rewrite !bool_decide_eq_true_2; [done|lia|done]. }
  destruct (draw_path_spec v path (Some costs)) as (ax & ch & Hd & ->).
  eexists. pose proof (update_spec
    (visualizer.mkVisualizer (visualizer.maze v) ax (visualizer.text_ax v) path []
       (visualizer.animation v) (visualizer.is_animating v) (visualizer.is_paused v) costs) i)
    as Hu.
  simpl in Hu. rewrite Hp, Hc in Hu. destruct Hu as (ax' & texts & Hu & _ & ->).
  eexists. split; [exact Hd|]. split; [exact Hu|]. simpl.
  unfold visualizer.status_text. by case_bool_decide.
Qed.

Lemma info_panel_on_path_witness :
  let a := astar.__init__ room_grid in
  let path := [(1, 0); (1, 1); (1, 2); (1, 3); (1, 4)] in
  let costs := [astar.mkCost 0 4 4 "on_path"; astar.mkCost 1 3 4 "on_path";
                astar.mkCost 2 2 4 "on_path"; astar.mkCost 3 1 4 "on_path";
                astar.mkCost 4 0 4 "reached"] in
  let v := visualizer.__init__ room_grid in
  (astar.find_path a (1, 0) (1, 4)).1 = Some (path, costs)
  ∧ path !! 4%nat = Some (1, 4)
  ∧ ∃ v1 v2,
      visualizer.draw_path v path (Some costs) = Some v1
      ∧ visualizer.update v1 4 = Some v2
      ∧ visualizer.text_ax v2
        = map (λ l, visualizer.mkText l (visualizer.has_colon l))
            [ "当前节点信息:";
              "坐标: (" +:+ pretty 1 +:+ ", " +:+ pretty 4 +:+ ")";
              "状态: " +:+ (if bool_decide (5%nat = length path)
                            then "已到达终点" else "在最短路径上");
              "";
              "代价评估:";
              "g(n) = " +:+ visualizer.fmt2 (Z.of_nat 4) +:+ " (实际代价)";
              "h(n) = " +:+ visualizer.fmt2 (astar.heuristic (1, 4) (1, 4)) +:+ " (估计代价)";
              "f(n) = " +:+ visualizer.fmt2 (Z.of_nat 4 + astar.heuristic (1, 4) (1, 4))
                +:+ " (总评估值)";
              "";
              "搜索进度:";
              "已探索节点: " +:+ pretty (Z.of_nat 4 + 1);
              "剩余节点: " +:+ pretty (Z.of_nat (length path) - Z.of_nat 4 - 1) ].
Proof.
  split; [vm_compute; reflexivity|]. split; [reflexivity|].
  apply (info_panel_on_path (astar.__init__ room_grid) (1, 0) (1, 4)
           [(1, 0); (1, 1); (1, 2); (1, 3); (1, 4)]
           [astar.mkCost 0 4 4 "on_path"; astar.mkCost 1 3 4 "on_path";
            astar.mkCost 2 2 4 "on_path"; astar.mkCost 3 1 4 "on_path";
            astar.mkCost 4 0 4 "reached"]
           (visualizer.__init__ room_grid) 4 (1, 4));
    [vm_compute; reflexivity|reflexivity].
Defined.

(** X20.  Whatever happens to a [Visualizer], in any order and any
    number of times (calls of its methods, and the library putting [None] in
    the [event_source] of the animation when it has played), no call fails on
    an index.  The object shows the maze it was made with; it is animating
    exactly when it holds an animation, and paused only then; the animation
    has at least one frame and an interval from 50 to 200; the timer was
    stopped and started in turn and, while it is there, was last stopped
    exactly when the object is paused.  [toggle_pause] raises AttributeError
    exactly when there is an animation whose [event_source] is [None]; it has
    then inverted [is_paused], called nothing on the timer and changed
    nothing else. *)
Theorem visualizer_calls_safe m cs :
  ∃ v, visualizer.do_calls (visualizer.__init__ m) cs = Some v
    ∧ visualizer.maze v = m ∧ vis_inv v
    ∧ ((∃ v', visualizer.toggle_pause v = visualizer.AttributeError v')
       ↔ (∃ a, visualizer.animation v = Some a
            ∧ visualizer.event_source_is_None a = true))
    ∧ (∀ v', visualizer.toggle_pause v = visualizer.AttributeError v' →
         v' = visualizer.mkVisualizer (visualizer.maze v) (visualizer.maze_ax v)
                (visualizer.text_ax v) (visualizer.path_points v)
                (visualizer.current_path v) (visualizer.animation v)
                (visualizer.is_animating v) (negb (visualizer.is_paused v))
                (visualizer.cost_history v)).
Proof.
  destruct (do_calls_inv cs _ (init_inv m)) as (v & Hr & Hinv & Hm & _).
  exists v. split; [done|]. split; [done|]. split; [done|].
  pose proof (toggle_pause_raises v Hinv) as Ht.
  destruct (visualizer.toggle_pause v) as [v1|v1].
  - split; [|done]. split; [by intros [? ?]|].
    intros (a & Ha & Hn). rewrite (Ht a Ha) in Hn. done.
  - destruct Ht as [Ha ->]. split; [|by intros ? [= <-]].
    split; [done|]. by eexists.
Qed.

(** The pause button after the animation has played: the library has put
    [None] in [event_source], and the click inverts [is_paused] and raises. *)
Example toggle_pause_after_end :
  let cs := [visualizer.DrawPath [(1, 0); (1, 1)] None; visualizer.StartAnimation;
             visualizer.Update 0; visualizer.Update 1; visualizer.AnimationEnds] in
  let left paused :=
    visualizer.mkVisualizer room_grid
      [visualizer.Image room_grid; visualizer.StartMarker 0 1; visualizer.EndMarker 1 1;
       visualizer.PathLine [0; 1] [1; 1]] [] [(1, 0); (1, 1)] [(1, 0); (1, 1)]
      (Some (visualizer.mkAnimation 2 50 [] true)) true paused [] in
  visualizer.do_calls (visualizer.__init__ room_grid) cs = Some (left false)
  ∧ visualizer.toggle_pause (left false) = visualizer.AttributeError (left true).
Proof.
  split; vm_compute; reflexivity.
Qed.

(** X21.  [start_animation] takes effect once in the life of the object:
    [is_animating] is never reset, so the animation made by the first click
    on a path is kept whatever is called afterwards, with the number of
    frames and the interval it was made with, also when [draw_path] has put
    another path since. *)
Theorem animation_one_shot m cs1 cs2 v1 v2 a :
  visualizer.do_calls (visualizer.__init__ m) cs1 = Some v1 →
  visualizer.animation v1 = Some a →
  visualizer.do_calls v1 cs2 = Some v2 →
  visualizer.is_animating v2 = true
  ∧ ∃ a', visualizer.animation v2 = Some a'
      ∧ visualizer.frames a' = visualizer.frames a
      ∧ visualizer.interval a' = visualizer.interval a
      ∧ visualizer.event_source a `prefix_of` visualizer.event_source a'.
Proof.
  intros H1 Ha H2.
  destruct (do_calls_inv cs1 _ (init_inv m)) as (v1' & Hr1 & Hinv1 & _).
  rewrite H1 in Hr1. injection Hr1 as <-.
  destruct (do_calls_inv cs2 v1 Hinv1) as (v2' & Hr2 & Hinv2 & _ & Hkeep).
  rewrite H2 in Hr2. injection Hr2 as <-.
  destruct (Hkeep a Ha) as (a' & Ha' & Hrest).
  split; [|by exists a'].
  apply (vi_animating _ Hinv2). by rewrite Ha'.
Qed.

Lemma animation_one_shot_witness :
  let cs1 := [visualizer.DrawPath [(1, 0); (1, 1)] None; visualizer.StartAnimation] in
  let cs2 := [visualizer.DrawPath [(1, 0); (1, 1); (1, 2)] None;
              visualizer.StartAnimation] in
  let a := visualizer.mkAnimation 2 50 [] false in
  let v1 := visualizer.mkVisualizer room_grid
              [visualizer.Image room_grid; visualizer.StartMarker 0 1;
               visualizer.EndMarker 1 1] [] [(1, 0); (1, 1)] [] (Some a) true false [] in
  let v2 := visualizer.mkVisualizer room_grid
              [visualizer.Image room_grid; visualizer.StartMarker 0 1;
               visualizer.EndMarker 2 1] [] [(1, 0); (1, 1); (1, 2)] [] (Some a)
              true false [] in
  visualizer.do_calls (visualizer.__init__ room_grid) cs1 = Some v1
  ∧ visualizer.animation v1 = Some a
  ∧ visualizer.do_calls v1 cs2 = Some v2
  ∧ visualizer.is_animating v2 = true
  ∧ ∃ a', visualizer.animation v2 = Some a'
      ∧ visualizer.frames a' = visualizer.frames a
      ∧ visualizer.interval a' = visualizer.interval a
      ∧ visualizer.event_source a `prefix_of` visualizer.event_source a'.
Proof.
  split; [reflexivity|]. split; [reflexivity|]. split; [reflexivity|].
  apply (animation_one_shot room_grid
           [visualizer.DrawPath [(1, 0); (1, 1)] None; visualizer.StartAnimation]
           [visualizer.DrawPath [(1, 0); (1, 1); (1, 2)] None; visualizer.StartAnimation]
           (visualizer.mkVisualizer room_grid
              [visualizer.Image room_grid; visualizer.StartMarker 0 1;
               visualizer.EndMarker 1 1] [] [(1, 0); (1, 1)] []
              (Some (visualizer.mkAnimation 2 50 [] false)) true false [])
           (visualizer.mkVisualizer room_grid
              [visualizer.Image room_grid; visualizer.StartMarker 0 1;
               visualizer.EndMarker 2 1] [] [(1, 0); (1, 1); (1, 2)] []
              (Some (visualizer.mkAnimation 2 50 [] false)) true false []));
    reflexivity.
Defined.
